(** * QREM: detector tomography and POVM tools

    A shallow embedding of the numerical core of [povmtools.py] and
    [DetectorTomography.py], followed by the properties established
    about it.

    Conventions of the embedding.
    - Python lists and numpy arrays are Rocq lists; a two-dimensional
      array is a list of rows.
    - Python integers used as labels (qubit positions, the iteration
      counter) are [Z]; list positions and lengths are [nat].
    - Real floating-point quantities (vector entries, norms,
      thresholds) are rationals [Q], compared with [==]; rounding,
      infinities and NaN are outside the model.
    - Complex matrix entries range over an abstract scalar type with
      the operations of a field; the laws are assumed only where a
      proof needs them.
    - The LAPACK/scipy kernels (matrix square root, inverse, norms)
      are an interface, [Linalg]; the control flow around them is
      embedded as written.
    - A raised exception is a value of [result]. *)

From Stdlib Require Import List NArith ZArith QArith Qabs Lia Lqa Bool Arith.
From Stdlib Require Qcanon.
From Stdlib Require Import Ascii Permutation Sorted SetoidList.
From Stdlib Require Import Ring Ring_theory Field Field_theory.
Import ListNotations.
Close Scope Q_scope.

Set Implicit Arguments.

(* ================================================================= *)
(** ** Exceptions *)

Inductive exn : Type :=
| IndexError
| ValueError
| LinAlgError
| FloatingPointError
| UnboundLocalError.

Inductive result (A : Type) : Type :=
| Ok (a : A)
| Raise (e : exn).

Arguments Ok {A} a.
Arguments Raise {A} e.

Definition bind {A B : Type} (c : result A) (k : A -> result B) : result B :=
  match c with
  | Ok a => k a
  | Raise e => Raise e
  end.

Notation "x <- c ;; k" := (bind c (fun x => k))
  (at level 61, c at next level, right associativity).

Fixpoint mapM {A B : Type} (f : A -> result B) (l : list A) : result (list B) :=
  match l with
  | [] => Ok []
  | x :: l' => y <- f x ;; ys <- mapM f l' ;; Ok (y :: ys)
  end.

Fixpoint foldM {A S : Type} (f : S -> A -> result S) (l : list A) (s : S) : result S :=
  match l with
  | [] => Ok s
  | x :: l' => s' <- f s x ;; foldM f l' s'
  end.

(* ================================================================= *)
(** ** Python lists *)

(** [l[i]] for a non-negative position. *)
Definition get {A : Type} (l : list A) (i : nat) : result A :=
  match nth_error l i with
  | Some x => Ok x
  | None => Raise IndexError
  end.

(** The position denoted by a Python index into a sequence of length
    [len]: negative indices count from the end. *)
Definition py_index (len : nat) (i : Z) : result nat :=
  if ((0 <=? i) && (i <? Z.of_nat len))%Z then Ok (Z.to_nat i)
  else if ((- Z.of_nat len <=? i) && (i <? 0))%Z then Ok (Z.to_nat (Z.of_nat len + i))
  else Raise IndexError.

(** [l[i] = v] for a position inside the list. *)
Fixpoint upd {A : Type} (i : nat) (v : A) (l : list A) : list A :=
  match l, i with
  | [], _ => []
  | _ :: l', O => v :: l'
  | x :: l', S i' => x :: upd i' v l'
  end.

(** Python's [<] on the types used as sort keys. *)
Class PyLt (K : Type) : Type := pylt : K -> K -> bool.

#[export] Instance PyLt_nat : PyLt nat := Nat.ltb.
#[export] Instance PyLt_Z : PyLt Z := Z.ltb.

Fixpoint str_ltb (s t : list ascii) : bool :=
  match s, t with
  | _, [] => false
  | [], _ :: _ => true
  | a :: s', b :: t' =>
      if Ascii.ltb a b then true
      else if Ascii.ltb b a then false
      else str_ltb s' t'
  end.

#[export] Instance PyLt_str : PyLt (list ascii) := str_ltb.

(** [sorted] is stable: an element moves past another one only when
    it has to.  [insert_by before x l] puts [x], which preceded every
    element of [l] in the input, in front of the first element that
    does not have to come before it. *)
Fixpoint insert_by {A : Type} (before : A -> A -> bool) (x : A) (l : list A) : list A :=
  match l with
  | [] => [x]
  | y :: l' => if before y x then y :: insert_by before x l' else x :: l
  end.

Definition sorted_by {A : Type} (before : A -> A -> bool) (l : list A) : list A :=
  fold_right (insert_by before) [] l.

(** [sorted(l, key=key)] *)
Definition sorted_key {A K : Type} `{PyLt K} (key : A -> K) (l : list A) : list A :=
  sorted_by (fun y x => pylt (key y) (key x)) l.

(** [sum(l)] on floats *)
Definition qsum (l : list Q) : Q := fold_left Qplus l 0%Q.

(* ================================================================= *)
(** ** povmtools.py: [find_closest_prob_vector] *)

Definition Qltb (x y : Q) : bool := if Qlt_le_dec x y then true else false.

(** [p1 = [[i, p000[i]] for i in range(d)]] *)
Definition enumerate (v : list Q) : list (nat * Q) := combine (seq 0 (length v)) v.

(** [p1_sorted[i][1] = v] *)
Definition set_val (i : nat) (v : Q) (l : list (nat * Q)) : list (nat * Q) :=
  firstn i l ++
  match skipn i l with
  | [] => []
  | x :: r => (fst x, v) :: r
  end.

(** [for j in range(k): p1_sorted[j][1] += c] *)
Definition add_prefix (k : nat) (c : Q) (l : list (nat * Q)) : list (nat * Q) :=
  map (fun x => (fst x, (snd x + c)%Q)) (firstn k l) ++ skipn k l.

(** The downward loop [for i in np.arange(0, d)[::-1]], entered with
    [k] positions left to visit, i.e. at [i = k - 1]. *)
Fixpoint scan (k : nat) (a : Q) (l : list (nat * Q)) : list (nat * Q) :=
  match k with
  | O => l
  | S i =>
      let mu_i := snd (nth i l (O, 0%Q)) in
      let share := (a / inject_Z (Z.of_nat (S i)))%Q in
      if Qltb (mu_i + share) 0 then scan i (a + mu_i)%Q (set_val i 0%Q l)
      else add_prefix (S i) share l
  end.

Definition find_closest_prob_vector (quasiprobability_vector : list Q) : list Q :=
  let d := length quasiprobability_vector in
  let p1 := enumerate quasiprobability_vector in
  (* sorted(p1, reverse=True, key=lambda x: x[1]) *)
  let p1_sorted := sorted_by (fun y x => Qltb (snd x) (snd y)) p1 in
  let p1_sorted := scan d 0%Q p1_sorted in
  let ordered_p := sorted_key fst p1_sorted in
  map (fun i => snd (nth i ordered_p (O, 0%Q))) (seq 0 d).

(** [is_valid_probability_vector] without its tolerance: entries are
    non-negative and sum to one. *)
Definition nonneg_vector (v : list Q) : Prop := Forall (fun x => (0 <= x)%Q) v.

(* ================================================================= *)
(** ** numpy arrays *)

(** The operations below are total.  numpy raises [ValueError] when
    the shapes of the operands of a product or a sum do not fit; the
    statements about matrices carry the shapes as hypotheses. *)

Class Scalar (C : Type) : Type := {
  c0 : C;
  c1 : C;
  cadd : C -> C -> C;
  cmul : C -> C -> C;
  csub : C -> C -> C;
  copp : C -> C
}.

Class Division (C : Type) : Type := {
  cdiv : C -> C -> C;
  cinv : C -> C;
  ceqb : C -> C -> bool
}.

(** The laws of exact arithmetic, for the proofs that compute with
    entries. *)
Class ScalarRing (C : Type) `{Scalar C} : Prop := {
  scalar_ring : ring_theory c0 c1 cadd cmul csub copp (@eq C)
}.

Class ScalarField (C : Type) `{Scalar C} `{Division C} : Prop := {
  scalar_field : field_theory c0 c1 cadd cmul csub copp cdiv cinv (@eq C);
  ceqb_eq : forall x y : C, ceqb x y = true <-> x = y
}.

Arguments ScalarRing C {_}.
Arguments ScalarField C {_ _}.

(** Integers and rationals as scalars. *)
#[export] Instance Scalar_Z : Scalar Z := {|
  c0 := 0%Z; c1 := 1%Z;
  cadd := Z.add; cmul := Z.mul; csub := Z.sub; copp := Z.opp
|}.

#[export] Instance Scalar_Qc : Scalar Qcanon.Qc := {|
  c0 := Qcanon.Q2Qc 0; c1 := Qcanon.Q2Qc 1;
  cadd := Qcanon.Qcplus; cmul := Qcanon.Qcmult;
  csub := Qcanon.Qcminus; copp := Qcanon.Qcopp
|}.

#[export] Instance Division_Qc : Division Qcanon.Qc := {|
  cdiv := Qcanon.Qcdiv; cinv := Qcanon.Qcinv; ceqb := Qcanon.Qc_eq_bool
|}.

Definition matrix (C : Type) : Type := list (list C).

Section Numpy.
Context {C : Type} `{Scalar C}.

Definition mk_matrix (r c : nat) (f : nat -> nat -> C) : matrix C :=
  map (fun i => map (f i) (seq 0 c)) (seq 0 r).

(** [np.zeros((r, c))] *)
Definition zeros (r c : nat) : matrix C := mk_matrix r c (fun _ _ => c0).

(** [np.eye(n)], [np.identity(n)] *)
Definition eye (n : nat) : matrix C :=
  mk_matrix n n (fun i j => if Nat.eqb i j then c1 else c0).

(** [M.shape[0]] and [M.shape[1]] *)
Definition nrows (M : matrix C) : nat := length M.
Definition ncols (M : matrix C) : nat :=
  match M with
  | [] => O
  | r :: _ => length r
  end.

Definition entry (M : matrix C) (i j : nat) : C := nth j (nth i M []) c0.

Definition csum (l : list C) : C := fold_left cadd l c0.

Definition dot (u v : list C) : C :=
  csum (map (fun p => cmul (fst p) (snd p)) (combine u v)).

Definition column (j : nat) (M : matrix C) : list C :=
  map (fun r => nth j r c0) M.

(** [A @ B] *)
Definition matmul (A B : matrix C) : matrix C :=
  map (fun row => map (fun j => dot row (column j B)) (seq 0 (ncols B))) A.

(** [np.kron(A, B)] *)
Definition kron (A B : matrix C) : matrix C :=
  flat_map (fun ra => map (fun rb => flat_map (fun a => map (cmul a) rb) ra) B) A.

Definition zip_with (f : C -> C -> C) (A B : matrix C) : matrix C :=
  map (fun p => map (fun q => f (fst q) (snd q)) (combine (fst p) (snd p)))
      (combine A B).

(** [A + B], [A - B], [x * A] *)
Definition madd : matrix C -> matrix C -> matrix C := zip_with cadd.
Definition msub : matrix C -> matrix C -> matrix C := zip_with csub.
Definition mscale (x : C) (A : matrix C) : matrix C := map (map (cmul x)) A.

(** [np.trace(A)] *)
Definition trace (A : matrix C) : C :=
  csum (map (fun i => entry A i i) (seq 0 (nrows A))).

(** [M[r, c] = v] *)
Definition upd_entry (r c : nat) (v : C) (M : matrix C) : matrix C :=
  upd r (upd c v (nth r M [])) M.

(** The shape test used in statements: [r] rows of [c] entries. *)
Definition has_shape (r c : nat) (M : matrix C) : Prop :=
  length M = r /\ Forall (fun row => length row = c) M.

(** The injection of a Python integer count into the scalars. *)
Definition c_of_nat (n : nat) : C := Nat.iter n (cadd c1) c0.
End Numpy.

(* ================================================================= *)
(** ** povmtools.py: classical registers and qubit permutations *)

Definition digit (b : bool) : ascii := if b then "1"%char else "0"%char.

Fixpoint bin_pos (p : positive) : list ascii :=
  match p with
  | xH => [digit true]
  | xO p' => bin_pos p' ++ [digit false]
  | xI p' => bin_pos p' ++ [digit true]
  end.

(** [bin(x)[2:]] *)
Definition bin (x : nat) : list ascii :=
  match N.of_nat x with
  | N0 => [digit false]
  | Npos p => bin_pos p
  end.

(** [s.zfill(n)] on a string without sign *)
Definition zfill (n : nat) (s : list ascii) : list ascii :=
  repeat (digit false) (n - length s) ++ s.

Definition digit_value (c : ascii) : result nat :=
  if Ascii.eqb c "0" then Ok O
  else if Ascii.eqb c "1" then Ok 1
  else Raise ValueError.

(** [int(s, 2)] on a string of binary digits; an empty string or a
    foreign character is a [ValueError]. *)
Definition int2 (s : list ascii) : result nat :=
  match s with
  | [] => Raise ValueError
  | _ => foldM (fun acc c => v <- digit_value c ;; Ok (2 * acc + v)) s O
  end.

(** [[(bin(j)[2:].zfill(n)) for j in list(range(2 ** n))]] *)
Definition standard_register (n : nat) : list (list ascii) :=
  map (fun j => zfill n (bin j)) (seq 0 (2 ^ n)).

(** [string[i], string[j] = string[j], string[i]] *)
Definition swap_chars (i j : Z) (s : list ascii) : result (list ascii) :=
  pj <- py_index (length s) j ;;
  pi <- py_index (length s) i ;;
  let cj := nth pj s "0"%char in
  let ci := nth pi s "0"%char in
  Ok (upd pj ci (upd pi cj s)).

Section QubitSwap.
Context {C : Type} `{Scalar C}.

(** One round of [for x in range(len(names))] in [qubit_swap]. *)
Definition swap_round (new_names : list (list ascii))
           (transformation : matrix C) (x : nat) : result (matrix C) :=
  s <- get new_names x ;;
  bit <- int2 s ;;
  if Nat.eqb bit x then Ok transformation
  else
    let t := upd_entry x x c0 transformation in
    let t := upd_entry bit bit c0 t in
    let t := upd_entry bit x c1 t in
    let t := upd_entry x bit c1 t in
    Ok t.

Definition qubit_swap (n : nat) (transposition : Z * Z) : result (matrix C) :=
  let D := 2 ^ n in
  let i := (fst transposition - 1)%Z in
  let j := (snd transposition - 1)%Z in
  let names := standard_register n in
  new_names <- mapM (swap_chars i j) names ;;
  foldM (swap_round new_names) (seq 0 (length names)) (eye D).

Definition permute_matrix (M : matrix C) (n : nat) (transposition : Z * Z)
  : result (matrix C) :=
  swap <- qubit_swap n transposition ;;
  Ok (matmul (matmul swap M) swap).
End QubitSwap.

(** [[x for _, x in sorted(zip(X, Y), key=lambda pair: pair[0])]] *)
Definition sort_things {A K : Type} `{PyLt K}
           (stuff_to_sort : list A) (according_to_what : list K) : list A :=
  map snd (sorted_key fst (combine according_to_what stuff_to_sort)).

Definition sort_bitstring (s : list ascii) (new_order : list Z) : list ascii :=
  sort_things s new_order.

Definition reorder_classical_register (new_order : list Z) : list (list ascii) :=
  let n := length new_order in
  map (fun s => sort_bitstring s new_order) (standard_register n).

(* ================================================================= *)
(** ** PyMaLi.GeneralTensorCalculator *)

(** The tuples of one-operand-per-factor choices, the last factor
    varying fastest. *)
Fixpoint operand_tuples {A : Type} (operand_lists : list (list A)) : list (list A) :=
  match operand_lists with
  | [] => [[]]
  | l :: rest =>
      flat_map (fun x => map (cons x) (operand_tuples rest)) l
  end.

(** Modelled from the spec: [GeneralTensorCalculator] and its method
    [calculate_tensor_to_increasing_list] are imported from the
    package [PyMaLi], which is not part of the sources at hand.  The
    spec (4.2) has it enumerate the Cartesian product of the operand
    lists with the last factor's index varying fastest and apply the
    combination rule to each selected tuple, operands in factor
    order. *)
Definition calculate_tensor_to_increasing_list {A : Type}
           (combine_rule : list A -> result A) (operand_lists : list (list A))
  : result (list A) :=
  mapM combine_rule (operand_tuples operand_lists).

(* ================================================================= *)
(** ** DetectorTomography.py *)

Section Composition.
Context {C : Type} `{Scalar C}.

Definition gtc_matrix_product_counting_function (arguments : list (matrix C))
  : result (matrix C) :=
  match arguments with
  | [] => Raise IndexError
  | a :: rest => Ok (fold_left matmul rest a)
  end.

(** [for j in range(len(indices_now))[::-1]], entered with [k]
    positions left, i.e. at [j = k - 1]. *)
Fixpoint relocate (qubits_num : nat) (indices_now : list Z) (k : nat)
         (swapped_povm : list (matrix C)) : result (list (matrix C)) :=
  match k with
  | O => Ok swapped_povm
  | S j =>
      index_qubit_now <- get indices_now j ;;
      swapped_povm' <-
        (if Z.eqb index_qubit_now (Z.of_nat j) then Ok swapped_povm
         else mapM (fun Mj => permute_matrix Mj qubits_num
                                (Z.of_nat j + 1, index_qubit_now + 1)%Z)
                   swapped_povm) ;;
      relocate qubits_num indices_now j swapped_povm'
  end.

Definition join_povms (povms : list (list (matrix C)))
           (qubit_indices_lists : list (list Z)) : result (list (matrix C)) :=
  let qubits_num := fold_left Nat.add (map (@length Z) qubit_indices_lists) O in
  swapped_povms <-
    mapM (fun i =>
            indices_now <- get qubit_indices_lists i ;;
            povm_now <- get povms i ;;
            let povm_now_extended :=
              map (fun Mi => kron Mi (eye (2 ^ (qubits_num - length indices_now))))
                  povm_now in
            relocate qubits_num indices_now (length indices_now) povm_now_extended)
         (seq 0 (length qubit_indices_lists)) ;;
  povm <- calculate_tensor_to_increasing_list
            gtc_matrix_product_counting_function swapped_povms ;;
  let indices_order := fold_left (@app Z) qubit_indices_lists [] in
  let new_classical_register := reorder_classical_register indices_order in
  Ok (sort_things povm new_classical_register).
End Composition.

(** The kernels of [numpy.linalg] and [scipy.linalg] used by the
    fitter. *)
Class Linalg (C : Type) : Type := {
  (** [sc.linalg.sqrtm(M)] *)
  sqrtm : matrix C -> matrix C;
  (** [np.linalg.inv(M)], which raises [LinAlgError] on a singular
      argument *)
  inv : matrix C -> result (matrix C);
  (** [np.linalg.norm(M, ord=2)] *)
  norm2 : matrix C -> Q;
  (** [np.linalg.norm(M) == 0] *)
  norm_is_zero : matrix C -> bool
}.

(** [QDTCalibrationSetup], with the probe states as its constructor
    derives them from the probe kets. *)
Record QDTCalibrationSetup (C : Type) : Type := {
  qubits_number : nat;
  probe_states : list (matrix C);
  frequencies_array : matrix C
}.

(** The local variables of [get_maximum_likelihood_povm_estimator]
    that live across iterations of its [while] loop. *)
Record loop_state (C : Type) : Type := {
  st_i : Z;
  st_current_difference : Q;
  st_threshold : Q;
  st_povm : list (matrix C);
  st_last_step_povm : option (list (matrix C))
}.

Inductive outcome (A : Type) : Type :=
| Returned (a : A)
| Raised (e : exn)
| OutOfFuel.

Arguments Returned {A} a.
Arguments Raised {A} e.
Arguments OutOfFuel {A}.

Section Fitter.
Context {C : Type} `{Scalar C} `{Division C} `{Linalg C}.

(** Division of numpy scalars.  A zero divisor does not stop numpy
    (it yields [inf] or [nan] under a [RuntimeWarning]); here it is
    a fault, so that a result [Ok] certifies that none occurred. *)
Definition np_divide (x y : C) : result C :=
  if ceqb y c0 then Raise FloatingPointError else Ok (cdiv x y).

(** [M / n] for an integer [n] *)
Definition mdiv_int (M : matrix C) (n : nat) : matrix C :=
  map (map (fun x => cdiv x (c_of_nat n))) M.

Definition get_r_operator (m_m : matrix C) (index_of_povm_effect : nat)
           (frequencies_array : matrix C) (probe_states : list (matrix C))
  : result (matrix C) :=
  let number_of_probe_states := nrows frequencies_array in
  first_state <- get probe_states 0 ;;
  let d := nrows first_state in
  m_r <- foldM
           (fun m_r probe_state_index =>
              rho <- get probe_states probe_state_index ;;
              let expectation_value_on_probe_state := trace (matmul m_m rho) in
              if ceqb expectation_value_on_probe_state c0 then Ok m_r
              else
                row <- get frequencies_array probe_state_index ;;
                f <- get row index_of_povm_effect ;;
                x <- np_divide f expectation_value_on_probe_state ;;
                Ok (madd m_r (mscale x rho)))
           (seq 0 number_of_probe_states) (zeros d d) ;;
  Ok (if norm_is_zero m_r then zeros d d else m_r).

Definition get_lagrange_matrix (r_matrices povms : list (matrix C))
  : result (matrix C) :=
  let number_of_povms := length povms in
  first_effect <- get povms 0 ;;
  let dimension := nrows first_effect in
  second_power_of_lagrange_matrix <-
    foldM (fun acc j =>
             r <- get r_matrices j ;;
             m <- get povms j ;;
             Ok (madd acc (matmul (matmul r m) r)))
          (seq 0 number_of_povms) (zeros dimension dimension) ;;
  Ok (sqrtm second_power_of_lagrange_matrix).

Definition calculate_symmetric_m (m_lagrange_matrix m_r m_m : matrix C)
  : result (matrix C) :=
  m_inversed_lagrange_matrix <-
    match inv m_lagrange_matrix with
    | Raise LinAlgError => Ok (eye (nrows m_lagrange_matrix))
    | other => other
    end ;;
  Ok (matmul (matmul (matmul (matmul m_inversed_lagrange_matrix m_r) m_m) m_r)
             m_inversed_lagrange_matrix).

Section Loop.
Variable calibration_setup : QDTCalibrationSetup C.

(** [frequencies_array.shape[1]]: the source calls this count
    [number_of_probe_states]. *)
Definition number_of_probe_states : nat :=
  ncols (frequencies_array calibration_setup).

(** The three statements of the loop body that produce the next
    POVM. *)
Definition update_povm (povm : list (matrix C)) : result (list (matrix C)) :=
  r_matrices <-
    mapM (fun j =>
            effect <- get povm j ;;
            get_r_operator effect j (frequencies_array calibration_setup)
                           (probe_states calibration_setup))
         (seq 0 number_of_probe_states) ;;
  lagrange_matrix <- get_lagrange_matrix r_matrices povm ;;
  mapM (fun j =>
          r <- get r_matrices j ;;
          effect <- get povm j ;;
          calculate_symmetric_m lagrange_matrix r effect)
       (seq 0 number_of_probe_states).

(** [sum([np.linalg.norm(povm[k] - last_step_povm[k], ord=2) ...])] *)
Definition convergence_sum (povm last_step_povm : list (matrix C)) : result Q :=
  norms <- mapM (fun k =>
                   a <- get povm k ;;
                   b <- get last_step_povm k ;;
                   Ok (norm2 (msub a b)))
                (seq 0 number_of_probe_states) ;;
  Ok (qsum norms).

(** The guard of the [while] loop. *)
Definition loop_guard (st : loop_state C) : bool :=
  Qle_bool (st_threshold st) (Qabs (st_current_difference st)).

(** One execution of the body of the [while] loop. *)
Definition loop_body (st : loop_state C) : result (loop_state C) :=
  let i := (st_i st + 1)%Z in
  let last_step_povm :=
    if (i mod 50 =? 0)%Z then Some (st_povm st) else st_last_step_povm st in
  povm <- update_povm (st_povm st) ;;
  if (i mod 50 =? 0)%Z then
    match last_step_povm with
    | None => Raise UnboundLocalError
    | Some recorded =>
        current_difference <- convergence_sum povm recorded ;;
        Ok {| st_i := i;
              st_current_difference := current_difference;
              st_threshold := st_threshold st;
              st_povm := povm;
              st_last_step_povm := last_step_povm |}
    end
  else if (500000 <? i)%Z then
    Ok {| st_i := i;
          st_current_difference := st_current_difference st;
          st_threshold := (1 # 1000)%Q;
          st_povm := povm;
          st_last_step_povm := last_step_povm |}
  else if (100000 <? i)%Z then
    Ok {| st_i := i;
          st_current_difference := st_current_difference st;
          st_threshold := (1 # 10000)%Q;
          st_povm := povm;
          st_last_step_povm := last_step_povm |}
  else
    Ok {| st_i := i;
          st_current_difference := st_current_difference st;
          st_threshold := st_threshold st;
          st_povm := povm;
          st_last_step_povm := last_step_povm |}.

Fixpoint while_loop (fuel : nat) (st : loop_state C) : outcome (list (matrix C)) :=
  if loop_guard st then
    match fuel with
    | O => OutOfFuel
    | S fuel' =>
        match loop_body st with
        | Ok st' => while_loop fuel' st'
        | Raise e => Raised e
        end
    end
  else Returned (st_povm st).

(** The POVM the iteration starts from. *)
Definition initial_povm (dimension : nat) : list (matrix C) :=
  map (fun _ => mdiv_int (eye dimension) number_of_probe_states)
      (seq 0 number_of_probe_states).

Definition initial_state (algorithmConvergenceThreshold : Q) (dimension : nat)
  : loop_state C :=
  {| st_i := 0%Z;
     st_current_difference := 1%Q;
     st_threshold := algorithmConvergenceThreshold;
     st_povm := initial_povm dimension;
     st_last_step_povm := None |}.

Definition get_maximum_likelihood_povm_estimator
           (algorithmConvergenceThreshold : Q) (fuel : nat)
  : outcome (list (matrix C)) :=
  match get (probe_states calibration_setup) 0 with
  | Raise e => Raised e
  | Ok first_state =>
      while_loop fuel
        (initial_state algorithmConvergenceThreshold (nrows first_state))
  end.

(** The state after [k] executions of the loop body, the guard
    left aside. *)
Fixpoint iterate (k : nat) (st : loop_state C) : result (loop_state C) :=
  match k with
  | O => Ok st
  | S k' => st' <- loop_body st ;; iterate k' st'
  end.
End Loop.
End Fitter.

(* ================================================================= *)
(** ** Exact kernels on diagonal rational matrices *)

(** On diagonal matrices with rational entries the kernels of
    [Linalg] have closed forms: the principal square root of
    [diag(x_i)] is [diag(sqrt x_i)], rational whenever every [x_i] is
    the square of a rational; the inverse is [diag(1 / x_i)] and fails
    exactly when some [x_i] is zero; the spectral norm is the largest
    [|x_i|]; the Frobenius norm vanishes exactly when every entry
    does.  Calibration data whose probe states are computational-basis
    projectors keeps every matrix of the iteration diagonal. *)
Definition qc_sqrt (x : Qcanon.Qc) : Qcanon.Qc :=
  Qcanon.Q2Qc (Z.sqrt (Qnum (Qcanon.this x)) # Pos.sqrt (Qden (Qcanon.this x))).

Definition diagonal (n : nat) (f : nat -> Qcanon.Qc) : matrix Qcanon.Qc :=
  mk_matrix n n (fun i j => if Nat.eqb i j then f i else c0).

Definition Qmax (x y : Q) : Q := if Qle_bool x y then y else x.

#[export] Instance Linalg_diagonal : Linalg Qcanon.Qc := {|
  sqrtm := fun M => diagonal (nrows M) (fun i => qc_sqrt (entry M i i));
  inv := fun M =>
           if existsb (fun i => ceqb (entry M i i) c0) (seq 0 (nrows M))
           then Raise LinAlgError
           else Ok (diagonal (nrows M) (fun i => cinv (entry M i i)));
  norm2 := fun M =>
             fold_left Qmax
                       (map (fun i => Qabs (Qcanon.this (entry M i i)))
                            (seq 0 (nrows M)))
                       0%Q;
  norm_is_zero := fun M => forallb (forallb (fun x => ceqb x c0)) M
|}.

Definition qc (a : Z) (b : positive) : Qcanon.Qc := Qcanon.Q2Qc (a # b).

(** One qubit calibrated with the probe states [|0><0|] and [|1><1|]
    only; the detector reports the right outcome seven times out of
    eight. *)
Definition basis_probe_setup : QDTCalibrationSetup Qcanon.Qc := {|
  qubits_number := 1;
  probe_states := [ [[qc 1 1; qc 0 1]; [qc 0 1; qc 0 1]];
                    [[qc 0 1; qc 0 1]; [qc 0 1; qc 1 1]] ];
  frequencies_array := [ [qc 7 8; qc 1 8]; [qc 1 8; qc 7 8] ]
|}.

(** The same probes with a detector that answers at random. *)
Definition unbiased_setup : QDTCalibrationSetup Qcanon.Qc := {|
  qubits_number := 1;
  probe_states := [ [[qc 1 1; qc 0 1]; [qc 0 1; qc 0 1]];
                    [[qc 0 1; qc 0 1]; [qc 0 1; qc 1 1]] ];
  frequencies_array := [ [qc 1 2; qc 1 2]; [qc 1 2; qc 1 2] ]
|}.

(** The two POVMs between which the iteration alternates on
    [basis_probe_setup]. *)
Definition uniform_povm : list (matrix Qcanon.Qc) :=
  [ [[qc 1 2; qc 0 1]; [qc 0 1; qc 1 2]];
    [[qc 1 2; qc 0 1]; [qc 0 1; qc 1 2]] ].

Definition overshot_povm : list (matrix Qcanon.Qc) :=
  [ [[qc 49 50; qc 0 1]; [qc 0 1; qc 1 50]];
    [[qc 1 50; qc 0 1]; [qc 0 1; qc 49 50]] ].

(** Decidable equality of POVMs with rational entries. *)
Fixpoint list_eqb {A : Type} (eqb : A -> A -> bool) (l1 l2 : list A) : bool :=
  match l1, l2 with
  | [], [] => true
  | x :: l1', y :: l2' => eqb x y && list_eqb eqb l1' l2'
  | _, _ => false
  end.

Definition matrix_eqb : matrix Qcanon.Qc -> matrix Qcanon.Qc -> bool :=
  list_eqb (list_eqb Qcanon.Qc_eq_bool).

Definition povm_eqb : list (matrix Qcanon.Qc) -> list (matrix Qcanon.Qc) -> bool :=
  list_eqb matrix_eqb.

(* ================================================================= *)
(** ** Vocabulary of the statements *)

(** The descending sort by value used by the projection. *)
Definition by_value_desc (l : list (nat * Q)) : list (nat * Q) :=
  sorted_by (fun y x => Qltb (snd x) (snd y)) l.

(** Every entry is at least as large as any later one. *)
Definition descending (l : list (nat * Q)) : Prop :=
  forall p1 x p2, l = p1 ++ x :: p2 -> Forall (fun y => (snd x <= snd y)%Q) p1.

(** Strings of binary digits and the numbers they denote. *)
Definition is_bit (c : ascii) : Prop := c = "0"%char \/ c = "1"%char.

Definition bit_value (c : ascii) : nat := if Ascii.eqb c "1" then 1 else 0.

(** The number a string of binary digits denotes. *)
Definition value (s : list ascii) : nat :=
  fold_left (fun acc c => 2 * acc + bit_value c) s 0.

(** What [swap_chars] returns when both positions exist. *)
Definition exchange (p q : nat) (s : list ascii) : list ascii :=
  upd q (nth p s "0"%char) (upd p (nth q s "0"%char) s).

(** The permutation of register indices induced by exchanging
    positions [p] and [q] of their [n]-digit labels. *)
Definition bit_swap (n p q x : nat) : nat :=
  value (exchange p q (zfill n (bin x))).

Section SwapVocabulary.
Context {C : Type} `{Scalar C}.

(** The matrix with a one at [(r, sigma r)] in every row. *)
Definition perm_matrix (D : nat) (sigma : nat -> nat) : matrix C :=
  mk_matrix D D (fun r c => if Nat.eqb c (sigma r) then c1 else c0).

(** What one round of the loop of [qubit_swap] does to the table. *)
Definition round_pure (sigma : nat -> nat) (t : matrix C) (x : nat) : matrix C :=
  if Nat.eqb (sigma x) x then t
  else upd_entry x (sigma x) c1
         (upd_entry (sigma x) x c1
            (upd_entry (sigma x) (sigma x) c0 (upd_entry x x c0 t))).

(** The table after the rounds [0 .. k-1]: the rows already visited,
    and their partners, are rows of the permutation. *)
Definition partial_swap (sigma : nat -> nat) (k r c : nat) : C :=
  if Nat.ltb r k || Nat.ltb (sigma r) k
  then (if Nat.eqb c (sigma r) then c1 else c0)
  else (if Nat.eqb c r then c1 else c0).

End SwapVocabulary.

(** A three-outcome POVM on one qubit, [{|0><0|, |1><1|, 0}], and the
    projective measurement [{|0><0|, |1><1|}]. *)
Definition three_outcome_povm : list (matrix Z) :=
  [ [[1; 0]; [0; 0]]; [[0; 0]; [0; 1]]; [[0; 0]; [0; 0]] ]%Z.

Definition projective_povm : list (matrix Z) :=
  [ [[1; 0]; [0; 0]]; [[0; 0]; [0; 1]] ]%Z.

Section ROperatorVocabulary.
Context {C : Type} `{Scalar C} `{Division C}.

(** [Tr(M rho)] *)
Definition expectation (m_m rho : matrix C) : C := trace (matmul m_m rho).

(** The probe states, by position, on which the effect has a
    non-zero expectation value. *)
Definition contributing (m_m : matrix C) (probe_states : list (matrix C))
  : list nat :=
  filter (fun s => negb (ceqb (expectation m_m (nth s probe_states [])) c0))
         (seq 0 (length probe_states)).

(** [[f(s, j) / Tr(M rho_s)] rho_s] *)
Definition r_term (m_m : matrix C) (j : nat) (frequencies : matrix C)
           (probe_states : list (matrix C)) (s : nat) : matrix C :=
  mscale (cdiv (entry frequencies s j)
               (expectation m_m (nth s probe_states [])))
         (nth s probe_states []).

(** The sum of the terms of the contributing probe states, added in
    order onto the zero matrix. *)
Definition r_sum (m_m : matrix C) (j : nat) (frequencies : matrix C)
           (probe_states : list (matrix C)) (d : nat) : matrix C :=
  fold_left madd
            (map (r_term m_m j frequencies probe_states)
                 (contributing m_m probe_states))
            (zeros d d).

End ROperatorVocabulary.

Section LagrangeVocabulary.
Context {C : Type} `{Scalar C} `{Division C} `{Linalg C}.

(** The R-operators of all effects, as the loop body collects them. *)
Definition r_matrices_of (calibration_setup : QDTCalibrationSetup C)
           (povm : list (matrix C)) : result (list (matrix C)) :=
  mapM (fun j =>
          effect <- get povm j ;;
          get_r_operator effect j (frequencies_array calibration_setup)
                         (probe_states calibration_setup))
       (seq 0 (number_of_probe_states calibration_setup)).

(** The matrix [sum_j R_j M_j R_j] whose square root
    [__get_lagrange_matrix] returns. *)
Definition second_power_of_lagrange_matrix (r_matrices povms : list (matrix C))
  : result (matrix C) :=
  first_effect <- get povms 0 ;;
  let dimension := nrows first_effect in
  foldM (fun acc j =>
           r <- get r_matrices j ;;
           m <- get povms j ;;
           Ok (madd acc (matmul (matmul r m) r)))
        (seq 0 (length povms)) (zeros dimension dimension).
End LagrangeVocabulary.

(** The states the loop passes through on [basis_probe_setup]. *)
Definition oscillating (st : loop_state Qcanon.Qc) : Prop :=
  (st_povm st = uniform_povm \/ st_povm st = overshot_povm)
  /\ (st_threshold st <= 1 # 1000)%Q
  /\ (1 # 2 <= st_current_difference st)%Q.

(* ================================================================= *)
(** ** povmtools.py: probability vectors *)

(** The loop of [is_valid_probability_vector]: [None] is the early
    [return False] on a negative entry, otherwise the accumulated
    sum. *)
Fixpoint accumulate_nonnegative (examined_vector : list Q) (values_sum : Q)
  : option Q :=
  match examined_vector with
  | [] => Some values_sum
  | value :: rest =>
      if Qltb value 0 then None
      else accumulate_nonnegative rest (values_sum + value)%Q
  end.

Definition is_valid_probability_vector (examined_vector : list Q) (threshold : Q)
  : bool :=
  match accumulate_nonnegative examined_vector 0%Q with
  | None => false
  | Some values_sum => Qltb (Qabs (values_sum - 1)) threshold
  end.

(** [p - q] on one-dimensional arrays, with numpy's broadcasting of
    an array of length one; other length mismatches raise
    [ValueError]. *)
Definition np_subtract (p q : list Q) : result (list Q) :=
  if Nat.eqb (length p) (length q)
  then Ok (map (fun xy => (fst xy - snd xy)%Q) (combine p q))
  else match p, q with
       | [x], _ => Ok (map (fun y => (x - y)%Q) q)
       | _, [y] => Ok (map (fun x => (x - y)%Q) p)
       | _, _ => Raise ValueError
       end.

(** [np.linalg.norm(v, ord=1)] of a one-dimensional array *)
Definition norm1 (v : list Q) : Q := qsum (map Qabs v).

Definition calculate_total_variation_distance (p q : list Q) : result Q :=
  difference <- np_subtract p q ;;
  Ok (norm1 difference / 2)%Q.

(** [reorder_probabilities] on a Python list of probabilities. *)
Definition reorder_probabilities (probabilities : list Q) (new_order : list Z)
  : list Q :=
  let new_classical_register := reorder_classical_register new_order in
  sort_things probabilities new_classical_register.

(** The squared Euclidean distance between two vectors. *)
Definition sq_distance (u v : list Q) : Q :=
  qsum (map (fun xy => ((fst xy - snd xy) * (fst xy - snd xy))%Q) (combine u v)).

(* ================================================================= *)
(** ** povmtools.py: diagonal and off-diagonal parts *)

Section DiagonalParts.
Context {C : Type} `{Scalar C}.

(** [M[r, c] = v] with numpy's bounds check. *)
Definition set_entry (r c : nat) (v : C) (M : matrix C) : result (matrix C) :=
  row <- get M r ;;
  if Nat.ltb c (length row) then Ok (upd r (upd c v row) M)
  else Raise IndexError.

Definition get_off_diagonal_from_matrix (M : matrix C) : result (matrix C) :=
  let matrix_dimension := nrows M in
  foldM (fun matrix_off_diagonal i => set_entry i i c0 matrix_off_diagonal)
        (seq 0 matrix_dimension) M.

Definition get_off_diagonal_povm_part (povm : list (matrix C))
  : result (list (matrix C)) :=
  mapM get_off_diagonal_from_matrix povm.

(** [np.diag(M)] of a two-dimensional array: its main diagonal. *)
Definition np_diag (M : matrix C) : list C :=
  map (fun i => entry M i i) (seq 0 (Nat.min (nrows M) (ncols M))).

(** [np.diagflat(v)] *)
Definition np_diagflat (v : list C) : matrix C :=
  mk_matrix (length v) (length v)
            (fun i j => if Nat.eqb i j then nth i v c0 else c0).

Definition get_diagonal_povm_part (povm : list (matrix C)) : list (matrix C) :=
  map (fun effect => np_diagflat (np_diag effect)) povm.

End DiagonalParts.

(* ================================================================= *)
(** ** DetectorTomography.py: [gtc_tensor_counting_function] *)

Section TensorCountingFunction.
Context {C : Type} `{Scalar C}.

(** The scalar [1] the loop starts from is the one-by-one array. *)
Definition gtc_tensor_counting_function (arguments : list (matrix C)) : matrix C :=
  fold_left kron arguments [[c1]].

(** The Kronecker product of two rows, as [kron] forms it. *)
Definition row_kron (ra rb : list C) : list C :=
  flat_map (fun a => map (cmul a) rb) ra.
End TensorCountingFunction.

(* ================================================================= *)
(** ** povmtools.py: [operational_distance_POVMs], method ['direct'] *)

(** [itertools.combinations(l, r)]: the sub-tuples of length [r], in
    the lexicographic order of their positions. *)
Fixpoint combinations {A : Type} (l : list A) (r : nat) : list (list A) :=
  match l with
  | [] => match r with
          | O => [[]]
          | S _ => []
          end
  | x :: l' =>
      match r with
      | O => [[]]
      | S r' => map (cons x) (combinations l' r') ++ combinations l' r
      end
  end.

Section OperationalDistance.
Context {C : Type} `{Scalar C} `{Linalg C}.

(** [sum(l)] on a tuple of arrays: the start value [0] is added to
    the first array entry by entry.  The tuples of the loop are
    never empty. *)
Definition sum_arrays (l : list (matrix C)) : matrix C :=
  match l with
  | [] => []
  | X :: rest => fold_left madd rest (map (map (cadd c0)) X)
  end.

(** One round of the inner loop. *)
Definition keep_biggest (biggest_norm : Q) (l : list (matrix C)) : Q :=
  let current_sum := sum_arrays l in
  let current_norm := norm2 current_sum in
  if Qltb biggest_norm current_norm then current_norm else biggest_norm.

(** The brute-force search over the subsets of outcomes, the
    branch [method='direct'] (the default). *)
Definition operational_distance_POVMs (M P : list (matrix C)) : result Q :=
  let m := length M in
  difference <- mapM (fun i => Mi <- get M i ;; Pi <- get P i ;;
                               Ok (msub Mi Pi))
                     (seq 0 m) ;;
  Ok (fold_left
        (fun biggest_norm k =>
           let current_list := combinations difference (k + 1) in
           fold_left keep_biggest current_list biggest_norm)
        (rev (seq 0 m)) 0%Q).
End OperationalDistance.

(** [l] is obtained from [D] by leaving entries out. *)
Inductive subsequence {A : Type} : list A -> list A -> Prop :=
| subsequence_nil : subsequence [] []
| subsequence_take (x : A) (l D : list A) :
    subsequence l D -> subsequence (x :: l) (x :: D)
| subsequence_skip (x : A) (l D : list A) :
    subsequence l D -> subsequence l (x :: D).

(* ================================================================= *)
(** ** Vocabulary for the loop of the estimator *)

(** The threshold in force after [i] executions of the loop body,
    started with [threshold]. *)
Definition staircase_threshold (threshold : Q) (i : Z) : Q :=
  if (500000 <? i)%Z then (1 # 1000)%Q
  else if (100000 <? i)%Z then (1 # 10000)%Q
       else threshold.

(** The sum of the effects of a POVM on a space of dimension [d]. *)
Definition povm_sum {C : Type} `{Scalar C} (d : nat) (povm : list (matrix C))
  : matrix C :=
  fold_left madd povm (zeros d d).

(** The kernels are exact on [S]: [sqrtm S] is a [d x d] matrix that
    squares to [S], and [inv] returns a [d x d] two-sided inverse
    [Li] of it. *)
Definition exact_kernels {C : Type} `{Scalar C} `{Linalg C} (d : nat)
           (S Li : matrix C) : Prop :=
  has_shape d d (sqrtm S)
  /\ matmul (sqrtm S) (sqrtm S) = S
  /\ inv (sqrtm S) = Ok Li
  /\ has_shape d d Li
  /\ matmul Li (sqrtm S) = eye d
  /\ matmul (sqrtm S) Li = eye d.

(* ================================================================= *)
(** ** Vocabulary for probability vectors *)

(** Half the sum of the absolute differences of two vectors, entry
    by entry. *)
Definition half_l1_distance (p q : list Q) : Q :=
  (norm1 (map (fun xy => (fst xy - snd xy)%Q) (combine p q)) / 2)%Q.

(** [x] is [v] shifted by [c] and clipped at zero: [x = max(v + c, 0)]. *)
Definition clipped_shift (c v x : Q) : Prop :=
  ((x == v + c)%Q /\ (0 <= x)%Q) \/ ((x == 0)%Q /\ (v + c <= 0)%Q).

(** An entry of the input, with its position, and the entry the scan
    leaves at that position. *)
Definition level_pair (c : Q) (before after : nat * Q) : Prop :=
  fst before = fst after /\ clipped_shift c (snd before) (snd after).

(* ================================================================= *)
(** * Properties *)

(** ** The error monad *)

Lemma bind_Ok_inv {A B : Type} (c : result A) (k : A -> result B) (b : B) :
  bind c k = Ok b -> exists a, c = Ok a /\ k a = Ok b.
Proof.
  destruct c as [a|e]; simpl; intro E.
  - exists a; auto.
  - discriminate.
Qed.

Lemma mapM_Ok {A B : Type} (f : A -> result B) (g : A -> B) (l : list A) :
  (forall x, In x l -> f x = Ok (g x)) -> mapM f l = Ok (map g l).
Proof.
  induction l as [|x l IH]; intro Hf; simpl.
  - reflexivity.
  - rewrite (Hf x (or_introl eq_refl)); simpl.
    rewrite IH by (intros y Hy; apply Hf; right; exact Hy).
    reflexivity.
Qed.

Lemma mapM_length {A B : Type} (f : A -> result B) (l : list A) (r : list B) :
  mapM f l = Ok r -> length r = length l.
Proof.
  revert r; induction l as [|x l IH]; simpl; intros r E.
  - injection E as <-; reflexivity.
  - apply bind_Ok_inv in E as (y & _ & E).
    apply bind_Ok_inv in E as (ys & E1 & E).
    injection E as <-; simpl; f_equal; apply IH; exact E1.
Qed.

Lemma foldM_Ok {A S : Type} (f : S -> A -> result S) (g : S -> A -> S)
      (l : list A) (s : S) :
  (forall s x, In x l -> f s x = Ok (g s x)) ->
  foldM f l s = Ok (fold_left g l s).
Proof.
  revert s; induction l as [|x l IH]; intros s Hf; simpl.
  - reflexivity.
  - rewrite Hf by (left; reflexivity); simpl.
    apply IH; intros; apply Hf; right; assumption.
Qed.

Lemma get_Ok {A : Type} (l : list A) (i : nat) (d : A) :
  i < length l -> get l i = Ok (nth i l d).
Proof.
  intro Hi; unfold get.
  rewrite (nth_error_nth' l d Hi); reflexivity.
Qed.

(* ================================================================= *)
(** ** Stable sorting *)

Section Sorting.
Variable A : Type.
Variable before : A -> A -> bool.

Lemma insert_by_perm (x : A) (l : list A) :
  Permutation (insert_by before x l) (x :: l).
Proof.
  induction l as [|y l IH]; simpl.
  - apply Permutation_refl.
  - destruct (before y x).
    + eapply perm_trans; [apply perm_skip, IH | apply perm_swap].
    + apply Permutation_refl.
Qed.

Lemma sorted_by_perm (l : list A) : Permutation (sorted_by before l) l.
Proof.
  induction l as [|x l IH]; simpl.
  - constructor.
  - eapply perm_trans; [apply insert_by_perm | apply perm_skip, IH].
Qed.

Lemma sorted_by_length (l : list A) : length (sorted_by before l) = length l.
Proof. apply Permutation_length, sorted_by_perm. Qed.

(** [x] may stand in front of [y]: [y] does not have to precede it. *)
Definition may_precede (x y : A) : Prop := before y x = false.

Hypothesis before_asym : forall x y, before x y = true -> before y x = false.

Lemma insert_by_sorted (x : A) (l : list A) :
  Sorted may_precede l -> Sorted may_precede (insert_by before x l).
Proof.
  induction l as [|y l IH]; simpl; intro Hs.
  - repeat constructor.
  - destruct (before y x) eqn:Eyx.
    + apply Sorted_inv in Hs as [Hs Hd].
      constructor; [apply IH, Hs|].
      destruct l as [|z l]; simpl.
      * constructor; apply before_asym, Eyx.
      * destruct (before z x).
        -- constructor; apply HdRel_inv in Hd; exact Hd.
        -- constructor; apply before_asym, Eyx.
    + constructor; [exact Hs | constructor; exact Eyx].
Qed.

Lemma sorted_by_sorted (l : list A) : Sorted may_precede (sorted_by before l).
Proof.
  induction l as [|x l IH]; simpl.
  - constructor.
  - apply insert_by_sorted, IH.
Qed.
End Sorting.

Lemma Sorted_impl {A : Type} (R1 R2 : A -> A -> Prop) (l : list A) :
  (forall x y, R1 x y -> R2 x y) -> Sorted R1 l -> Sorted R2 l.
Proof.
  intros HR HS; induction HS as [|a l HS IH Hd]; constructor; auto.
  destruct Hd; constructor; auto.
Qed.

(** A list sorted by strictly increasing first components is
    determined by its elements. *)
Lemma increasing_unique {B : Type} (l1 l2 : list (nat * B)) :
  StronglySorted (fun a b => fst a < fst b) l1 ->
  StronglySorted (fun a b => fst a < fst b) l2 ->
  Permutation l1 l2 -> l1 = l2.
Proof.
  revert l2; induction l1 as [|a l1 IH]; intros l2 S1 S2 HP.
  - apply Permutation_nil in HP; subst; reflexivity.
  - destruct l2 as [|b l2].
    + apply Permutation_sym, Permutation_nil in HP; discriminate.
    + apply StronglySorted_inv in S1 as [S1 F1].
      apply StronglySorted_inv in S2 as [S2 F2].
      assert (Hab : a = b).
      { assert (Ia : In a (b :: l2))
          by (eapply Permutation_in; [exact HP | left; reflexivity]).
        assert (Ib : In b (a :: l1))
          by (eapply Permutation_in; [apply Permutation_sym, HP | left; reflexivity]).
        destruct Ia as [->|Ia]; [reflexivity|].
        destruct Ib as [->|Ib]; [reflexivity|].
        rewrite Forall_forall in F1, F2.
        specialize (F1 _ Ib); specialize (F2 _ Ia); lia. }
      subst b; f_equal; apply IH; auto.
      eapply Permutation_cons_inv; exact HP.
Qed.

Lemma sorted_key_fst_increasing {B : Type} (l : list (nat * B)) :
  NoDup (map fst l) ->
  StronglySorted (fun a b => fst a < fst b) (sorted_key fst l).
Proof.
  intro ND.
  assert (HS : Sorted (fun a b : nat * B => fst a <= fst b) (sorted_key fst l)).
  { unfold sorted_key.
    eapply Sorted_impl;
      [| apply sorted_by_sorted;
         intros x y; unfold pylt, PyLt_nat; rewrite Nat.ltb_lt, Nat.ltb_ge; lia ].
    intros x y; unfold may_precede, pylt, PyLt_nat; rewrite Nat.ltb_ge; auto. }
  apply Sorted_StronglySorted in HS; [| intros x y z; lia].
  assert (ND' : NoDup (map fst (sorted_key fst l))).
  { eapply Permutation_NoDup; [| exact ND].
    apply Permutation_map, Permutation_sym, sorted_by_perm. }
  clear ND; induction HS as [|a s HS IH HF]; [constructor|].
  simpl in ND'; inversion ND' as [|? ? Hn ND'']; subst.
  constructor; [apply IH, ND''|].
  rewrite Forall_forall in *; intros b Hb.
  specialize (HF b Hb).
  assert (fst a <> fst b)
    by (intro E; apply Hn; rewrite E; apply in_map, Hb).
  lia.
Qed.

(* ================================================================= *)
(** ** Sums of rationals *)

Lemma fold_left_Qplus_acc (l : list Q) (a : Q) :
  (fold_left Qplus l a == a + qsum l)%Q.
Proof.
  unfold qsum; revert a; induction l as [|x l IH]; intro a; simpl.
  - lra.
  - rewrite IH, (IH (0 + x)%Q); lra.
Qed.

Lemma qsum_cons (x : Q) (l : list Q) : (qsum (x :: l) == x + qsum l)%Q.
Proof. unfold qsum at 1; simpl; rewrite fold_left_Qplus_acc; lra. Qed.

Lemma qsum_app (l1 l2 : list Q) : (qsum (l1 ++ l2) == qsum l1 + qsum l2)%Q.
Proof.
  induction l1 as [|x l1 IH]; simpl.
  - unfold qsum at 2; simpl; lra.
  - rewrite !qsum_cons, IH; lra.
Qed.

Lemma qsum_perm (l1 l2 : list Q) : Permutation l1 l2 -> (qsum l1 == qsum l2)%Q.
Proof.
  induction 1 as [| x l l' _ IH | x y l | l l' l'' _ IH1 _ IH2].
  - reflexivity.
  - rewrite !qsum_cons, IH; reflexivity.
  - rewrite !qsum_cons; lra.
  - rewrite IH1; exact IH2.
Qed.

Lemma qsum_shift (c : Q) (l : list (nat * Q)) :
  (qsum (map snd (map (fun x => (fst x, snd x + c)) l))
   == qsum (map snd l) + inject_Z (Z.of_nat (length l)) * c)%Q.
Proof.
  induction l as [|x l IH].
  - simpl; unfold qsum; simpl; ring.
  - cbn [map length]; rewrite !qsum_cons, IH, Nat2Z.inj_succ.
    unfold Z.succ; rewrite inject_Z_plus; simpl snd.
    change (inject_Z 1) with 1%Q; ring.
Qed.

Lemma qsum_zero (l : list (nat * Q)) :
  Forall (fun y => (snd y == 0)%Q) l -> (qsum (map snd l) == 0)%Q.
Proof.
  induction 1 as [|x l Hx _ IH]; simpl.
  - reflexivity.
  - rewrite qsum_cons, Hx, IH; lra.
Qed.

Lemma Qltb_true (x y : Q) : Qltb x y = true <-> (x < y)%Q.
Proof.
  unfold Qltb; destruct (Qlt_le_dec x y) as [L|L]; split; intro E;
    try discriminate; auto; lra.
Qed.

Lemma Qltb_false (x y : Q) : Qltb x y = false <-> (y <= x)%Q.
Proof.
  unfold Qltb; destruct (Qlt_le_dec x y) as [L|L]; split; intro E;
    try discriminate; auto; lra.
Qed.

(* ================================================================= *)
(** ** Lists indexed by position *)

Lemma map_nth_seq {A B : Type} (f : A -> B) (l : list A) (d : A) :
  map (fun i => f (nth i l d)) (seq 0 (length l)) = map f l.
Proof.
  apply nth_ext with (d := f d) (d' := f d).
  - rewrite !length_map, length_seq; reflexivity.
  - intros n Hn; rewrite length_map, length_seq in Hn.
    rewrite (map_nth f l d).
    rewrite nth_indep with (d' := f (nth (length l) l d))
      by (rewrite length_map, length_seq; exact Hn).
    rewrite (map_nth (fun i => f (nth i l d)) (seq 0 (length l)) (length l)).
    rewrite seq_nth by exact Hn; reflexivity.
Qed.

Lemma nth_map_seq {B : Type} (g : nat -> B) (a n j : nat) (d : B) :
  j < n -> nth j (map g (seq a n)) d = g (a + j).
Proof.
  intro Hj.
  rewrite nth_indep with (d' := g 0) by (rewrite length_map, length_seq; exact Hj).
  rewrite (map_nth g (seq a n) 0 j), seq_nth by exact Hj; reflexivity.
Qed.

Lemma map_fst_combine_seq {B : Type} (a : nat) (v : list B) :
  map fst (combine (seq a (length v)) v) = seq a (length v).
Proof.
  revert a; induction v as [|x v IH]; intro a; simpl; [reflexivity|].
  f_equal; apply IH.
Qed.

Lemma map_snd_combine_seq {B : Type} (a : nat) (v : list B) :
  map snd (combine (seq a (length v)) v) = v.
Proof.
  revert a; induction v as [|x v IH]; intro a; simpl; [reflexivity|].
  f_equal; apply IH.
Qed.

Lemma seq_increasing (a n : nat) : StronglySorted lt (seq a n).
Proof.
  revert a; induction n as [|n IH]; intro a; simpl; constructor.
  - apply IH.
  - rewrite Forall_forall; intros x Hx; apply in_seq in Hx; lia.
Qed.

Lemma increasing_of_map_fst {B : Type} (l : list (nat * B)) :
  StronglySorted lt (map fst l) ->
  StronglySorted (fun a b => fst a < fst b) l.
Proof.
  induction l as [|x l IH]; simpl; intro HS; constructor;
    apply StronglySorted_inv in HS as [HS HF].
  - apply IH, HS.
  - rewrite Forall_forall in *; intros y Hy; apply HF, in_map, Hy.
Qed.

(** Sorting by position undoes any rearrangement of a list that
    carries its positions. *)
Lemma sorted_key_fst_restores {B : Type} (l s : list (nat * B)) :
  StronglySorted lt (map fst l) -> Permutation s l -> sorted_key fst s = l.
Proof.
  intros HS HP.
  apply increasing_unique.
  - apply sorted_key_fst_increasing.
    eapply Permutation_NoDup;
      [apply Permutation_map, Permutation_sym, HP|].
    clear HP; induction HS as [|a m _ IH HF]; constructor; auto.
    intro Hin; rewrite Forall_forall in HF; specialize (HF _ Hin); lia.
  - apply increasing_of_map_fst, HS.
  - eapply perm_trans; [apply sorted_by_perm | exact HP].
Qed.

(* ================================================================= *)
(** ** [find_closest_prob_vector] *)

Lemma enumerate_fst (v : list Q) : map fst (enumerate v) = seq 0 (length v).
Proof. apply map_fst_combine_seq. Qed.

Lemma enumerate_snd (v : list Q) : map snd (enumerate v) = v.
Proof. apply map_snd_combine_seq. Qed.

Lemma enumerate_length (v : list Q) : length (enumerate v) = length v.
Proof. rewrite <- (length_map fst), enumerate_fst, length_seq; reflexivity. Qed.

Lemma by_value_desc_descending (l : list (nat * Q)) : descending (by_value_desc l).
Proof.
  assert (HS : StronglySorted (fun a b : nat * Q => (snd b <= snd a)%Q)
                              (by_value_desc l)).
  { apply Sorted_StronglySorted; [intros x y z; lra|].
    eapply Sorted_impl; [| apply sorted_by_sorted].
    - intros x y; unfold may_precede; rewrite Qltb_false; auto.
    - intros x y; rewrite Qltb_true, Qltb_false; lra. }
  induction HS as [|a s _ IH HF]; intros p1 x p2 E.
  - destruct p1; discriminate.
  - destruct p1 as [|b p1]; [constructor|].
    injection E as <- E; constructor.
    + rewrite Forall_forall in HF; apply HF; rewrite E.
      apply in_or_app; right; left; reflexivity.
    + eapply IH; exact E.
Qed.

Lemma descending_snoc (pre : list (nat * Q)) (x : nat * Q) :
  descending (pre ++ [x]) ->
  descending pre /\ Forall (fun y => (snd x <= snd y)%Q) pre.
Proof.
  intro Hd; split.
  - intros p1 y p2 E; apply (Hd p1 y (p2 ++ [x])).
    rewrite E, <- app_assoc; reflexivity.
  - apply (Hd pre x []); reflexivity.
Qed.

Lemma nth_snoc_app {A : Type} (pre suf : list A) (x d : A) :
  nth (length pre) ((pre ++ [x]) ++ suf) d = x.
Proof.
  rewrite <- app_assoc, app_nth2, Nat.sub_diag by lia; reflexivity.
Qed.

Lemma set_val_snoc_app (pre suf : list (nat * Q)) (x : nat * Q) (v : Q) :
  set_val (length pre) v ((pre ++ [x]) ++ suf) = pre ++ (fst x, v) :: suf.
Proof.
  unfold set_val; rewrite <- app_assoc.
  rewrite firstn_app, firstn_all, Nat.sub_diag, skipn_app, skipn_all,
    Nat.sub_diag; simpl.
  rewrite app_nil_r; reflexivity.
Qed.

Lemma add_prefix_app (pre suf : list (nat * Q)) (c : Q) :
  add_prefix (length pre) c (pre ++ suf)
  = map (fun x => (fst x, (snd x + c)%Q)) pre ++ suf.
Proof.
  unfold add_prefix.
  rewrite firstn_app, firstn_all, Nat.sub_diag, skipn_app, skipn_all,
    Nat.sub_diag; simpl.
  rewrite app_nil_r; reflexivity.
Qed.

Lemma add_prefix_all (l : list (nat * Q)) (c : Q) :
  add_prefix (length l) c l = map (fun x => (fst x, (snd x + c)%Q)) l.
Proof.
  rewrite <- (app_nil_r l) at 2; rewrite add_prefix_app; apply app_nil_r.
Qed.

Lemma inject_nat_succ_pos (n : nat) : (0 < inject_Z (Z.of_nat (S n)))%Q.
Proof.
  replace 0%Q with (inject_Z 0) by reflexivity.
  rewrite <- Zlt_Qlt; lia.
Qed.

(** The downward scan, started on a descending prefix followed by
    entries already cleared: positions are kept, and the values become
    non-negative with total one. *)
Lemma scan_spec (pre : list (nat * Q)) :
  forall (suf : list (nat * Q)) (a : Q),
    pre <> [] ->
    descending pre ->
    Forall (fun y => (snd y == 0)%Q) suf ->
    (qsum (map snd pre) + a == 1)%Q ->
    let r := scan (length pre) a (pre ++ suf) in
    map fst r = map fst (pre ++ suf)
    /\ Forall (fun y => (0 <= snd y)%Q) r
    /\ (qsum (map snd r) == 1)%Q.
Proof.
  induction pre as [|x pre IH] using rev_ind; intros suf a Hne Hd Hz Hsum;
    [contradiction|].
  clear Hne.
  apply descending_snoc in Hd as [Hd Hx].
  rewrite map_app, qsum_app in Hsum; simpl in Hsum.
  rewrite qsum_cons in Hsum; unfold qsum at 2 in Hsum; simpl in Hsum.
  rewrite length_app; simpl length; rewrite Nat.add_1_r.
  cbn [scan]; rewrite nth_snoc_app.
  pose proof (inject_nat_succ_pos (length pre)) as Hq.
  set (q := inject_Z (Z.of_nat (S (length pre)))) in *.
  destruct (Qltb (snd x + a / q) 0) eqn:Ecmp.
  - (* the entry is folded into the accumulator *)
    rewrite Qltb_true in Ecmp.
    rewrite set_val_snoc_app.
    destruct pre as [|y pre0] eqn:Epre.
    + exfalso.
      unfold q in Ecmp; simpl in Ecmp.
      unfold qsum in Hsum; simpl in Hsum.
      assert (a / inject_Z 1 == a)%Q by (field).
      lra.
    + rewrite <- Epre in *.
      assert (Hne : pre <> []) by (rewrite Epre; discriminate).
      specialize (IH ((fst x, 0%Q) :: suf) (a + snd x)%Q Hne Hd).
      destruct IH as (Hf & Hn & Hs).
      * constructor; [reflexivity | exact Hz].
      * lra.
      * split; [| split; assumption].
        rewrite Hf, <- app_assoc, !map_app; reflexivity.
  - (* the accumulator is shared out *)
    rewrite Qltb_false in Ecmp.
    replace (S (length pre)) with (length (pre ++ [x]))
      by (rewrite length_app; simpl; lia).
    rewrite add_prefix_app.
    split; [| split].
    + rewrite !map_app, map_map; simpl. reflexivity.
    + apply Forall_app; split.
      * rewrite Forall_map, Forall_app; split.
        -- eapply Forall_impl; [| exact Hx]; simpl; intros y Hy; lra.
        -- constructor; [simpl; lra | constructor].
      * eapply Forall_impl; [| exact Hz]; simpl; intros y Hy; lra.
    + rewrite map_app, qsum_app, qsum_shift, (qsum_zero Hz).
      rewrite map_app, qsum_app; simpl.
      rewrite qsum_cons; unfold qsum at 2; simpl.
      rewrite length_app; simpl length; rewrite Nat.add_1_r; fold q.
      assert (q * (a / q) == a)%Q by (field; lra).
      lra.
Qed.

(** C4: on a vector whose entries sum to one, [find_closest_prob_vector]
    returns a vector of the same length whose entries are non-negative
    and sum to one; on [0.6, 0.6, -0.2] it returns [0.5, 0.5, 0.0]. *)
Theorem find_closest_prob_vector_on_simplex :
  (forall v : list Q,
      (qsum v == 1)%Q ->
      length (find_closest_prob_vector v) = length v
      /\ nonneg_vector (find_closest_prob_vector v)
      /\ (qsum (find_closest_prob_vector v) == 1)%Q)
  /\ Forall2 Qeq (find_closest_prob_vector [6 # 10; 6 # 10; (-2) # 10]%Q)
                 [1 # 2; 1 # 2; 0]%Q.
Proof.
  split.
  - intros v Hv.
    unfold find_closest_prob_vector.
    fold (by_value_desc (enumerate v)).
    set (s := by_value_desc (enumerate v)).
    assert (Hperm : Permutation s (enumerate v)) by apply sorted_by_perm.
    assert (Hlen : length s = length v)
      by (rewrite (Permutation_length Hperm); apply enumerate_length).
    assert (Hne : s <> []).
    { intro E; rewrite E in Hlen; destruct v; [|discriminate].
      unfold qsum in Hv; simpl in Hv; lra. }
    assert (Hsum : (qsum (map snd s) + 0 == 1)%Q).
    { rewrite (qsum_perm (Permutation_map snd Hperm)), enumerate_snd; lra. }
    destruct (@scan_spec s [] 0%Q Hne (by_value_desc_descending _)
                         (Forall_nil _) Hsum) as (Hf & Hn & Hs).
    rewrite app_nil_r, Hlen in *.
    set (t := scan (length v) 0 s) in *.
    assert (Ht : Permutation (sorted_key fst t) t) by apply sorted_by_perm.
    assert (Hlo : length (sorted_key fst t) = length v).
    { rewrite (Permutation_length Ht), <- (length_map fst), Hf, length_map.
      exact Hlen. }
    rewrite <- Hlo, map_nth_seq.
    split; [| split].
    + rewrite length_map; reflexivity.
    + unfold nonneg_vector; rewrite Forall_map.
      eapply Permutation_Forall; [apply Permutation_sym, Ht | exact Hn].
    + rewrite (qsum_perm (Permutation_map snd Ht)); exact Hs.
  - vm_compute; repeat constructor.
Qed.

Lemma find_closest_prob_vector_on_simplex_witness :
  length (find_closest_prob_vector [6 # 10; 6 # 10; (-2) # 10]%Q) = 3
  /\ nonneg_vector (find_closest_prob_vector [6 # 10; 6 # 10; (-2) # 10]%Q)
  /\ (qsum (find_closest_prob_vector [6 # 10; 6 # 10; (-2) # 10]%Q) == 1)%Q.
Proof.
  apply (proj1 find_closest_prob_vector_on_simplex
               [6 # 10; 6 # 10; (-2) # 10]%Q).
  vm_compute; reflexivity.
Defined.

(** C9: a vector with non-negative entries -- in particular a valid
    probability vector -- is returned unchanged, entry by entry and in
    the same order. *)
Theorem find_closest_prob_vector_fixes_probabilities (v : list Q) :
  nonneg_vector v -> (qsum v == 1)%Q ->
  Forall2 Qeq (find_closest_prob_vector v) v.
Proof.
  intros Hpos _.
  unfold find_closest_prob_vector.
  fold (by_value_desc (enumerate v)).
  set (s := by_value_desc (enumerate v)).
  assert (Hperm : Permutation s (enumerate v)) by apply sorted_by_perm.
  assert (Hlen : length s = length v)
    by (rewrite (Permutation_length Hperm); apply enumerate_length).
  assert (Hall : Forall (fun y => (0 <= snd y)%Q) s).
  { eapply Permutation_Forall; [apply Permutation_sym, Hperm|].
    rewrite <- Forall_map, enumerate_snd; exact Hpos. }
  destruct (length v) as [|i] eqn:Ed.
  - destruct v; [constructor | discriminate].
  - cbn [scan].
    pose proof (inject_nat_succ_pos i) as Hq.
    set (q := inject_Z (Z.of_nat (S i))) in *.
    assert (Hshare : (0 / q == 0)%Q) by (field; lra).
    assert (Hmu : (0 <= snd (nth i s (O, 0%Q)))%Q).
    { rewrite Forall_forall in Hall; apply Hall, nth_In; lia. }
    assert (Ecmp : Qltb (snd (nth i s (O, 0%Q)) + 0 / q) 0 = false)
      by (rewrite Qltb_false; lra).
    rewrite Ecmp, <- Hlen, add_prefix_all.
    set (g := fun x : nat * Q => (fst x, (snd x + 0 / q)%Q)).
    assert (Eo : sorted_key fst (map g s) = map g (enumerate v)).
    { apply sorted_key_fst_restores.
      - rewrite map_map; simpl.
        change (map (fun x : nat * Q => fst x) (enumerate v))
          with (map fst (enumerate v)).
        rewrite enumerate_fst; apply seq_increasing.
      - apply Permutation_map, Hperm. }
    rewrite Eo.
    replace (length s) with (length (map g (enumerate v)))
      by (rewrite length_map, enumerate_length; lia).
    rewrite map_nth_seq, map_map; simpl.
    rewrite <- (enumerate_snd v) at 2.
    clear - Hshare.
    induction (enumerate v) as [|x l IH]; simpl; constructor; auto.
    rewrite Hshare; lra.
Qed.

Lemma find_closest_prob_vector_fixes_probabilities_witness :
  Forall2 Qeq (find_closest_prob_vector [1 # 4; 0; 3 # 4]%Q) [1 # 4; 0; 3 # 4]%Q.
Proof.
  apply find_closest_prob_vector_fixes_probabilities.
  - repeat constructor; discriminate.
  - vm_compute; reflexivity.
Defined.

(* ================================================================= *)
(** ** Binary labels of the classical register *)

Lemma digit_value_bit (c : ascii) : is_bit c -> digit_value c = Ok (bit_value c).
Proof. destruct 1 as [-> | ->]; reflexivity. Qed.

Lemma bit_value_le (c : ascii) : bit_value c <= 1.
Proof. unfold bit_value; destruct (Ascii.eqb c "1"); lia. Qed.

Lemma foldM_digits (s : list ascii) (acc : nat) :
  Forall is_bit s ->
  foldM (fun acc c => v <- digit_value c ;; Ok (2 * acc + v)) s acc
  = Ok (fold_left (fun acc c => 2 * acc + bit_value c) s acc).
Proof.
  intro Hb; revert acc; induction Hb as [|d l Hd _ IH]; intro acc;
    cbn [foldM fold_left]; [reflexivity|].
  rewrite (digit_value_bit Hd); cbn [bind]; apply IH.
Qed.

Lemma int2_bits (s : list ascii) :
  Forall is_bit s -> s <> [] -> int2 s = Ok (value s).
Proof.
  intros Hb Hne; unfold int2, value.
  destruct s as [|c s]; [contradiction|].
  apply foldM_digits, Hb.
Qed.

Lemma value_snoc (s : list ascii) (c : ascii) :
  value (s ++ [c]) = 2 * value s + bit_value c.
Proof. unfold value; rewrite fold_left_app; reflexivity. Qed.

Lemma value_leading_zeros (k : nat) (s : list ascii) :
  value (repeat (digit false) k ++ s) = value s.
Proof.
  unfold value; rewrite fold_left_app; f_equal.
  induction k as [|k IH]; simpl; auto.
Qed.

Lemma value_bin_pos (p : positive) : value (bin_pos p) = Pos.to_nat p.
Proof.
  induction p as [p IH | p IH |]; simpl; try rewrite value_snoc, IH;
    try reflexivity; unfold bit_value; simpl; lia.
Qed.

Lemma value_bin (x : nat) : value (bin x) = x.
Proof.
  unfold bin; destruct (N.of_nat x) as [|p] eqn:E.
  - destruct x; [reflexivity | discriminate].
  - rewrite value_bin_pos.
    rewrite <- (Nat2N.id x), E; reflexivity.
Qed.

Lemma value_zfill_bin (n x : nat) : value (zfill n (bin x)) = x.
Proof. unfold zfill; rewrite value_leading_zeros; apply value_bin. Qed.

Lemma bits_bin_pos (p : positive) : Forall is_bit (bin_pos p).
Proof.
  induction p as [p IH | p IH |]; simpl.
  - apply Forall_app; split; [exact IH | repeat constructor; right; reflexivity].
  - apply Forall_app; split; [exact IH | repeat constructor; left; reflexivity].
  - repeat constructor; right; reflexivity.
Qed.

Lemma bits_zfill_bin (n x : nat) : Forall is_bit (zfill n (bin x)).
Proof.
  unfold zfill; apply Forall_app; split.
  - apply Forall_forall; intros c Hc; apply repeat_spec in Hc; subst.
    left; reflexivity.
  - unfold bin; destruct (N.of_nat x).
    + repeat constructor; left; reflexivity.
    + apply bits_bin_pos.
Qed.

Lemma length_bin_pos_le (p : positive) :
  forall n, Pos.to_nat p < 2 ^ n -> length (bin_pos p) <= n.
Proof.
  induction p as [p IH | p IH |]; intros n Hn; simpl.
  - destruct n as [|n]; [simpl in Hn; lia|].
    rewrite length_app, Nat.add_1_r; apply le_n_S, IH.
    rewrite Pos2Nat.inj_xI, Nat.pow_succ_r' in Hn; lia.
  - destruct n as [|n]; [simpl in Hn; lia|].
    rewrite length_app, Nat.add_1_r; apply le_n_S, IH.
    rewrite Pos2Nat.inj_xO, Nat.pow_succ_r' in Hn; lia.
  - destruct n; [simpl in Hn; lia | lia].
Qed.

(** Inside [range(2 ** n)] a label has exactly [n] digits. *)
Lemma length_zfill_bin (n x : nat) :
  1 <= n -> x < 2 ^ n -> length (zfill n (bin x)) = n.
Proof.
  intros Hn Hx; unfold zfill; rewrite length_app, repeat_length.
  assert (length (bin x) <= n); [| lia].
  unfold bin; destruct (N.of_nat x) as [|p] eqn:E; simpl; [lia|].
  apply length_bin_pos_le.
  rewrite <- (Nat2N.id x), E in Hx; exact Hx.
Qed.

Lemma value_lt (s : list ascii) : value s < 2 ^ length s.
Proof.
  induction s as [|c s IH] using rev_ind; [unfold value; simpl; lia|].
  rewrite value_snoc, length_app, Nat.add_1_r, Nat.pow_succ_r'.
  pose proof (bit_value_le c); lia.
Qed.

Lemma bit_value_inj (c d : ascii) :
  is_bit c -> is_bit d -> bit_value c = bit_value d -> c = d.
Proof.
  intros [-> | ->] [-> | ->]; unfold bit_value; simpl; intro E;
    try reflexivity; discriminate.
Qed.

(** Strings of binary digits of one length are told apart by their
    values. *)
Lemma value_inj (s : list ascii) :
  forall t, Forall is_bit s -> Forall is_bit t ->
            length s = length t -> value s = value t -> s = t.
Proof.
  induction s as [|c s IH] using rev_ind; intros t Hs Ht Hl Hv.
  - destruct t; [reflexivity | discriminate].
  - destruct t as [|d t _] using rev_ind.
    + rewrite length_app in Hl; simpl in Hl; lia.
    + rewrite !length_app in Hl; simpl in Hl.
      rewrite !value_snoc in Hv.
      apply Forall_app in Hs as [Hs Hc], Ht as [Ht Hd].
      inversion Hc; inversion Hd; subst.
      pose proof (bit_value_le c); pose proof (bit_value_le d).
      assert (bit_value c = bit_value d) by lia.
      f_equal; [apply IH; auto; lia|].
      f_equal; apply bit_value_inj; auto.
Qed.

Lemma zfill_bin_value (n : nat) (s : list ascii) :
  1 <= n -> Forall is_bit s -> length s = n -> zfill n (bin (value s)) = s.
Proof.
  intros Hn Hs Hl.
  pose proof (value_lt s) as Hlt; rewrite Hl in Hlt.
  apply value_inj; auto.
  - apply bits_zfill_bin.
  - rewrite length_zfill_bin; auto.
  - apply value_zfill_bin.
Qed.

(* ================================================================= *)
(** ** Updating a list in place *)

Lemma upd_length {A : Type} (i : nat) (v : A) (l : list A) :
  length (upd i v l) = length l.
Proof.
  revert i; induction l as [|x l IH]; intros [|i]; simpl; auto.
Qed.

Lemma upd_nth {A : Type} (i k : nat) (v d : A) (l : list A) :
  i < length l ->
  nth k (upd i v l) d = if Nat.eqb k i then v else nth k l d.
Proof.
  revert i k; induction l as [|x l IH]; intros i k Hi; simpl in Hi; [lia|].
  destruct i as [|i], k as [|k]; simpl; auto.
  apply IH; lia.
Qed.

Lemma upd_Forall {A : Type} (P : A -> Prop) (i : nat) (v : A) (l : list A) :
  P v -> Forall P l -> Forall P (upd i v l).
Proof.
  intros Hv Hl; revert i; induction Hl as [|x l Hx Hl IH]; intros [|i];
    simpl; constructor; auto.
Qed.

(* ================================================================= *)
(** ** Exchanging two positions of a label *)

Lemma exchange_length (p q : nat) (s : list ascii) :
  length (exchange p q s) = length s.
Proof. unfold exchange; rewrite !upd_length; reflexivity. Qed.

Lemma exchange_nth (p q k : nat) (s : list ascii) :
  p < length s -> q < length s ->
  nth k (exchange p q s) "0"%char
  = if Nat.eqb k q then nth p s "0"%char
    else if Nat.eqb k p then nth q s "0"%char
         else nth k s "0"%char.
Proof.
  intros Hp Hq; unfold exchange.
  rewrite upd_nth by (rewrite upd_length; exact Hq).
  rewrite upd_nth by exact Hp; reflexivity.
Qed.

Lemma exchange_involutive (p q : nat) (s : list ascii) :
  p < length s -> q < length s -> exchange p q (exchange p q s) = s.
Proof.
  intros Hp Hq.
  apply nth_ext with (d := "0"%char) (d' := "0"%char).
  - rewrite !exchange_length; reflexivity.
  - intros k _.
    rewrite exchange_nth by (rewrite exchange_length; assumption).
    rewrite !exchange_nth by assumption.
    repeat match goal with
           | |- context [Nat.eqb ?a ?b] => destruct (Nat.eqb_spec a b)
           end; subst; congruence.
Qed.

Lemma exchange_same (p : nat) (s : list ascii) :
  p < length s -> exchange p p s = s.
Proof.
  intro Hp.
  apply nth_ext with (d := "0"%char) (d' := "0"%char).
  - apply exchange_length.
  - intros k _; rewrite exchange_nth by assumption.
    destruct (Nat.eqb_spec k p) as [-> | Hk]; reflexivity.
Qed.

Lemma exchange_bits (p q : nat) (s : list ascii) :
  p < length s -> q < length s ->
  Forall is_bit s -> Forall is_bit (exchange p q s).
Proof.
  intros Hp Hq Hs; unfold exchange.
  rewrite Forall_forall in Hs.
  repeat apply upd_Forall; try (apply Hs, nth_In; assumption).
  apply Forall_forall, Hs.
Qed.

Lemma py_index_one_based (len : nat) (a : Z) :
  (1 <= a <= Z.of_nat len)%Z ->
  py_index len (a - 1) = Ok (Z.to_nat (a - 1)) /\ Z.to_nat (a - 1) < len.
Proof.
  intro Ha; unfold py_index.
  assert (E : ((0 <=? a - 1) && (a - 1 <? Z.of_nat len))%Z = true).
  { apply andb_true_intro; split; [apply Z.leb_le | apply Z.ltb_lt]; lia. }
  rewrite E; split; [reflexivity | lia].
Qed.

Lemma swap_chars_exchange (a b : Z) (s : list ascii) :
  (1 <= a <= Z.of_nat (length s))%Z -> (1 <= b <= Z.of_nat (length s))%Z ->
  swap_chars (a - 1) (b - 1) s
  = Ok (exchange (Z.to_nat (a - 1)) (Z.to_nat (b - 1)) s).
Proof.
  intros Ha Hb; unfold swap_chars.
  destruct (py_index_one_based _ Ha) as [-> _].
  destruct (py_index_one_based _ Hb) as [-> _].
  reflexivity.
Qed.

Section BitSwap.
Variables n p q : nat.
Hypothesis n_pos : 1 <= n.
Hypothesis p_lt : p < n.
Hypothesis q_lt : q < n.

Lemma bit_swap_lt (x : nat) : x < 2 ^ n -> bit_swap n p q x < 2 ^ n.
Proof.
  intro Hx; unfold bit_swap.
  pose proof (value_lt (exchange p q (zfill n (bin x)))) as Hv.
  rewrite exchange_length, length_zfill_bin in Hv by assumption.
  exact Hv.
Qed.

Lemma bit_swap_involutive (x : nat) :
  x < 2 ^ n -> bit_swap n p q (bit_swap n p q x) = x.
Proof.
  intro Hx; unfold bit_swap.
  pose proof (length_zfill_bin n_pos Hx) as Hl.
  rewrite zfill_bin_value.
  - rewrite exchange_involutive by (rewrite Hl; assumption).
    apply value_zfill_bin.
  - exact n_pos.
  - apply exchange_bits; try (rewrite Hl; assumption).
    apply bits_zfill_bin.
  - rewrite exchange_length; exact Hl.
Qed.
End BitSwap.

Lemma bit_swap_same (n p x : nat) :
  1 <= n -> p < n -> x < 2 ^ n -> bit_swap n p p x = x.
Proof.
  intros Hn Hp Hx; unfold bit_swap.
  rewrite exchange_same by (rewrite length_zfill_bin; assumption).
  apply value_zfill_bin.
Qed.

(* ================================================================= *)
(** ** Matrices given by their entries *)

Ltac case_nat_tests :=
  repeat match goal with
         | |- context [Nat.eqb ?a ?b] => destruct (Nat.eqb_spec a b)
         | |- context [Nat.ltb ?a ?b] => destruct (Nat.ltb_spec a b)
         end.

Section MatrixEntries.
Context {C : Type} `{Scalar C}.

Lemma mk_matrix_ext (r c : nat) (f g : nat -> nat -> C) :
  (forall i j, i < r -> j < c -> f i j = g i j) ->
  mk_matrix r c f = mk_matrix r c g.
Proof.
  intro E; unfold mk_matrix.
  apply map_ext_in; intros i Hi; apply in_seq in Hi.
  apply map_ext_in; intros j Hj; apply in_seq in Hj.
  apply E; lia.
Qed.

Lemma mk_matrix_row (r c : nat) (f : nat -> nat -> C) (i : nat) :
  i < r -> nth i (mk_matrix r c f) [] = map (f i) (seq 0 c).
Proof.
  intro Hi; unfold mk_matrix; rewrite nth_map_seq by exact Hi; reflexivity.
Qed.

Lemma entry_mk (r c : nat) (f : nat -> nat -> C) (i j : nat) :
  i < r -> j < c -> entry (mk_matrix r c f) i j = f i j.
Proof.
  intros Hi Hj; unfold entry; rewrite mk_matrix_row by exact Hi.
  rewrite nth_map_seq by exact Hj; reflexivity.
Qed.

Lemma mk_matrix_shape (r c : nat) (f : nat -> nat -> C) :
  has_shape r c (mk_matrix r c f).
Proof.
  split; unfold mk_matrix.
  - rewrite length_map, length_seq; reflexivity.
  - rewrite Forall_map, Forall_forall; intros i _.
    rewrite length_map, length_seq; reflexivity.
Qed.

Lemma mk_matrix_length (r c : nat) (f : nat -> nat -> C) :
  length (mk_matrix r c f) = r.
Proof. apply mk_matrix_shape. Qed.

Lemma mk_matrix_ncols (r c : nat) (f : nat -> nat -> C) :
  1 <= r -> ncols (mk_matrix r c f) = c.
Proof.
  intro Hr; destruct r as [|r]; [lia|].
  unfold mk_matrix; simpl; rewrite length_map, length_seq; reflexivity.
Qed.

Lemma has_shape_ncols (r c : nat) (M : matrix C) :
  1 <= r -> has_shape r c M -> ncols M = c.
Proof.
  intros Hr [Hl Hf]; destruct M as [|row M]; simpl in *; [lia|].
  inversion Hf; assumption.
Qed.

(** A matrix is the table of its entries. *)
Lemma matrix_eta (r c : nat) (M : matrix C) :
  has_shape r c M -> M = mk_matrix r c (entry M).
Proof.
  intros [Hl Hf].
  apply nth_ext with (d := []) (d' := []).
  - rewrite mk_matrix_length; exact Hl.
  - intros i Hi; rewrite Hl in Hi.
    rewrite mk_matrix_row by exact Hi.
    assert (Hrow : length (nth i M []) = c).
    { rewrite Forall_forall in Hf; apply Hf, nth_In; lia. }
    apply nth_ext with (d := c0) (d' := c0).
    + rewrite length_map, length_seq; exact Hrow.
    + intros j Hj; rewrite Hrow in Hj.
      rewrite nth_map_seq by exact Hj; reflexivity.
Qed.

Lemma upd_entry_mk (r c : nat) (f : nat -> nat -> C) (i j : nat) (v : C) :
  i < r -> j < c ->
  upd_entry i j v (mk_matrix r c f)
  = mk_matrix r c (fun i' j' => if Nat.eqb i' i && Nat.eqb j' j then v
                                else f i' j').
Proof.
  intros Hi Hj; unfold upd_entry.
  apply nth_ext with (d := []) (d' := []).
  - rewrite upd_length, !mk_matrix_length; reflexivity.
  - intros i' Hi'; rewrite upd_length, mk_matrix_length in Hi'.
    rewrite upd_nth by (rewrite mk_matrix_length; exact Hi).
    rewrite !mk_matrix_row by assumption.
    destruct (Nat.eqb_spec i' i) as [-> | Hne]; simpl.
    + apply nth_ext with (d := c0) (d' := c0).
      * rewrite upd_length, !length_map; reflexivity.
      * intros j' Hj'.
        rewrite upd_length, length_map, length_seq in Hj'.
        rewrite upd_nth by (rewrite length_map, length_seq; exact Hj).
        rewrite !nth_map_seq by exact Hj'; reflexivity.
    + reflexivity.
Qed.
End MatrixEntries.

(* ================================================================= *)
(** ** [qubit_swap] builds the matrix of a bit exchange *)

Section SwapMatrix.
Context {C : Type} `{Scalar C}.

Section Rounds.
Variable D : nat.
Variable sigma : nat -> nat.
Hypothesis sigma_lt : forall x, x < D -> sigma x < D.
Hypothesis sigma_inv : forall x, x < D -> sigma (sigma x) = x.

Lemma round_pure_partial (k : nat) :
  k < D ->
  round_pure sigma (mk_matrix D D (partial_swap sigma k)) k
  = mk_matrix D D (partial_swap sigma (S k)).
Proof.
  intro Hk; unfold round_pure.
  pose proof (sigma_lt Hk) as Hsk.
  pose proof (sigma_inv Hk) as Hkk.
  destruct (Nat.eqb_spec (sigma k) k) as [Efix | Emove].
  - apply mk_matrix_ext; intros r c Hr Hc; unfold partial_swap.
    pose proof (sigma_inv Hr) as Hrr.
    assert (H1 : sigma r = k -> r = k)
      by (intro E; rewrite <- Hrr, E; exact Efix).
    assert (H2 : r = k -> sigma r = k)
      by (intro E; rewrite E; exact Efix).
    clear Hrr.
    generalize dependent (sigma r); intros sr H1 H2.
    case_nat_tests; simpl; try reflexivity; exfalso; lia.
  - rewrite !upd_entry_mk by assumption.
    apply mk_matrix_ext; intros r c Hr Hc; unfold partial_swap.
    pose proof (sigma_inv Hr) as Hrr.
    assert (H1 : sigma r = k -> r = sigma k)
      by (intro E; rewrite <- Hrr, E; reflexivity).
    assert (H2 : r = sigma k -> sigma r = k)
      by (intro E; rewrite E; exact Hkk).
    assert (H3 : r = k -> sigma r = sigma k)
      by (intro E; rewrite E; reflexivity).
    clear Hrr Hkk.
    generalize dependent (sigma r); intros sr H1 H2 H3.
    generalize dependent (sigma k); intros sk Hsk Emove H1 H2 H3.
    case_nat_tests; simpl; try reflexivity; exfalso; lia.
Qed.

Lemma fold_rounds (k : nat) :
  k <= D ->
  fold_left (round_pure sigma) (seq 0 k) (eye D)
  = mk_matrix D D (partial_swap sigma k).
Proof.
  induction k as [|k IH]; intro Hk.
  - simpl; apply mk_matrix_ext; intros r c _ _; unfold partial_swap.
    simpl; rewrite Nat.eqb_sym; reflexivity.
  - rewrite seq_S, fold_left_app, IH by lia; simpl.
    apply round_pure_partial; lia.
Qed.

Lemma all_rounds :
  fold_left (round_pure sigma) (seq 0 D) (eye D) = perm_matrix D sigma.
Proof.
  rewrite fold_rounds by lia.
  apply mk_matrix_ext; intros r c Hr _; unfold partial_swap.
  destruct (Nat.ltb_spec r D); [reflexivity | lia].
Qed.
End Rounds.

Section QubitSwapSpec.
Variable n : nat.
Variables a b : Z.
Hypothesis n_pos : 1 <= n.
Hypothesis a_range : (1 <= a <= Z.of_nat n)%Z.
Hypothesis b_range : (1 <= b <= Z.of_nat n)%Z.

Let p := Z.to_nat (a - 1).
Let q := Z.to_nat (b - 1).

Lemma standard_register_length : length (standard_register n) = 2 ^ n.
Proof. unfold standard_register; rewrite length_map, length_seq; reflexivity. Qed.

Lemma new_names_spec :
  mapM (swap_chars (a - 1) (b - 1)) (standard_register n)
  = Ok (map (exchange p q) (standard_register n)).
Proof.
  apply mapM_Ok; intros s Hs.
  unfold standard_register in Hs; apply in_map_iff in Hs as (x & <- & Hx).
  apply in_seq in Hx.
  apply swap_chars_exchange; rewrite length_zfill_bin; auto; lia.
Qed.

Lemma swap_round_spec (t : matrix C) (x : nat) :
  x < 2 ^ n ->
  swap_round (map (exchange p q) (standard_register n)) t x
  = Ok (round_pure (bit_swap n p q) t x).
Proof.
  intro Hx; unfold swap_round.
  rewrite (get_Ok _ [])
    by (rewrite length_map, standard_register_length; exact Hx).
  unfold standard_register; rewrite map_map.
  rewrite nth_map_seq by exact Hx; simpl.
  pose proof (length_zfill_bin n_pos Hx) as Hl.
  assert (Hp : p < n) by (unfold p; lia).
  assert (Hq : q < n) by (unfold q; lia).
  rewrite int2_bits.
  - cbn [bind]; unfold round_pure, bit_swap.
    destruct (Nat.eqb _ x); reflexivity.
  - apply exchange_bits; try (rewrite Hl; assumption).
    apply bits_zfill_bin.
  - intro E; apply (f_equal (@length ascii)) in E.
    rewrite exchange_length, Hl in E; simpl in E; lia.
Qed.

(** On a valid transposition [qubit_swap] returns the permutation
    matrix of the bit exchange. *)
Lemma qubit_swap_spec :
  qubit_swap n (a, b) = Ok (perm_matrix (2 ^ n) (bit_swap n p q)).
Proof.
  unfold qubit_swap; simpl fst; simpl snd.
  rewrite new_names_spec; cbn [bind].
  rewrite standard_register_length.
  rewrite foldM_Ok with (g := round_pure (bit_swap n p q)).
  - f_equal; apply all_rounds.
    + intros x Hx; apply bit_swap_lt; auto; unfold p, q; lia.
    + intros x Hx; apply bit_swap_involutive; auto; unfold p, q; lia.
  - intros t x Hx; apply in_seq in Hx; apply swap_round_spec; lia.
Qed.
End QubitSwapSpec.
End SwapMatrix.

(* ================================================================= *)
(** ** Products with permutation matrices *)

#[export] Instance ScalarRing_Z : ScalarRing Z.
Proof. constructor; exact InitialRing.Zth. Qed.

Section MatrixAlgebra.
Context {C : Type} `{ScalarRing C}.

Add Ring scalar_ring_structure : scalar_ring.

Lemma fold_left_cadd_acc (l : list C) (a : C) :
  fold_left cadd l a = cadd a (csum l).
Proof.
  unfold csum; revert a; induction l as [|x l IH]; intro a; simpl.
  - ring.
  - rewrite IH, (IH (cadd c0 x)); ring.
Qed.

Lemma csum_cons (x : C) (l : list C) : csum (x :: l) = cadd x (csum l).
Proof. unfold csum at 1; simpl; rewrite fold_left_cadd_acc; ring. Qed.

(** A sum against an indicator picks one term. *)
Lemma csum_indicator (e : nat -> C) (a : nat) :
  forall len start,
    csum (map (fun k => cmul (if Nat.eqb k a then c1 else c0) (e k))
              (seq start len))
    = if Nat.leb start a && Nat.ltb a (start + len) then e a else c0.
Proof.
  induction len as [|len IH]; intro start; simpl.
  - destruct (Nat.leb_spec start a), (Nat.ltb_spec a (start + 0)); simpl;
      try reflexivity; lia.
  - rewrite csum_cons, IH.
    destruct (Nat.eqb_spec start a) as [-> | Hne].
    + destruct (Nat.leb_spec (S a) a); [lia|].
      destruct (Nat.leb_spec a a); [|lia].
      destruct (Nat.ltb_spec a (a + S len)); [|lia].
      simpl; ring.
    + destruct (Nat.leb_spec (S start) a), (Nat.leb_spec start a),
        (Nat.ltb_spec a (S start + len)), (Nat.ltb_spec a (start + S len));
        simpl; try ring; lia.
Qed.

Lemma products_by_index (g : nat -> C) (h : list C -> C) (B : matrix C) :
  forall a,
    map (fun p => cmul (fst p) (snd p))
        (combine (map g (seq a (length B))) (map h B))
    = map (fun k => cmul (g k) (h (nth (k - a) B []))) (seq a (length B)).
Proof.
  induction B as [|row B IH]; intro a; simpl; [reflexivity|].
  rewrite Nat.sub_diag; f_equal.
  rewrite IH; apply map_ext_in; intros k Hk; apply in_seq in Hk.
  replace (k - a) with (S (k - S a)) by lia; reflexivity.
Qed.

Lemma matmul_mk (r D : nat) (f : nat -> nat -> C) (B : matrix C) :
  length B = D ->
  matmul (mk_matrix r D f) B
  = mk_matrix r (ncols B)
      (fun i j => csum (map (fun k => cmul (f i k) (entry B k j)) (seq 0 D))).
Proof.
  intro HB; unfold matmul, mk_matrix at 1; rewrite map_map.
  apply map_ext_in; intros i _.
  apply map_ext_in; intros j _.
  unfold dot, column; subst D.
  rewrite products_by_index; f_equal.
  apply map_ext_in; intros k _; rewrite Nat.sub_0_r; reflexivity.
Qed.

Section Permutation.
Variable D : nat.
Variable sigma : nat -> nat.
Hypothesis D_pos : 1 <= D.
Hypothesis sigma_lt : forall x, x < D -> sigma x < D.
Hypothesis sigma_inv : forall x, x < D -> sigma (sigma x) = x.

Lemma perm_matrix_mul_l (X : matrix C) :
  has_shape D D X ->
  matmul (perm_matrix D sigma) X
  = mk_matrix D D (fun i j => entry X (sigma i) j).
Proof.
  intro HX; unfold perm_matrix.
  rewrite matmul_mk by apply HX.
  rewrite (has_shape_ncols D_pos HX).
  apply mk_matrix_ext; intros i j Hi Hj; cbv beta.
  rewrite (csum_indicator (fun k => entry X k j)); simpl.
  pose proof (sigma_lt Hi).
  destruct (Nat.ltb_spec (sigma i) D); [reflexivity | lia].
Qed.

Lemma perm_matrix_mul_r (X : matrix C) :
  has_shape D D X ->
  matmul X (perm_matrix D sigma)
  = mk_matrix D D (fun i j => entry X i (sigma j)).
Proof.
  intro HX; rewrite (matrix_eta HX) at 1; unfold perm_matrix.
  rewrite matmul_mk by apply mk_matrix_length.
  rewrite mk_matrix_ncols by exact D_pos.
  apply mk_matrix_ext; intros i j Hi Hj.
  pose proof (sigma_lt Hj) as Hsj.
  transitivity
    (csum (map (fun k => cmul (if Nat.eqb k (sigma j) then c1 else c0)
                              (entry X i k))
               (seq 0 D))).
  - f_equal; apply map_ext_in; intros k Hk; apply in_seq in Hk.
    rewrite entry_mk by lia.
    assert (Hk' : k < D) by lia.
    pose proof (sigma_inv Hj); pose proof (sigma_inv Hk').
    destruct (Nat.eqb_spec j (sigma k)), (Nat.eqb_spec k (sigma j));
      try ring; exfalso; congruence.
  - rewrite (csum_indicator (fun k => entry X i k)); simpl.
    destruct (Nat.ltb_spec (sigma j) D); [reflexivity | lia].
Qed.

(** Conjugation by the permutation matrix relabels rows and
    columns. *)
Lemma perm_conjugate (M : matrix C) :
  has_shape D D M ->
  matmul (matmul (perm_matrix D sigma) M) (perm_matrix D sigma)
  = mk_matrix D D (fun i j => entry M (sigma i) (sigma j)).
Proof.
  intro HM.
  rewrite perm_matrix_mul_l by exact HM.
  rewrite perm_matrix_mul_r by apply mk_matrix_shape.
  apply mk_matrix_ext; intros i j Hi Hj.
  rewrite entry_mk by auto; reflexivity.
Qed.

Lemma perm_matrix_square :
  matmul (perm_matrix D sigma) (perm_matrix D sigma) = eye D.
Proof.
  rewrite perm_matrix_mul_l by apply mk_matrix_shape.
  apply mk_matrix_ext; intros i j Hi Hj.
  unfold perm_matrix; rewrite entry_mk by auto.
  rewrite sigma_inv by exact Hi.
  rewrite Nat.eqb_sym; reflexivity.
Qed.

Lemma perm_conjugate_twice (M : matrix C) :
  has_shape D D M ->
  mk_matrix D D
    (fun i j =>
       entry (mk_matrix D D (fun i' j' => entry M (sigma i') (sigma j')))
             (sigma i) (sigma j))
  = M.
Proof.
  intro HM.
  transitivity (mk_matrix D D (entry M));
    [| symmetry; apply matrix_eta, HM].
  apply mk_matrix_ext; intros i j Hi Hj.
  rewrite entry_mk by auto.
  rewrite !sigma_inv by assumption; reflexivity.
Qed.
End Permutation.

Lemma pow2_pos (n : nat) : 1 <= 2 ^ n.
Proof. pose proof (Nat.pow_nonzero 2 n); lia. Qed.

(** On a valid transposition [permute_matrix] relabels rows and
    columns by the bit exchange. *)
Lemma permute_matrix_spec (n : nat) (a b : Z) (M : matrix C) :
  1 <= n ->
  (1 <= a <= Z.of_nat n)%Z -> (1 <= b <= Z.of_nat n)%Z ->
  has_shape (2 ^ n) (2 ^ n) M ->
  permute_matrix M n (a, b)
  = Ok (mk_matrix (2 ^ n) (2 ^ n)
          (fun i j =>
             entry M (bit_swap n (Z.to_nat (a - 1)) (Z.to_nat (b - 1)) i)
                   (bit_swap n (Z.to_nat (a - 1)) (Z.to_nat (b - 1)) j))).
Proof.
  intros Hn Ha Hb HM; unfold permute_matrix.
  rewrite qubit_swap_spec by assumption; cbn [bind].
  rewrite perm_conjugate; auto using pow2_pos.
  - intros x Hx; apply bit_swap_lt; auto; lia.
  - intros x Hx; apply bit_swap_involutive; auto; lia.
Qed.

(** C7: for a valid transposition the matrix built by [qubit_swap]
    is its own inverse, and conjugating a [2^n x 2^n] matrix by it
    twice with [permute_matrix] gives the matrix back. *)
Theorem permute_matrix_twice (n : nat) (a b : Z) (M : matrix C) :
  1 <= n ->
  (1 <= a <= Z.of_nat n)%Z -> (1 <= b <= Z.of_nat n)%Z ->
  has_shape (2 ^ n) (2 ^ n) M ->
  (exists P, qubit_swap n (a, b) = Ok P /\ matmul P P = eye (2 ^ n))
  /\ (M1 <- permute_matrix M n (a, b) ;; permute_matrix M1 n (a, b)) = Ok M.
Proof.
  intros Hn Ha Hb HM.
  assert (Hlt : forall x, x < 2 ^ n ->
                          bit_swap n (Z.to_nat (a - 1)) (Z.to_nat (b - 1)) x
                          < 2 ^ n)
    by (intros x Hx; apply bit_swap_lt; auto; lia).
  assert (Hinv : forall x, x < 2 ^ n ->
                           bit_swap n (Z.to_nat (a - 1)) (Z.to_nat (b - 1))
                             (bit_swap n (Z.to_nat (a - 1)) (Z.to_nat (b - 1)) x)
                           = x)
    by (intros x Hx; apply bit_swap_involutive; auto; lia).
  split.
  - eexists; split; [apply qubit_swap_spec; assumption|].
    apply perm_matrix_square; auto using pow2_pos.
  - rewrite permute_matrix_spec by assumption; cbn [bind].
    rewrite permute_matrix_spec by (auto; apply mk_matrix_shape).
    f_equal; apply perm_conjugate_twice; auto.
Qed.

(** C10: exchanging a position with itself -- the default
    transposition [(1, 1)] included -- makes [qubit_swap] return the
    identity matrix, and [permute_matrix] return its argument. *)
Theorem qubit_swap_same_position (n : nat) (a : Z) (M : matrix C) :
  1 <= n ->
  (1 <= a <= Z.of_nat n)%Z ->
  has_shape (2 ^ n) (2 ^ n) M ->
  qubit_swap n (a, a) = Ok (eye (2 ^ n))
  /\ qubit_swap n (1, 1)%Z = Ok (eye (2 ^ n))
  /\ permute_matrix M n (a, a) = Ok M.
Proof.
  intros Hn Ha HM.
  assert (Hid : forall c : Z, (1 <= c <= Z.of_nat n)%Z ->
                              forall x, x < 2 ^ n ->
                                        bit_swap n (Z.to_nat (c - 1))
                                                 (Z.to_nat (c - 1)) x = x)
    by (intros c Hc x Hx; apply bit_swap_same; auto; lia).
  assert (Heye : forall c : Z, (1 <= c <= Z.of_nat n)%Z ->
                               qubit_swap n (c, c) = Ok (eye (2 ^ n))).
  { intros c Hc; rewrite qubit_swap_spec by assumption.
    f_equal; apply mk_matrix_ext; intros i j Hi Hj.
    rewrite (Hid c Hc) by exact Hi.
    rewrite Nat.eqb_sym; reflexivity. }
  split; [apply Heye, Ha | split; [apply Heye; lia|]].
  rewrite permute_matrix_spec by assumption.
  f_equal.
  transitivity (mk_matrix (2 ^ n) (2 ^ n) (entry M));
    [| symmetry; apply matrix_eta, HM].
  apply mk_matrix_ext; intros i j Hi Hj.
  rewrite !(Hid a Ha) by assumption; reflexivity.
Qed.
End MatrixAlgebra.

Lemma permute_matrix_twice_witness :
  (exists P, qubit_swap (C := Z) 2 (1, 2)%Z = Ok P /\ matmul P P = eye 4)
  /\ (M1 <- permute_matrix
              [[1; 2; 3; 4]; [5; 6; 7; 8]; [9; 10; 11; 12]; [13; 14; 15; 16]]%Z
              2 (1, 2)%Z ;;
      permute_matrix M1 2 (1, 2)%Z)
     = Ok [[1; 2; 3; 4]; [5; 6; 7; 8]; [9; 10; 11; 12]; [13; 14; 15; 16]]%Z.
Proof.
  apply (@permute_matrix_twice Z _ _ 2 1%Z 2%Z); try (simpl; lia).
  split; [reflexivity | repeat constructor].
Defined.

Lemma qubit_swap_same_position_witness :
  qubit_swap (C := Z) 2 (2, 2)%Z = Ok (eye 4)
  /\ qubit_swap (C := Z) 2 (1, 1)%Z = Ok (eye 4)
  /\ permute_matrix
       [[1; 2; 3; 4]; [5; 6; 7; 8]; [9; 10; 11; 12]; [13; 14; 15; 16]]%Z
       2 (2, 2)%Z
     = Ok [[1; 2; 3; 4]; [5; 6; 7; 8]; [9; 10; 11; 12]; [13; 14; 15; 16]]%Z.
Proof.
  apply (@qubit_swap_same_position Z _ _ 2 2%Z); try (simpl; lia).
  split; [reflexivity | repeat constructor].
Defined.

(* ================================================================= *)
(** ** [join_povms] on two single-qubit POVMs *)

Lemma has_shape_2_2 {C : Type} (M : matrix C) :
  has_shape 2 2 M -> exists a b c d, M = [[a; b]; [c; d]].
Proof.
  intros [Hl Hf].
  destruct M as [|r1 [|r2 [|]]]; try discriminate.
  inversion Hf as [|? ? H1 Hf']; subst.
  inversion Hf' as [|? ? H2 _]; subst.
  destruct r1 as [|a [|b [|]]]; try discriminate.
  destruct r2 as [|c [|d [|]]]; try discriminate.
  exists a, b, c, d; reflexivity.
Qed.

(** With a POVM of three effects the two orders of composition
    disagree: the register has four labels, the list of products has
    six entries, and the two calls keep different ones. *)
Lemma join_povms_order_three_outcomes :
  exists r1 r2,
    join_povms [three_outcome_povm; projective_povm] [[1]; [0]]%Z = Ok r1
    /\ join_povms [projective_povm; three_outcome_povm] [[0]; [1]]%Z = Ok r2
    /\ nth 2 r1 [] <> nth 2 r2 [].
Proof.
  eexists; eexists; split; [vm_compute; reflexivity|].
  split; [vm_compute; reflexivity|].
  simpl; discriminate.
Qed.

Section JoinTwoQubits.
Context {C : Type} `{ScalarRing C}.

Add Ring scalar_ring_join : scalar_ring.

Ltac entrywise :=
  repeat match goal with
         | |- Ok _ = Ok _ => apply f_equal
         | |- _ :: _ = _ :: _ => apply f_equal2
         | |- [] = [] => reflexivity
         end.

Ltac two_by_two :=
  repeat match goal with
         | Hs : Forall (has_shape 2 2) (_ :: _) |- _ =>
             let Hm := fresh "Hm" in
             let Hr := fresh "Hr" in
             apply Forall_cons_iff in Hs as [Hm Hr];
             apply has_shape_2_2 in Hm as (? & ? & ? & ? & ->)
         | Hs : Forall (has_shape 2 2) [] |- _ => clear Hs
         end.

(** C3, for POVMs labelled by one bit: two single-qubit POVMs of at
    most two effects each are joined into the same POVM whichever of
    the two is supplied first. *)
Theorem join_povms_order_invariant (A B : list (matrix C)) :
  Forall (has_shape 2 2) A -> Forall (has_shape 2 2) B ->
  length A <= 2 -> length B <= 2 ->
  exists joint,
    join_povms [A; B] [[1]; [0]]%Z = Ok joint
    /\ join_povms [B; A] [[0]; [1]]%Z = Ok joint.
Proof.
  intros HA HB LA LB.
  destruct A as [|A0 [|A1 [|A2 A]]]; simpl in LA; try lia;
    destruct B as [|B0 [|B1 [|B2 B]]]; simpl in LB; try lia;
    two_by_two;
    (eexists; split; [cbv - [cadd cmul c0 c1]; reflexivity|]);
    cbv - [cadd cmul c0 c1]; entrywise; ring.
Qed.
End JoinTwoQubits.

Lemma join_povms_order_invariant_witness :
  exists joint,
    join_povms [ [ [[1; 2]; [3; 4]]; [[5; 6]; [7; 8]] ];
                 [ [[11; 12]; [13; 14]]; [[15; 16]; [17; 18]] ] ]%Z
               [[1]; [0]]%Z = Ok joint
    /\ join_povms [ [ [[11; 12]; [13; 14]]; [[15; 16]; [17; 18]] ];
                    [ [[1; 2]; [3; 4]]; [[5; 6]; [7; 8]] ] ]%Z
                  [[0]; [1]]%Z = Ok joint.
Proof.
  apply (@join_povms_order_invariant Z _ _); try (simpl; lia);
    repeat constructor.
Defined.

(* ================================================================= *)
(** ** More on the error monad *)

Lemma mapM_Ok_inv {A B : Type} (f : A -> result B) (l : list A) (r : list B) :
  mapM f l = Ok r -> forall x, In x l -> exists y, f x = Ok y.
Proof.
  revert r; induction l as [|a l IH]; simpl; intros r E x Hx; [contradiction|].
  apply bind_Ok_inv in E as (y & Ey & E).
  apply bind_Ok_inv in E as (ys & Eys & _).
  destruct Hx as [<- | Hx]; [exists y; exact Ey | eapply IH; eauto].
Qed.

Lemma get_Ok_inv {A : Type} (l : list A) (i : nat) (x d : A) :
  get l i = Ok x -> i < length l /\ x = nth i l d.
Proof.
  unfold get; destruct (nth_error l i) as [y|] eqn:E; [|discriminate].
  intro Ex; injection Ex as <-; split.
  - apply nth_error_Some; rewrite E; discriminate.
  - symmetry; apply nth_error_nth, E.
Qed.

Lemma map_const_seq {A : Type} (x : A) (n a : nat) :
  map (fun _ => x) (seq a n) = repeat x n.
Proof.
  revert a; induction n as [|n IH]; intro a; simpl; [reflexivity|].
  f_equal; apply IH.
Qed.

(* ================================================================= *)
(** ** The identity matrix *)

Section Identity.
Context {C : Type} `{ScalarRing C}.

Lemma eye_perm (n : nat) : eye n = perm_matrix n (fun x => x).
Proof.
  unfold eye, perm_matrix; apply mk_matrix_ext; intros i j _ _.
  rewrite Nat.eqb_sym; reflexivity.
Qed.

Lemma matmul_eye_l (n : nat) (X : matrix C) :
  1 <= n -> has_shape n n X -> matmul (eye n) X = X.
Proof.
  intros Hn HX; rewrite eye_perm, perm_matrix_mul_l; auto.
  symmetry; apply matrix_eta, HX.
Qed.

Lemma matmul_eye_r (n : nat) (X : matrix C) :
  1 <= n -> has_shape n n X -> matmul X (eye n) = X.
Proof.
  intros Hn HX; rewrite eye_perm, perm_matrix_mul_r; auto.
  symmetry; apply matrix_eta, HX.
Qed.

Lemma matmul_shape (r k c : nat) (A B : matrix C) :
  1 <= k -> has_shape r k A -> has_shape k c B -> has_shape r c (matmul A B).
Proof.
  intros Hk [HA _] HB; split; unfold matmul.
  - rewrite length_map; exact HA.
  - rewrite Forall_map, Forall_forall; intros row _.
    rewrite length_map, length_seq; apply (has_shape_ncols Hk HB).
Qed.
End Identity.

(* ================================================================= *)
(** ** [calculate_symmetric_m] *)

Section SymmetricM.
Context {C : Type} `{ScalarRing C} `{Linalg C}.

(** C6: when [np.linalg.inv] raises [LinAlgError] on the Lagrange
    matrix, [calculate_symmetric_m] raises nothing and returns the
    product [L' R M R L'] formed with the identity matrix of the
    size of [L] in place of the inverse -- which, on square operands
    of that size, is [R M R]. *)
Theorem singular_lagrange_matrix_fallback (L R M : matrix C) :
  inv L = Raise LinAlgError ->
  calculate_symmetric_m L R M
  = Ok (matmul (matmul (matmul (matmul (eye (nrows L)) R) M) R)
               (eye (nrows L)))
  /\ (1 <= nrows L ->
      has_shape (nrows L) (nrows L) R -> has_shape (nrows L) (nrows L) M ->
      calculate_symmetric_m L R M = Ok (matmul (matmul R M) R)).
Proof.
  intro Hinv; unfold calculate_symmetric_m; rewrite Hinv; cbn [bind].
  split; [reflexivity|].
  intros Hn HR HM.
  rewrite matmul_eye_l by assumption.
  rewrite matmul_eye_r; auto.
  repeat apply matmul_shape with (k := nrows L); assumption.
Qed.
End SymmetricM.

(* ================================================================= *)
(** ** [__get_r_operator] *)

Section ROperator.
Context {C : Type} `{Scalar C} `{Division C} `{Linalg C}.

Lemma r_operator_rounds (m_m : matrix C) (j : nat) (frequencies : matrix C)
      (probe_states : list (matrix C)) (l : list nat) :
  (forall s, In s l ->
             s < length probe_states
             /\ s < length frequencies
             /\ j < length (nth s frequencies [])) ->
  forall acc,
    foldM
      (fun m_r probe_state_index =>
         rho <- get probe_states probe_state_index ;;
         let expectation_value_on_probe_state := trace (matmul m_m rho) in
         if ceqb expectation_value_on_probe_state c0 then Ok m_r
         else
           row <- get frequencies probe_state_index ;;
           f <- get row j ;;
           x <- np_divide f expectation_value_on_probe_state ;;
           Ok (madd m_r (mscale x rho)))
      l acc
    = Ok (fold_left madd
            (map (r_term m_m j frequencies probe_states)
                 (filter (fun s => negb (ceqb (expectation m_m
                                                 (nth s probe_states [])) c0))
                         l))
            acc).
Proof.
  induction l as [|s l IH]; intros Hl acc; cbn [foldM filter map fold_left];
    [reflexivity|].
  destruct (Hl s (or_introl eq_refl)) as (Hs1 & Hs2 & Hs3).
  assert (Hl' : forall s', In s' l ->
                           s' < length probe_states
                           /\ s' < length frequencies
                           /\ j < length (nth s' frequencies []))
    by (intros; apply Hl; right; assumption).
  rewrite (@get_Ok (matrix C) probe_states s [] Hs1); cbn [bind].
  fold (expectation m_m (nth s probe_states [])).
  destruct (ceqb (expectation m_m (nth s probe_states [])) c0) eqn:Ez;
    cbn [negb].
  - apply IH, Hl'.
  - rewrite (@get_Ok (list C) frequencies s [] Hs2); cbn [bind].
    rewrite (@get_Ok C (nth s frequencies []) j c0 Hs3); cbn [bind].
    unfold np_divide; rewrite Ez; cbn [bind map fold_left].
    apply IH, Hl'.
Qed.

(** C5: on calibration data of matching shapes the R-operator is the
    sum, over exactly the probe states whose expectation value is
    non-zero, of [f(s, j) / Tr(M rho_s)] times [rho_s]; no division
    by a zero expectation value takes place; and when the norm of
    the sum is zero the all-zero [d x d] matrix is returned. *)
Theorem r_operator_skips_zero_expectations
        (m_m : matrix C) (j : nat) (frequencies : matrix C)
        (probe_states : list (matrix C)) :
  probe_states <> [] ->
  length probe_states = nrows frequencies ->
  Forall (fun row => j < length row) frequencies ->
  let d := nrows (nth 0 probe_states []) in
  let total := r_sum m_m j frequencies probe_states d in
  get_r_operator m_m j frequencies probe_states
  = Ok (if norm_is_zero total then zeros d d else total)
  /\ Forall (fun s => ceqb (expectation m_m (nth s probe_states [])) c0 = false)
            (contributing m_m probe_states).
Proof.
  intros Hne Hlen Hcols d total; split.
  - unfold get_r_operator.
    assert (Hfirst : 0 < length probe_states)
      by (destruct probe_states; [contradiction | simpl; lia]).
    rewrite (@get_Ok (matrix C) probe_states 0 [] Hfirst); cbn [bind]; fold d.
    rewrite r_operator_rounds.
    + cbn [bind]; unfold total, r_sum, contributing.
      rewrite Hlen; reflexivity.
    + intros s Hs; apply in_seq in Hs; unfold nrows in *.
      repeat split; try lia.
      rewrite Forall_forall in Hcols; apply Hcols, nth_In; lia.
  - unfold contributing; apply Forall_forall; intros s Hs.
    apply filter_In in Hs as [_ Hs].
    apply negb_true_iff in Hs; exact Hs.
Qed.
End ROperator.

(* ================================================================= *)
(** ** Rational scalars *)

#[export] Instance ScalarRing_Qc : ScalarRing Qcanon.Qc.
Proof. constructor; exact Qcanon.Qcrt. Qed.

#[export] Instance ScalarField_Qc : ScalarField Qcanon.Qc.
Proof.
  constructor.
  - exact Qcanon.Qcft.
  - intros x y; split.
    + apply Qcanon.Qc_eq_bool_correct.
    + intros ->; simpl; unfold Qcanon.Qc_eq_bool.
      destruct (Qcanon.Qc_eq_dec y y); [reflexivity | contradiction].
Qed.

Lemma list_eqb_eq {A : Type} (eqb : A -> A -> bool) :
  (forall x y, eqb x y = true -> x = y) ->
  forall l1 l2, list_eqb eqb l1 l2 = true -> l1 = l2.
Proof.
  intros Heq; induction l1 as [|x l1 IH]; intros [|y l2] E; simpl in E;
    try discriminate; [reflexivity|].
  apply andb_true_iff in E as [E1 E2].
  f_equal; [apply Heq, E1 | apply IH, E2].
Qed.

Lemma matrix_eqb_eq (M1 M2 : matrix Qcanon.Qc) :
  matrix_eqb M1 M2 = true -> M1 = M2.
Proof.
  unfold matrix_eqb; repeat apply list_eqb_eq.
  apply Qcanon.Qc_eq_bool_correct.
Qed.

Lemma povm_eqb_eq (l1 l2 : list (matrix Qcanon.Qc)) :
  povm_eqb l1 l2 = true -> l1 = l2.
Proof. unfold povm_eqb; apply list_eqb_eq, matrix_eqb_eq. Qed.

Lemma povm_result_eq (r : result (list (matrix Qcanon.Qc)))
      (l : list (matrix Qcanon.Qc)) :
  match r with
  | Ok l' => povm_eqb l' l
  | Raise _ => false
  end = true ->
  r = Ok l.
Proof.
  destruct r as [l'|e]; [|discriminate].
  intro E; f_equal; apply povm_eqb_eq, E.
Qed.

(* ================================================================= *)
(** ** The starting point of the iteration *)

Section Start.
Context {C : Type} `{ScalarField C} `{Linalg C}.

Add Ring scalar_field_ring : (F_R scalar_field).

Lemma mdiv_int_scale (M : matrix C) (n : nat) :
  mdiv_int M n = mscale (cdiv c1 (c_of_nat n)) M.
Proof.
  unfold mdiv_int, mscale.
  apply map_ext; intro row.
  apply map_ext; intro x.
  rewrite !(Fdiv_def scalar_field); ring.
Qed.

Variable calibration_setup : QDTCalibrationSetup C.

(** C8: the estimator enters its loop with iteration count zero and
    the uniform POVM: as many effects as the frequencies array has
    columns, each [1/m] times the identity of the dimension of the
    first probe state. *)
Theorem estimator_starts_from_uniform_povm
        (algorithmConvergenceThreshold : Q) (first_state : matrix C) :
  get (probe_states calibration_setup) 0 = Ok first_state ->
  let m := ncols (frequencies_array calibration_setup) in
  let d := nrows first_state in
  let start := initial_state calibration_setup algorithmConvergenceThreshold d in
  (forall fuel,
      get_maximum_likelihood_povm_estimator
        calibration_setup algorithmConvergenceThreshold fuel
      = while_loop calibration_setup fuel start)
  /\ st_i start = 0%Z
  /\ length (st_povm start) = m
  /\ st_povm start = repeat (mscale (cdiv c1 (c_of_nat m)) (eye d)) m.
Proof.
  intros Hfirst m d start.
  split; [| split; [| split]].
  - intro fuel; unfold get_maximum_likelihood_povm_estimator.
    rewrite Hfirst; reflexivity.
  - reflexivity.
  - simpl; unfold initial_povm; rewrite length_map, length_seq; reflexivity.
  - simpl; unfold initial_povm, number_of_probe_states; fold m.
    rewrite map_const_seq; f_equal.
    apply mdiv_int_scale.
Qed.
End Start.

Lemma estimator_starts_from_uniform_povm_witness :
  let start := initial_state basis_probe_setup (1 # 1000000)%Q 2 in
  (forall fuel,
      get_maximum_likelihood_povm_estimator basis_probe_setup (1 # 1000000)%Q fuel
      = while_loop basis_probe_setup fuel start)
  /\ st_i start = 0%Z
  /\ length (st_povm start) = 2
  /\ st_povm start = repeat (mscale (cdiv c1 (c_of_nat 2)) (eye 2)) 2.
Proof.
  apply (@estimator_starts_from_uniform_povm
           Qcanon.Qc _ _ _ _ basis_probe_setup (1 # 1000000)%Q
           [[qc 1 1; qc 0 1]; [qc 0 1; qc 0 1]]).
  reflexivity.
Defined.

Lemma singular_lagrange_matrix_fallback_witness :
  calculate_symmetric_m (zeros 2 2) (eye 2) (eye (C := Qcanon.Qc) 2)
  = Ok (matmul (matmul (matmul (matmul (eye 2) (eye 2)) (eye 2)) (eye 2)) (eye 2))
  /\ (1 <= 2 ->
      has_shape 2 2 (eye (C := Qcanon.Qc) 2) ->
      has_shape 2 2 (eye (C := Qcanon.Qc) 2) ->
      calculate_symmetric_m (zeros 2 2) (eye 2) (eye (C := Qcanon.Qc) 2)
      = Ok (matmul (matmul (eye 2) (eye 2)) (eye 2))).
Proof.
  apply (@singular_lagrange_matrix_fallback
           Qcanon.Qc _ _ _ (zeros 2 2) (eye 2) (eye 2)).
  reflexivity.
Defined.

Lemma r_operator_skips_zero_expectations_witness :
  let m_m : matrix Qcanon.Qc := [[qc 1 1; qc 0 1]; [qc 0 1; qc 0 1]] in
  let frequencies := frequencies_array basis_probe_setup in
  let states := probe_states basis_probe_setup in
  let total := r_sum m_m 0 frequencies states 2 in
  get_r_operator m_m 0 frequencies states
  = Ok (if norm_is_zero total then zeros 2 2 else total)
  /\ Forall (fun s => ceqb (expectation m_m (nth s states [])) c0 = false)
            (contributing m_m states).
Proof.
  apply (@r_operator_skips_zero_expectations
           Qcanon.Qc _ _ _ [[qc 1 1; qc 0 1]; [qc 0 1; qc 0 1]] 0
           (frequencies_array basis_probe_setup)
           (probe_states basis_probe_setup)).
  - discriminate.
  - reflexivity.
  - repeat constructor.
Defined.

(* ================================================================= *)
(** ** The loop of the estimator *)

Section LoopFacts.
Context {C : Type} `{Scalar C} `{Division C} `{Linalg C}.
Variable calibration_setup : QDTCalibrationSetup C.

Lemma update_povm_lengths (povm povm' : list (matrix C)) :
  update_povm calibration_setup povm = Ok povm' ->
  length povm' = number_of_probe_states calibration_setup
  /\ number_of_probe_states calibration_setup <= length povm.
Proof.
  unfold update_povm; intro E.
  apply bind_Ok_inv in E as (rs & Ers & E).
  apply bind_Ok_inv in E as (lagrange & _ & E).
  split.
  - apply mapM_length in E; rewrite length_seq in E; exact E.
  - assert (Hget : forall k, k < number_of_probe_states calibration_setup ->
                              k < length povm).
    { intros k Hk.
      destruct (mapM_Ok_inv _ _ Ers k) as (y & Ey); [apply in_seq; lia|].
      apply bind_Ok_inv in Ey as (effect & Eg & _).
      apply (get_Ok_inv _ _ []) in Eg as [Hlt _]; exact Hlt. }
    destruct (Nat.le_gt_cases (number_of_probe_states calibration_setup)
                              (length povm)) as [Hle | Hgt]; [exact Hle|].
    specialize (Hget _ Hgt); lia.
Qed.

Lemma convergence_sum_formula (povm recorded : list (matrix C)) :
  number_of_probe_states calibration_setup <= length povm ->
  number_of_probe_states calibration_setup <= length recorded ->
  convergence_sum calibration_setup povm recorded
  = Ok (qsum (map (fun k => norm2 (msub (nth k povm []) (nth k recorded [])))
                  (seq 0 (number_of_probe_states calibration_setup)))).
Proof.
  intros Hp Hr; unfold convergence_sum.
  rewrite mapM_Ok
    with (g := fun k => norm2 (msub (nth k povm []) (nth k recorded []))).
  - reflexivity.
  - intros k Hk; apply in_seq in Hk.
    rewrite (@get_Ok (matrix C) povm k []) by lia.
    rewrite (@get_Ok (matrix C) recorded k []) by lia.
    reflexivity.
Qed.

(** What a successful execution of the loop body leaves behind. *)
Lemma loop_body_inv (st st' : loop_state C) :
  loop_body calibration_setup st = Ok st' ->
  let i := (st_i st + 1)%Z in
  st_i st' = i
  /\ update_povm calibration_setup (st_povm st) = Ok (st_povm st')
  /\ (((i mod 50)%Z = 0%Z
       /\ convergence_sum calibration_setup (st_povm st') (st_povm st)
          = Ok (st_current_difference st')
       /\ st_threshold st' = st_threshold st
       /\ st_last_step_povm st' = Some (st_povm st))
      \/ ((i mod 50)%Z <> 0%Z
          /\ st_current_difference st' = st_current_difference st
          /\ st_last_step_povm st' = st_last_step_povm st
          /\ st_threshold st'
             = if (500000 <? i)%Z then (1 # 1000)%Q
               else if (100000 <? i)%Z then (1 # 10000)%Q
                    else st_threshold st)).
Proof.
  intros E i; unfold loop_body in E; cbv zeta in E; fold i in E.
  apply bind_Ok_inv in E as (povm' & Eup & E).
  destruct (Z.eqb_spec (i mod 50) 0) as [Hmod | Hmod].
  - apply bind_Ok_inv in E as (cd & Ecd & E).
    injection E as <-; simpl.
    repeat split; auto.
  - destruct (500000 <? i)%Z; [| destruct (100000 <? i)%Z];
      injection E as <-; simpl; repeat split; auto;
      right; repeat split; auto.
Qed.

Lemma loop_guard_false (st : loop_state C) :
  loop_guard st = false
  <-> (Qabs (st_current_difference st) < st_threshold st)%Q.
Proof.
  unfold loop_guard.
  destruct (Qle_bool (st_threshold st) (Qabs (st_current_difference st)))
           eqn:E.
  - apply Qle_bool_iff in E; split; [discriminate | intro; lra].
  - split; [intros _ | reflexivity].
    apply Qnot_le_lt; intro Hle; apply Qle_bool_iff in Hle; congruence.
Qed.

Lemma loop_guard_true (st : loop_state C) :
  loop_guard st = true
  <-> (st_threshold st <= Qabs (st_current_difference st))%Q.
Proof. unfold loop_guard; apply Qle_bool_iff. Qed.

Lemma while_loop_exit (fuel : nat) (st : loop_state C) :
  loop_guard st = false ->
  while_loop calibration_setup fuel st = Returned (st_povm st).
Proof. intro E; destruct fuel; simpl; rewrite E; reflexivity. Qed.

Lemma while_loop_continue (fuel : nat) (st : loop_state C) :
  loop_guard st = true ->
  while_loop calibration_setup (S fuel) st
  = match loop_body calibration_setup st with
    | Ok st' => while_loop calibration_setup fuel st'
    | Raise e => Raised e
    end.
Proof. intro E; simpl; rewrite E; reflexivity. Qed.

(** The loop returns exactly when some iterate of the body fails the
    guard. *)
Lemma while_loop_returns_iff (st : loop_state C) :
  (exists fuel povm, while_loop calibration_setup fuel st = Returned povm)
  <-> (exists k st_k, iterate calibration_setup k st = Ok st_k
                      /\ loop_guard st_k = false).
Proof.
  split.
  - intros (fuel & povm & E); revert st E.
    induction fuel as [|fuel IH]; intros st E; simpl in E.
    + destruct (loop_guard st) eqn:G; [discriminate|].
      exists 0, st; split; [reflexivity | exact G].
    + destruct (loop_guard st) eqn:G.
      * destruct (loop_body calibration_setup st) as [st'|e] eqn:B;
          [|discriminate].
        destruct (IH st' E) as (k & st_k & Ek & Gk).
        exists (S k), st_k; split; [simpl; rewrite B; exact Ek | exact Gk].
      * exists 0, st; split; [reflexivity | exact G].
  - intros (k & st_k & Ek & Gk); revert st Ek.
    induction k as [|k IH]; intros st Ek; simpl in Ek.
    + injection Ek as ->.
      exists 0, (st_povm st_k); apply while_loop_exit, Gk.
    + destruct (loop_guard st) eqn:G.
      * apply bind_Ok_inv in Ek as (st' & B & Ek).
        destruct (IH st' Ek) as (fuel & povm & E).
        exists (S fuel), povm.
        rewrite while_loop_continue, B by exact G; exact E.
      * exists 0, (st_povm st); apply while_loop_exit, G.
Qed.

(** C1, as amended: the sum of norms is recomputed only in
    iterations whose count is a multiple of 50, from the effects
    just computed and the effects the same iteration started from
    -- [last_step_povm] is recorded at the beginning of the
    checkpoint iteration itself, so the difference spans one
    update and not the fifty since the checkpoint before; the loop
    returns as soon as the tested value is below the threshold in
    force, and goes on otherwise. *)
Theorem convergence_test_every_fifty (st st' : loop_state C) :
  loop_body calibration_setup st = Ok st' ->
  let i := st_i st' in
  i = (st_i st + 1)%Z
  /\ ((i mod 50)%Z = 0%Z ->
      st_last_step_povm st' = Some (st_povm st)
      /\ st_current_difference st'
         = qsum (map (fun j => norm2 (msub (nth j (st_povm st') [])
                                           (nth j (st_povm st) [])))
                     (seq 0 (number_of_probe_states calibration_setup))))
  /\ ((i mod 50)%Z <> 0%Z ->
      st_current_difference st' = st_current_difference st
      /\ st_last_step_povm st' = st_last_step_povm st)
  /\ (forall fuel,
         (Qabs (st_current_difference st') < st_threshold st')%Q ->
         while_loop calibration_setup fuel st' = Returned (st_povm st'))
  /\ (forall fuel,
         (st_threshold st' <= Qabs (st_current_difference st'))%Q ->
         while_loop calibration_setup (S fuel) st'
         = match loop_body calibration_setup st' with
           | Ok st'' => while_loop calibration_setup fuel st''
           | Raise e => Raised e
           end).
Proof.
  intros E i.
  destruct (loop_body_inv _ E) as (Hi & Hup & Hcase).
  destruct (update_povm_lengths _ Hup) as (Hlen' & Hlen).
  unfold i; rewrite Hi.
  split; [reflexivity | split; [| split; [| split]]].
  - intro Hmod.
    destruct Hcase as [(_ & Hcd & _ & Hlast) | (Hne & _)]; [| contradiction].
    split; [exact Hlast|].
    rewrite convergence_sum_formula in Hcd by lia.
    injection Hcd as ->; reflexivity.
  - intro Hmod.
    destruct Hcase as [(Heq & _) | (_ & Hcd & Hlast & _)]; [contradiction|].
    split; assumption.
  - intros fuel Hlt; apply while_loop_exit, loop_guard_false, Hlt.
  - intros fuel Hge; apply while_loop_continue, loop_guard_true, Hge.
Qed.

(** The staircase by itself: away from the checkpoints the
    threshold is set to [1e-3] once the count exceeds 500000 and to
    [1e-4] once it exceeds 100000, and is otherwise left alone; and
    the loop returns if and only if some iterate makes the tested
    value smaller than the threshold then in force. *)
Theorem threshold_staircase (st st' : loop_state C) :
  loop_body calibration_setup st = Ok st' ->
  let i := st_i st' in
  ((i mod 50)%Z <> 0%Z -> (500000 < i)%Z ->
   st_threshold st' = (1 # 1000)%Q)
  /\ ((i mod 50)%Z <> 0%Z -> (100000 < i <= 500000)%Z ->
      st_threshold st' = (1 # 10000)%Q)
  /\ ((i mod 50)%Z = 0%Z \/ (i <= 100000)%Z ->
      st_threshold st' = st_threshold st)
  /\ ((exists fuel povm,
          while_loop calibration_setup fuel st' = Returned povm)
      <-> (exists k st_k,
              iterate calibration_setup k st' = Ok st_k
              /\ (Qabs (st_current_difference st_k) < st_threshold st_k)%Q)).
Proof.
  intros E i.
  destruct (loop_body_inv _ E) as (Hi & _ & Hcase).
  fold i in Hi; rewrite <- Hi in Hcase.
  split; [| split; [| split]].
  - intros Hmod Hbig.
    destruct Hcase as [(Heq & _) | (_ & _ & _ & Hthr)]; [contradiction|].
    rewrite Hthr.
    destruct (Z.ltb_spec 500000 i); [reflexivity | lia].
  - intros Hmod Hmid.
    destruct Hcase as [(Heq & _) | (_ & _ & _ & Hthr)]; [contradiction|].
    rewrite Hthr.
    destruct (Z.ltb_spec 500000 i); [lia|].
    destruct (Z.ltb_spec 100000 i); [reflexivity | lia].
  - intros Hsmall.
    destruct Hcase as [(_ & _ & Hthr & _) | (Hne & _ & _ & Hthr)];
      [exact Hthr|].
    destruct Hsmall as [Heq | Hle]; [contradiction|].
    rewrite Hthr.
    destruct (Z.ltb_spec 500000 i); [lia|].
    destruct (Z.ltb_spec 100000 i); [lia | reflexivity].
  - rewrite while_loop_returns_iff.
    split; intros (k & st_k & Ek & Gk); exists k, st_k; split; auto;
      apply loop_guard_false; exact Gk.
Qed.
End LoopFacts.

(* ================================================================= *)
(** ** A calibration on which the iteration never settles *)

Lemma basis_probe_step_uniform :
  update_povm basis_probe_setup uniform_povm = Ok overshot_povm.
Proof. apply povm_result_eq; vm_compute; reflexivity. Qed.

Lemma basis_probe_step_overshot :
  update_povm basis_probe_setup overshot_povm = Ok uniform_povm.
Proof. apply povm_result_eq; vm_compute; reflexivity. Qed.

Lemma basis_probe_start : initial_povm basis_probe_setup 2 = uniform_povm.
Proof. apply povm_eqb_eq; vm_compute; reflexivity. Qed.

Lemma get_lagrange_matrix_sqrtm {C : Type} `{Scalar C} `{Division C} `{Linalg C}
      (r_matrices povms : list (matrix C)) :
  get_lagrange_matrix r_matrices povms
  = (s <- second_power_of_lagrange_matrix r_matrices povms ;; Ok (sqrtm s)).
Proof.
  unfold get_lagrange_matrix, second_power_of_lagrange_matrix.
  destruct (get povms 0); reflexivity.
Qed.

Lemma update_povm_steps {C : Type} `{Scalar C} `{Division C} `{Linalg C}
      (calibration_setup : QDTCalibrationSetup C) (povm : list (matrix C)) :
  update_povm calibration_setup povm
  = (r_matrices <- r_matrices_of calibration_setup povm ;;
     lagrange_matrix <- get_lagrange_matrix r_matrices povm ;;
     mapM (fun j =>
             r <- get r_matrices j ;;
             effect <- get povm j ;;
             calculate_symmetric_m lagrange_matrix r effect)
          (seq 0 (number_of_probe_states calibration_setup))).
Proof. reflexivity. Qed.

(** On both POVMs of the cycle the diagonal kernels return what the
    numerical ones are specified to: the square root squares to its
    argument, and the inverse is a two-sided inverse. *)
Lemma basis_probe_kernels_exact :
  Forall (fun povm =>
            exists rs S X,
              r_matrices_of basis_probe_setup povm = Ok rs
              /\ second_power_of_lagrange_matrix rs povm = Ok S
              /\ matmul (sqrtm S) (sqrtm S) = S
              /\ inv (sqrtm S) = Ok X
              /\ matmul X (sqrtm S) = eye 2
              /\ matmul (sqrtm S) X = eye 2)
         [uniform_povm; overshot_povm].
Proof.
  repeat constructor;
    (eexists; eexists; eexists;
     split; [vm_compute; reflexivity|];
     split; [vm_compute; reflexivity|];
     split; [apply matrix_eqb_eq; vm_compute; reflexivity|];
     split; [vm_compute; reflexivity|];
     split; apply matrix_eqb_eq; vm_compute; reflexivity).
Qed.

(** The POVM recorded at a checkpoint is the one the same iteration
    started from: on [basis_probe_setup] the iterates after 50 and
    after 100 executions of the body coincide, and the value tested
    at iteration 100 is nevertheless 24/25, the distance to iterate
    99. *)
Lemma checkpoint_difference_spans_one_update :
  exists s50 s100,
    iterate basis_probe_setup 50
            (initial_state basis_probe_setup (1 # 1000000)%Q 2) = Ok s50
    /\ iterate basis_probe_setup 50 s50 = Ok s100
    /\ st_i s100 = 100%Z
    /\ st_povm s100 = st_povm s50
    /\ st_current_difference s100 = (600 # 625)%Q.
Proof.
  eexists; eexists.
  split; [vm_compute; reflexivity|].
  split; [vm_compute; reflexivity|].
  split; [reflexivity|].
  split; [apply povm_eqb_eq; vm_compute; reflexivity | reflexivity].
Qed.

(** With a detector that answers at random the uniform POVM is a
    fixed point, and the estimator returns it at the first
    checkpoint. *)
Lemma unbiased_setup_returns :
  get_maximum_likelihood_povm_estimator unbiased_setup (1 # 1000000)%Q 50
  = Returned uniform_povm.
Proof.
  destruct (get_maximum_likelihood_povm_estimator
              unbiased_setup (1 # 1000000)%Q 50) as [povm | e |] eqn:E.
  - f_equal; apply povm_eqb_eq.
    apply (f_equal (fun o => match o with
                             | Returned l => povm_eqb l uniform_povm
                             | _ => false
                             end)) in E.
    rewrite <- E; vm_compute; reflexivity.
  - apply (f_equal (fun o => match o with
                             | Returned _ => true
                             | _ => false
                             end)) in E.
    vm_compute in E; discriminate.
  - apply (f_equal (fun o => match o with
                             | Returned _ => true
                             | _ => false
                             end)) in E.
    vm_compute in E; discriminate.
Qed.

Lemma oscillating_guard (st : loop_state Qcanon.Qc) :
  oscillating st -> loop_guard st = true.
Proof.
  intros (_ & Ht & Hc); apply loop_guard_true.
  rewrite Qabs_pos by lra; lra.
Qed.

Lemma oscillating_step (st : loop_state Qcanon.Qc) :
  oscillating st ->
  exists st', loop_body basis_probe_setup st = Ok st' /\ oscillating st'.
Proof.
  intros (Hp & Ht & Hc); unfold loop_body.
  assert (Hsum : forall a b,
             (a = uniform_povm /\ b = overshot_povm)
             \/ (a = overshot_povm /\ b = uniform_povm) ->
             convergence_sum basis_probe_setup a b = Ok (600 # 625)%Q)
    by (intros a b [[-> ->] | [-> ->]]; vm_compute; reflexivity).
  assert (Hup : exists povm',
             update_povm basis_probe_setup (st_povm st) = Ok povm'
             /\ ((povm' = uniform_povm /\ st_povm st = overshot_povm)
                 \/ (povm' = overshot_povm /\ st_povm st = uniform_povm))).
  { destruct Hp as [E | E]; rewrite E.
    - exists overshot_povm; split; [apply basis_probe_step_uniform | auto].
    - exists uniform_povm; split; [apply basis_probe_step_overshot | auto]. }
  destruct Hup as (povm' & -> & Hpair); cbn [bind].
  assert (Hp' : povm' = uniform_povm \/ povm' = overshot_povm)
    by (destruct Hpair as [[-> _] | [-> _]]; auto).
  destruct ((st_i st + 1) mod 50 =? 0)%Z.
  - rewrite (Hsum povm' (st_povm st)) by exact Hpair; cbn [bind].
    eexists; split; [reflexivity|].
    repeat split; simpl; auto; lra.
  - destruct (500000 <? st_i st + 1)%Z; [| destruct (100000 <? st_i st + 1)%Z];
      (eexists; split; [reflexivity|]);
      repeat split; simpl; auto; lra.
Qed.

Lemma oscillating_forever (fuel : nat) :
  forall st, oscillating st -> while_loop basis_probe_setup fuel st = OutOfFuel.
Proof.
  induction fuel as [|fuel IH]; intros st Hst; simpl;
    rewrite (oscillating_guard Hst); [reflexivity|].
  destruct (oscillating_step Hst) as (st' & -> & Hst').
  apply IH, Hst'.
Qed.

Lemma basis_probe_never_returns (fuel : nat) :
  get_maximum_likelihood_povm_estimator basis_probe_setup (1 # 1000000)%Q fuel
  = OutOfFuel.
Proof.
  unfold get_maximum_likelihood_povm_estimator; simpl get.
  apply oscillating_forever.
  repeat split; simpl.
  - left; apply basis_probe_start.
  - lra.
  - lra.
Qed.

(** C1, as stated, fails.  On [basis_probe_setup] the POVM at the
    checkpoint of iteration 100 is the POVM of the checkpoint of
    iteration 50, so the sum of the norms of the differences to the
    last checkpoint is 0, below the threshold.  What iteration 100
    has recorded is the POVM after iteration 99, a different one; the
    value the loop tests is the distance to it, 24/25, and the loop
    goes on. *)
Lemma tested_sum_is_not_distance_to_last_checkpoint :
  exists s50 s99 s100 distance,
    iterate basis_probe_setup 50
            (initial_state basis_probe_setup (1 # 1000000)%Q 2) = Ok s50
    /\ iterate basis_probe_setup 49 s50 = Ok s99
    /\ loop_body basis_probe_setup s99 = Ok s100
    /\ st_i s50 = 50%Z
    /\ st_i s100 = 100%Z
    /\ convergence_sum basis_probe_setup (st_povm s100) (st_povm s50)
       = Ok distance
    /\ (distance == 0)%Q
    /\ (distance < st_threshold s100)%Q
    /\ st_last_step_povm s100 = Some (st_povm s99)
    /\ st_povm s99 <> st_povm s50
    /\ (st_current_difference s100 == 24 # 25)%Q
    /\ ~ (st_current_difference s100 == distance)%Q
    /\ loop_guard s100 = true.
Proof.
  eexists; eexists; eexists; eexists.
  split; [vm_compute; reflexivity|].
  split; [vm_compute; reflexivity|].
  split; [vm_compute; reflexivity|].
  split; [reflexivity|].
  split; [reflexivity|].
  split; [vm_compute; reflexivity|].
  split; [vm_compute; reflexivity|].
  split; [vm_compute; reflexivity|].
  split; [cbn [st_last_step_povm st_povm]; f_equal; apply povm_eqb_eq;
          vm_compute; reflexivity|].
  split.
  - match goal with
    | |- ?a <> ?b =>
        intro E; apply (f_equal (fun p => povm_eqb p b)) in E;
        vm_compute in E; discriminate E
    end.
  - split; [vm_compute; reflexivity|].
    split; [vm_compute; intro E; discriminate E | vm_compute; reflexivity].
Qed.

(** C2: the failing input.  On [basis_probe_setup], one qubit
    calibrated with the probe states [|0><0|] and [|1><1|] and the
    frequencies [[7/8, 1/8], [1/8, 7/8]], with the default threshold
    [1e-6], the loop is still running after any number of iterations
    -- the sum tested at every checkpoint is 24/25, above the loosest
    threshold [1e-3] of the staircase -- so the estimator returns for
    no amount of fuel. *)
Theorem staircase_does_not_end_the_loop :
  (forall fuel,
      get_maximum_likelihood_povm_estimator basis_probe_setup (1 # 1000000)%Q fuel
      = OutOfFuel)
  /\ ~ (exists fuel povm,
          get_maximum_likelihood_povm_estimator
            basis_probe_setup (1 # 1000000)%Q fuel
          = Returned povm).
Proof.
  split.
  - exact basis_probe_never_returns.
  - intros (fuel & povm & E).
    rewrite basis_probe_never_returns in E; discriminate.
Qed.

Lemma convergence_test_every_fifty_witness :
  let st := {| st_i := 49; st_current_difference := 1;
               st_threshold := (1 # 1000000)%Q;
               st_povm := uniform_povm; st_last_step_povm := None |} in
  let st' := {| st_i := 50; st_current_difference := (600 # 625)%Q;
                st_threshold := (1 # 1000000)%Q;
                st_povm := overshot_povm;
                st_last_step_povm := Some uniform_povm |} in
  st_i st' = (st_i st + 1)%Z
  /\ ((st_i st' mod 50)%Z = 0%Z ->
      st_last_step_povm st' = Some (st_povm st)
      /\ st_current_difference st'
         = qsum (map (fun j => norm2 (msub (nth j (st_povm st') [])
                                           (nth j (st_povm st) [])))
                     (seq 0 (number_of_probe_states basis_probe_setup))))
  /\ ((st_i st' mod 50)%Z <> 0%Z ->
      st_current_difference st' = st_current_difference st
      /\ st_last_step_povm st' = st_last_step_povm st)
  /\ (forall fuel,
         (Qabs (st_current_difference st') < st_threshold st')%Q ->
         while_loop basis_probe_setup fuel st' = Returned (st_povm st'))
  /\ (forall fuel,
         (st_threshold st' <= Qabs (st_current_difference st'))%Q ->
         while_loop basis_probe_setup (S fuel) st'
         = match loop_body basis_probe_setup st' with
           | Ok st'' => while_loop basis_probe_setup fuel st''
           | Raise e => Raised e
           end).
Proof.
  intros st st'.
  apply (@convergence_test_every_fifty Qcanon.Qc _ _ _ basis_probe_setup st st').
  unfold loop_body, st; simpl st_povm; simpl st_i.
  rewrite basis_probe_step_uniform; reflexivity.
Defined.

Lemma threshold_staircase_witness :
  let st := {| st_i := 500000; st_current_difference := (600 # 625)%Q;
               st_threshold := (1 # 10000)%Q;
               st_povm := uniform_povm; st_last_step_povm := Some uniform_povm |} in
  let st' := {| st_i := 500001; st_current_difference := (600 # 625)%Q;
                st_threshold := (1 # 1000)%Q;
                st_povm := overshot_povm;
                st_last_step_povm := Some uniform_povm |} in
  ((st_i st' mod 50)%Z <> 0%Z -> (500000 < st_i st')%Z ->
   st_threshold st' = (1 # 1000)%Q)
  /\ ((st_i st' mod 50)%Z <> 0%Z -> (100000 < st_i st' <= 500000)%Z ->
      st_threshold st' = (1 # 10000)%Q)
  /\ ((st_i st' mod 50)%Z = 0%Z \/ (st_i st' <= 100000)%Z ->
      st_threshold st' = st_threshold st)
  /\ ((exists fuel povm,
          while_loop basis_probe_setup fuel st' = Returned povm)
      <-> (exists k st_k,
              iterate basis_probe_setup k st' = Ok st_k
              /\ (Qabs (st_current_difference st_k) < st_threshold st_k)%Q)).
Proof.
  intros st st'.
  apply (@threshold_staircase Qcanon.Qc _ _ _ basis_probe_setup st st').
  unfold loop_body, st; simpl st_povm; simpl st_i.
  rewrite basis_probe_step_uniform; reflexivity.
Defined.

(* ================================================================= *)
(** * Further properties *)

(** ** The loop of the estimator, from its initial state *)

Section LoopFromStart.
Context {C : Type} `{Scalar C} `{Division C} `{Linalg C}.
Variable calibration_setup : QDTCalibrationSetup C.

Lemma iterate_snoc (k : nat) (st : loop_state C) :
  iterate calibration_setup (S k) st
  = (st' <- iterate calibration_setup k st ;; loop_body calibration_setup st').
Proof.
  revert st; induction k as [|k IH]; intro st.
  - simpl; destruct (loop_body calibration_setup st); reflexivity.
  - cbn [iterate].
    destruct (loop_body calibration_setup st) as [st'|e]; cbn [bind];
      [exact (IH st') | reflexivity].
Qed.

Lemma staircase_threshold_step (threshold : Q) (i : Z) :
  (0 <= i)%Z ->
  staircase_threshold threshold (i + 1)
  = if ((i + 1) mod 50 =? 0)%Z then staircase_threshold threshold i
    else if (500000 <? i + 1)%Z then (1 # 1000)%Q
         else if (100000 <? i + 1)%Z then (1 # 10000)%Q
              else staircase_threshold threshold i.
Proof.
  intro Hi; unfold staircase_threshold.
  destruct (Z.eqb_spec ((i + 1) mod 50) 0) as [Hmod | Hmod];
    destruct (Z.ltb_spec 500000 (i + 1)), (Z.ltb_spec 100000 (i + 1)),
      (Z.ltb_spec 500000 i), (Z.ltb_spec 100000 i);
    try reflexivity; exfalso; try lia.
  - assert (i = 500000)%Z by lia; subst i; vm_compute in Hmod; discriminate.
  - assert (i = 100000)%Z by lia; subst i; vm_compute in Hmod; discriminate.
Qed.

(** The count, the number of effects, the threshold and the tested
    value after [k] executions of the body from the initial state. *)
Lemma iterate_from_initial_state
        (threshold : Q) (dimension k : nat) (st : loop_state C) :
  iterate calibration_setup k
          (initial_state calibration_setup threshold dimension) = Ok st ->
  st_i st = Z.of_nat k
  /\ length (st_povm st) = number_of_probe_states calibration_setup
  /\ st_threshold st = staircase_threshold threshold (Z.of_nat k)
  /\ (k < 50 -> st_current_difference st = 1%Q).
Proof.
  revert st; induction k as [|k IH]; intros st E.
  - injection E as <-; simpl.
    repeat split.
    unfold initial_povm; rewrite length_map, length_seq; reflexivity.
  - rewrite iterate_snoc in E.
    apply bind_Ok_inv in E as (st0 & E0 & Ebody).
    destruct (IH st0 E0) as (Hi & Hlen & Hthr & Hcd).
    destruct (loop_body_inv _ _ Ebody) as (Hi' & Hup & Hcase).
    destruct (update_povm_lengths _ _ Hup) as (Hlen' & _).
    rewrite Hi in Hi', Hcase.
    assert (Ecount : (Z.of_nat k + 1)%Z = Z.of_nat (S k)) by lia.
    rewrite Ecount in Hi', Hcase.
    repeat split; auto.
    + rewrite <- Ecount, staircase_threshold_step by lia.
      rewrite Ecount.
      destruct Hcase as [(Hmod & _ & Ht & _) | (Hmod & _ & _ & Ht)].
      * rewrite Hmod; simpl; congruence.
      * destruct (Z.eqb_spec (Z.of_nat (S k) mod 50) 0); [contradiction|].
        rewrite Ht, Hthr; reflexivity.
    + intro Hk.
      destruct Hcase as [(Hmod & _) | (_ & Hsame & _)].
      * exfalso.
        assert (Hsmall : (0 < Z.of_nat (S k) < 50)%Z) by lia.
        rewrite Z.mod_small in Hmod by lia; lia.
      * rewrite Hsame; apply Hcd; lia.
Qed.

(** X1: after [k] executions of the body from the initial state the
    count is [k], the POVM has one effect per column of the
    frequencies array, the threshold is the start value up to count
    100000, [1e-4] up to 500000 and [1e-3] beyond, and before the
    first checkpoint the tested value is still the initial [1]. *)
Theorem threshold_in_force_by_count
        (threshold : Q) (dimension k : nat) (st : loop_state C) :
  iterate calibration_setup k
          (initial_state calibration_setup threshold dimension) = Ok st ->
  st_i st = Z.of_nat k
  /\ length (st_povm st) = number_of_probe_states calibration_setup
  /\ st_threshold st = staircase_threshold threshold (Z.of_nat k)
  /\ (k < 50 -> st_current_difference st = 1%Q).
Proof. exact (@iterate_from_initial_state threshold dimension k st). Qed.

(** A return of the loop, traced back to the first iterate that
    fails the guard. *)
Lemma while_loop_returned_inv (fuel : nat) :
  forall (st : loop_state C) (povm : list (matrix C)),
    while_loop calibration_setup fuel st = Returned povm ->
    exists k st_k,
      k <= fuel
      /\ iterate calibration_setup k st = Ok st_k
      /\ loop_guard st_k = false
      /\ povm = st_povm st_k
      /\ (forall j st_j, j < k -> iterate calibration_setup j st = Ok st_j ->
                         loop_guard st_j = true).
Proof.
  induction fuel as [|fuel IH]; intros st povm E; simpl in E.
  - destruct (loop_guard st) eqn:G; [discriminate|].
    injection E as <-.
    exists 0, st; repeat split; auto; intros; lia.
  - destruct (loop_guard st) eqn:G.
    + destruct (loop_body calibration_setup st) as [st'|e] eqn:B;
        [|discriminate].
      destruct (IH st' povm E) as (k & st_k & Hk & Ek & Gk & Ep & Hbefore).
      exists (S k), st_k; repeat split; auto; try lia.
      * simpl; rewrite B; exact Ek.
      * intros [|j] st_j Hj Ej.
        -- injection Ej as <-; exact G.
        -- simpl in Ej; rewrite B in Ej; simpl in Ej.
           eapply Hbefore; [|exact Ej]; lia.
    + injection E as <-.
      exists 0, st; repeat split; auto; intros; lia.
Qed.

Lemma initial_guard (threshold : Q) (dimension : nat) :
  loop_guard (initial_state calibration_setup threshold dimension)
  = Qle_bool threshold 1.
Proof. reflexivity. Qed.

(** X2: with a threshold above one the loop body is never
    executed: the estimator returns the initial uniform POVM. *)
Theorem estimator_threshold_above_one
        (threshold : Q) (first_state : matrix C) (fuel : nat) :
  get (probe_states calibration_setup) 0 = Ok first_state ->
  (1 < threshold)%Q ->
  get_maximum_likelihood_povm_estimator calibration_setup threshold fuel
  = Returned (initial_povm calibration_setup (nrows first_state)).
Proof.
  intros Hfirst Hthr; unfold get_maximum_likelihood_povm_estimator.
  rewrite Hfirst.
  rewrite while_loop_exit; [reflexivity|].
  rewrite initial_guard.
  destruct (Qle_bool threshold 1) eqn:G; [|reflexivity].
  apply Qle_bool_iff in G; lra.
Qed.

(** X3: where the loop can stop.  With a threshold of at most one,
    a returned POVM is the iterate of a count that is a positive
    multiple of 50, or 100001, or 500001 -- the two counts at which
    the threshold is loosened; in particular at least 50 updates
    have been made. *)
Theorem estimator_exit_points
        (threshold : Q) (first_state : matrix C)
        (fuel : nat) (povm : list (matrix C)) :
  get (probe_states calibration_setup) 0 = Ok first_state ->
  (threshold <= 1)%Q ->
  get_maximum_likelihood_povm_estimator calibration_setup threshold fuel
  = Returned povm ->
  exists k st,
    50 <= k <= fuel
    /\ iterate calibration_setup k
               (initial_state calibration_setup threshold (nrows first_state))
       = Ok st
    /\ povm = st_povm st
    /\ st_i st = Z.of_nat k
    /\ ((st_i st mod 50 = 0)%Z
        \/ st_i st = 100001%Z \/ st_i st = 500001%Z).
Proof.
  intros Hfirst Hthr; unfold get_maximum_likelihood_povm_estimator.
  rewrite Hfirst; intro E.
  destruct (while_loop_returned_inv _ _ E)
    as (k & st & Hk & Ek & Gk & Ep & Hbefore).
  destruct (iterate_from_initial_state _ _ _ Ek) as (Hi & _ & Ht & Hcd).
  assert (Hexit : (0 < st_i st)%Z
                  /\ ((st_i st mod 50 = 0)%Z
                      \/ st_i st = 100001%Z \/ st_i st = 500001%Z)).
  { destruct k as [|k].
    - (* the initial state passes the guard *)
      exfalso; injection Ek as <-.
      rewrite initial_guard in Gk.
      assert (Qle_bool threshold 1 = true) by (apply Qle_bool_iff, Hthr).
      congruence.
    - split; [lia|].
      rewrite iterate_snoc in Ek.
      apply bind_Ok_inv in Ek as (st0 & E0 & Ebody).
      pose proof (Hbefore k st0 (Nat.lt_succ_diag_r k) E0) as G0.
      destruct (iterate_from_initial_state _ _ _ E0) as (Hi0 & _ & Ht0 & _).
      destruct (loop_body_inv _ _ Ebody) as (_ & _ & Hcase).
      rewrite Hi0 in Hcase.
      assert (Ecount : (Z.of_nat k + 1)%Z = Z.of_nat (S k)) by lia.
      rewrite Ecount in Hcase.
      destruct Hcase as [(Hmod & _) | (Hmod & Hsame & _)].
      + left; rewrite Hi; exact Hmod.
      + right; rewrite Hi.
        (* between checkpoints only a change of threshold can end the loop *)
        destruct (Z.eq_dec (Z.of_nat (S k)) 100001) as [E1 | N1];
          [left; exact E1|].
        destruct (Z.eq_dec (Z.of_nat (S k)) 500001) as [E5 | N5];
          [right; exact E5|].
        exfalso.
        assert (Hstair : staircase_threshold threshold (Z.of_nat (S k))
                         = staircase_threshold threshold (Z.of_nat k)).
        { unfold staircase_threshold.
          destruct (Z.ltb_spec 500000 (Z.of_nat (S k))),
            (Z.ltb_spec 100000 (Z.of_nat (S k))),
            (Z.ltb_spec 500000 (Z.of_nat k)),
            (Z.ltb_spec 100000 (Z.of_nat k)); try reflexivity; lia. }
        unfold loop_guard in Gk, G0.
        rewrite Ht, Hstair, <- Ht0, Hsame in Gk; congruence. }
  exists k, st; repeat split; auto; try apply Hexit.
  destruct Hexit as (Hpos & [Hmod | [E1 | E5]]); rewrite Hi in *; try lia.
  destruct (Nat.lt_ge_cases k 50) as [Hlt | Hge]; [|exact Hge].
  rewrite Z.mod_small in Hmod by lia; lia.
Qed.

(** X4: calibration data the estimator cannot start from.  Without
    probe states it raises [IndexError] before the loop; with a
    frequencies array without columns the initial POVM is empty and
    the first execution of the body raises [IndexError]. *)
Theorem estimator_degenerate_calibration (threshold : Q) (fuel : nat) :
  (probe_states calibration_setup = [] ->
   get_maximum_likelihood_povm_estimator calibration_setup threshold fuel
   = Raised IndexError)
  /\ (probe_states calibration_setup <> [] ->
      ncols (frequencies_array calibration_setup) = 0 ->
      (threshold <= 1)%Q ->
      get_maximum_likelihood_povm_estimator calibration_setup threshold (S fuel)
      = Raised IndexError).
Proof.
  unfold get_maximum_likelihood_povm_estimator; split.
  - intros ->; reflexivity.
  - intros Hne Hm Hthr.
    destruct (probe_states calibration_setup) as [|first rest];
      [contradiction|].
    change (get (first :: rest) 0) with (Ok first); cbv iota.
    rewrite while_loop_continue
      by (rewrite initial_guard; apply Qle_bool_iff, Hthr).
    unfold loop_body, update_povm, initial_state, initial_povm,
      number_of_probe_states; simpl st_povm.
    rewrite Hm; reflexivity.
Qed.
End LoopFromStart.

Lemma threshold_in_force_by_count_witness :
  let st := {| st_i := 1; st_current_difference := 1;
               st_threshold := (1 # 1000000)%Q;
               st_povm := overshot_povm; st_last_step_povm := None |} in
  st_i st = Z.of_nat 1
  /\ length (st_povm st) = number_of_probe_states basis_probe_setup
  /\ st_threshold st = staircase_threshold (1 # 1000000)%Q (Z.of_nat 1)
  /\ (1 < 50 -> st_current_difference st = 1%Q).
Proof.
  intro st.
  apply (@threshold_in_force_by_count Qcanon.Qc _ _ _ basis_probe_setup
           (1 # 1000000)%Q 2 1 st).
  unfold iterate, loop_body, initial_state; simpl st_povm; simpl st_i.
  rewrite basis_probe_start, basis_probe_step_uniform; reflexivity.
Defined.

Lemma estimator_threshold_above_one_witness :
  get_maximum_likelihood_povm_estimator basis_probe_setup 2%Q 7
  = Returned (initial_povm basis_probe_setup 2).
Proof.
  apply (@estimator_threshold_above_one Qcanon.Qc _ _ _ basis_probe_setup 2%Q
           [[qc 1 1; qc 0 1]; [qc 0 1; qc 0 1]] 7).
  - reflexivity.
  - reflexivity.
Defined.

Lemma estimator_exit_points_witness :
  exists k st,
    50 <= k <= 50
    /\ iterate unbiased_setup k (initial_state unbiased_setup (1 # 1000000)%Q 2)
       = Ok st
    /\ uniform_povm = st_povm st
    /\ st_i st = Z.of_nat k
    /\ ((st_i st mod 50 = 0)%Z
        \/ st_i st = 100001%Z \/ st_i st = 500001%Z).
Proof.
  apply (@estimator_exit_points Qcanon.Qc _ _ _ unbiased_setup (1 # 1000000)%Q
           [[qc 1 1; qc 0 1]; [qc 0 1; qc 0 1]] 50 uniform_povm).
  - reflexivity.
  - discriminate.
  - exact unbiased_setup_returns.
Defined.

(** A setup without probe states, and one whose frequencies array
    has no column. *)
Lemma estimator_degenerate_calibration_witness :
  get_maximum_likelihood_povm_estimator
    {| qubits_number := 1; probe_states := [];
       frequencies_array := frequencies_array basis_probe_setup |}
    (1 # 1000000)%Q 3
  = Raised IndexError
  /\ get_maximum_likelihood_povm_estimator
       {| qubits_number := 1; probe_states := probe_states basis_probe_setup;
          frequencies_array := [[]; []] |}
       (1 # 1000000)%Q 3
     = Raised IndexError.
Proof.
  split.
  - apply (proj1 (@estimator_degenerate_calibration
                    Qcanon.Qc _ _ _
                    {| qubits_number := 1; probe_states := [];
                       frequencies_array := frequencies_array basis_probe_setup |}
                    (1 # 1000000)%Q 3)).
    reflexivity.
  - apply (proj2 (@estimator_degenerate_calibration
                    Qcanon.Qc _ _ _
                    {| qubits_number := 1;
                       probe_states := probe_states basis_probe_setup;
                       frequencies_array := [[]; []] |}
                    (1 # 1000000)%Q 2)).
    + simpl; discriminate.
    + reflexivity.
    + discriminate.
Defined.

(* ================================================================= *)
(** ** [sort_things] and the classical register *)

Lemma map_snd_combine {A B : Type} (X : list A) (Y : list B) :
  map snd (combine X Y) = firstn (length X) Y.
Proof.
  revert Y; induction X as [|x X IH]; intros [|y Y]; simpl; auto.
  f_equal; apply IH.
Qed.

Lemma map_fst_combine {A B : Type} (X : list A) (Y : list B) :
  map fst (combine X Y) = firstn (length Y) X.
Proof.
  revert Y; induction X as [|x X IH]; intros [|y Y]; simpl; auto.
  f_equal; apply IH.
Qed.

(** A stable sort leaves a sorted list alone. *)
Lemma sorted_by_sorted_id {A : Type} (before : A -> A -> bool) (l : list A) :
  Sorted (may_precede before) l -> sorted_by before l = l.
Proof.
  induction 1 as [|x l HS IH Hd]; simpl; [reflexivity|].
  rewrite IH; destruct Hd as [|y l Hxy]; simpl; [reflexivity|].
  unfold may_precede in Hxy; rewrite Hxy; reflexivity.
Qed.

Lemma Sorted_combine {A B : Type} (R : A -> A -> Prop) (X : list A) :
  Sorted R X ->
  forall Y : list B, Sorted (fun a b => R (fst a) (fst b)) (combine X Y).
Proof.
  induction 1 as [|x X HS IH Hd]; intros [|y Y]; simpl; try constructor.
  - apply IH.
  - destruct Hd as [|x' X Hxx']; destruct Y as [|y' Y]; simpl; constructor.
    exact Hxx'.
Qed.

Section SortThings.
Context {A K : Type} `{PyLt K}.

Lemma sort_things_perm (stuff_to_sort : list A)
        (according_to_what : list K) :
  Permutation (sort_things stuff_to_sort according_to_what)
              (firstn (length according_to_what) stuff_to_sort)
  /\ length (sort_things stuff_to_sort according_to_what)
     = Nat.min (length according_to_what) (length stuff_to_sort).
Proof.
  assert (HP : Permutation (sort_things stuff_to_sort according_to_what)
                           (firstn (length according_to_what) stuff_to_sort)).
  { unfold sort_things, sorted_key; rewrite <- map_snd_combine.
    apply Permutation_map, sorted_by_perm. }
  split; [exact HP|].
  rewrite (Permutation_length HP), length_firstn; reflexivity.
Qed.

(** X5: [sort_things] returns a rearrangement of the things that
    have a key: the result is a permutation of the first
    [len(according_to_what)] entries of [stuff_to_sort], so nothing
    is invented or duplicated and entries beyond the keys are
    dropped. *)
Theorem sort_things_rearranges (stuff_to_sort : list A)
        (according_to_what : list K) :
  Permutation (sort_things stuff_to_sort according_to_what)
              (firstn (length according_to_what) stuff_to_sort)
  /\ length (sort_things stuff_to_sort according_to_what)
     = Nat.min (length according_to_what) (length stuff_to_sort).
Proof. exact (sort_things_perm stuff_to_sort according_to_what). Qed.

Lemma sort_things_id (stuff_to_sort : list A)
        (according_to_what : list K) :
  Sorted (fun a b => pylt b a = false) according_to_what ->
  length stuff_to_sort = length according_to_what ->
  sort_things stuff_to_sort according_to_what = stuff_to_sort.
Proof.
  intros HS Hlen; unfold sort_things, sorted_key.
  rewrite sorted_by_sorted_id.
  - rewrite map_snd_combine, <- Hlen; apply firstn_all.
  - apply (Sorted_combine HS).
Qed.

(** X6: keys that are already in non-decreasing order leave the
    things in place. *)
Theorem sort_things_sorted_keys (stuff_to_sort : list A)
        (according_to_what : list K) :
  Sorted (fun a b => pylt b a = false) according_to_what ->
  length stuff_to_sort = length according_to_what ->
  sort_things stuff_to_sort according_to_what = stuff_to_sort.
Proof. exact (@sort_things_id stuff_to_sort according_to_what). Qed.
End SortThings.

Lemma sort_things_sorted_keys_witness :
  sort_things [10; 20; 30]%Z [1; 1; 4]%Z = [10; 20; 30]%Z.
Proof.
  apply (@sort_things_sorted_keys Z Z _).
  - repeat constructor.
  - reflexivity.
Defined.

(* ================================================================= *)
(** ** Labels in lexicographic order *)

Lemma fold_value_acc (s : list ascii) (acc : nat) :
  fold_left (fun a c => 2 * a + bit_value c) s acc
  = acc * 2 ^ length s + value s.
Proof.
  unfold value; revert acc; induction s as [|c s IH]; intro acc;
    cbn [fold_left length].
  - simpl; lia.
  - rewrite IH, (IH (2 * 0 + bit_value c)), Nat.pow_succ_r'; nia.
Qed.

Lemma value_cons (c : ascii) (s : list ascii) :
  value (c :: s) = bit_value c * 2 ^ length s + value s.
Proof.
  unfold value at 1; cbn [fold_left]; rewrite fold_value_acc.
  rewrite Nat.mul_0_r, Nat.add_0_l; reflexivity.
Qed.

(** On strings of binary digits of one length, Python's order on
    strings is the order of the numbers they denote. *)
Lemma str_ltb_value (s : list ascii) :
  forall t, Forall is_bit s -> Forall is_bit t -> length s = length t ->
            (str_ltb s t = true <-> value s < value t).
Proof.
  induction s as [|c s IH]; intros [|d t] Hs Ht Hl; simpl in Hl;
    try discriminate.
  - simpl; unfold value; simpl; split; [discriminate | lia].
  - inversion Hs as [|? ? Hc Hs']; inversion Ht as [|? ? Hd Ht']; subst.
    injection Hl as Hl.
    rewrite !value_cons, <- Hl.
    pose proof (value_lt s) as Bs; pose proof (value_lt t) as Bt.
    rewrite <- Hl in Bt.
    specialize (IH t Hs' Ht' Hl).
    destruct Hc as [-> | ->], Hd as [-> | ->]; cbn [str_ltb];
      unfold bit_value; simpl Ascii.ltb; simpl Ascii.eqb; cbv iota.
    + rewrite IH; lia.
    + split; [intros _; nia | reflexivity].
    + split; [discriminate | nia].
    + rewrite IH; lia.
Qed.

Lemma Sorted_map_seq {B : Type} (R : B -> B -> Prop) (f : nat -> B) (n : nat) :
  forall a, (forall i, a <= i -> S i < a + n -> R (f i) (f (S i))) ->
            Sorted R (map f (seq a n)).
Proof.
  induction n as [|n IH]; intros a HR; simpl; constructor.
  - apply IH; intros i Hi Hb; apply HR; lia.
  - destruct n as [|n]; simpl; constructor.
    apply HR; lia.
Qed.

Lemma standard_register_sorted (n : nat) :
  1 <= n ->
  Sorted (fun a b : list ascii => pylt b a = false) (standard_register n).
Proof.
  intro Hn; unfold standard_register.
  apply Sorted_map_seq; intros i _ Hi; simpl in Hi.
  unfold pylt, PyLt_str.
  destruct (str_ltb (zfill n (bin (S i))) (zfill n (bin i))) eqn:E;
    [|reflexivity].
  apply str_ltb_value in E.
  - rewrite !value_zfill_bin in E; lia.
  - apply bits_zfill_bin.
  - apply bits_zfill_bin.
  - rewrite !length_zfill_bin by lia; reflexivity.
Qed.

Lemma reorder_classical_register_id (new_order : list Z) :
  new_order <> [] ->
  Sorted (fun a b => (a <= b)%Z) new_order ->
  reorder_classical_register new_order
  = standard_register (length new_order).
Proof.
  intros Hne HS; unfold reorder_classical_register.
  assert (Hn : 1 <= length new_order)
    by (destruct new_order; [contradiction | simpl; lia]).
  rewrite <- (map_id (standard_register (length new_order))) at 2.
  apply map_ext_in; intros s Hs.
  unfold standard_register in Hs; apply in_map_iff in Hs as (x & <- & Hx).
  apply in_seq in Hx.
  unfold sort_bitstring; apply sort_things_id.
  - eapply Sorted_impl; [| exact HS].
    intros a b Hab; unfold pylt, PyLt_Z; apply Z.ltb_ge; exact Hab.
  - apply length_zfill_bin; [exact Hn | lia].
Qed.

(** X7: a qubit order that is already non-decreasing -- the identity
    order in particular -- leaves the classical register as it is. *)
Theorem reorder_classical_register_sorted_order (new_order : list Z) :
  new_order <> [] ->
  Sorted (fun a b => (a <= b)%Z) new_order ->
  reorder_classical_register new_order
  = standard_register (length new_order).
Proof. exact (@reorder_classical_register_id new_order). Qed.

Lemma reorder_classical_register_sorted_order_witness :
  reorder_classical_register [0; 1; 2]%Z = standard_register 3.
Proof.
  apply reorder_classical_register_sorted_order.
  - discriminate.
  - repeat constructor; discriminate.
Defined.

Lemma reorder_classical_register_length (new_order : list Z) :
  length (reorder_classical_register new_order) = 2 ^ length new_order.
Proof.
  unfold reorder_classical_register; rewrite length_map.
  apply standard_register_length.
Qed.

(** X8: [reorder_probabilities] rearranges a vector with one entry
    per register label, so the total probability is kept. *)
Theorem reorder_probabilities_rearranges (probabilities : list Q)
        (new_order : list Z) :
  length probabilities = 2 ^ length new_order ->
  Permutation (reorder_probabilities probabilities new_order) probabilities
  /\ (qsum (reorder_probabilities probabilities new_order)
      == qsum probabilities)%Q.
Proof.
  intro Hlen; unfold reorder_probabilities.
  assert (HP : Permutation
                 (sort_things probabilities
                              (reorder_classical_register new_order))
                 probabilities).
  { eapply perm_trans; [apply sort_things_perm|].
    rewrite reorder_classical_register_length, <- Hlen, firstn_all.
    apply Permutation_refl. }
  split; [exact HP | apply qsum_perm, HP].
Qed.

Lemma reorder_probabilities_rearranges_witness :
  Permutation (reorder_probabilities [1 # 2; 1 # 4; 1 # 8; 1 # 8]%Q [1; 0]%Z)
              [1 # 2; 1 # 4; 1 # 8; 1 # 8]%Q
  /\ (qsum (reorder_probabilities [1 # 2; 1 # 4; 1 # 8; 1 # 8]%Q [1; 0]%Z)
      == qsum [1 # 2; 1 # 4; 1 # 8; 1 # 8]%Q)%Q.
Proof.
  apply reorder_probabilities_rearranges; reflexivity.
Defined.

(** X9: with a non-decreasing qubit order [reorder_probabilities]
    returns the vector it was given. *)
Theorem reorder_probabilities_sorted_order (probabilities : list Q)
        (new_order : list Z) :
  new_order <> [] ->
  Sorted (fun a b => (a <= b)%Z) new_order ->
  length probabilities = 2 ^ length new_order ->
  reorder_probabilities probabilities new_order = probabilities.
Proof.
  intros Hne HS Hlen; unfold reorder_probabilities.
  rewrite reorder_classical_register_id by assumption.
  apply sort_things_id.
  - apply standard_register_sorted.
    destruct new_order; [contradiction | simpl; lia].
  - rewrite standard_register_length; exact Hlen.
Qed.

Lemma reorder_probabilities_sorted_order_witness :
  reorder_probabilities [1 # 2; 1 # 4; 1 # 8; 1 # 8]%Q [0; 1]%Z
  = [1 # 2; 1 # 4; 1 # 8; 1 # 8]%Q.
Proof.
  apply reorder_probabilities_sorted_order.
  - discriminate.
  - repeat constructor; discriminate.
  - reflexivity.
Defined.

(* ================================================================= *)
(** ** More on [qubit_swap] and [permute_matrix] *)

Lemma mapM_ext_in {A B : Type} (f g : A -> result B) (l : list A) :
  (forall x, In x l -> f x = g x) -> mapM f l = mapM g l.
Proof.
  induction l as [|x l IH]; intro E; simpl; [reflexivity|].
  rewrite (E x (or_introl eq_refl)), IH; [reflexivity|].
  intros y Hy; apply E; right; exact Hy.
Qed.

Lemma py_index_inv (len : nat) (i : Z) (p : nat) :
  py_index len i = Ok p -> p < len.
Proof.
  unfold py_index.
  destruct ((0 <=? i)%Z && (i <? Z.of_nat len)%Z) eqn:E1.
  - apply andb_true_iff in E1 as [L1 L2].
    apply Z.leb_le in L1; apply Z.ltb_lt in L2.
    intro E; injection E as <-; lia.
  - destruct ((- Z.of_nat len <=? i)%Z && (i <? 0)%Z) eqn:E2; [|discriminate].
    apply andb_true_iff in E2 as [L1 L2].
    apply Z.leb_le in L1; apply Z.ltb_lt in L2.
    intro E; injection E as <-; lia.
Qed.

Lemma py_index_raises (len : nat) (i : Z) (e : exn) :
  py_index len i = Raise e -> e = IndexError.
Proof.
  unfold py_index.
  destruct ((0 <=? i)%Z && (i <? Z.of_nat len)%Z); [discriminate|].
  destruct ((- Z.of_nat len <=? i)%Z && (i <? 0)%Z); [discriminate|].
  intro E; injection E as <-; reflexivity.
Qed.

Lemma exchange_comm (p q : nat) (s : list ascii) :
  p < length s -> q < length s -> exchange p q s = exchange q p s.
Proof.
  intros Hp Hq.
  apply nth_ext with (d := "0"%char) (d' := "0"%char).
  - rewrite !exchange_length; reflexivity.
  - intros k _; rewrite !exchange_nth by assumption.
    repeat match goal with
           | |- context [Nat.eqb ?a ?b] => destruct (Nat.eqb_spec a b)
           end; subst; congruence.
Qed.

Lemma swap_chars_comm (i j : Z) (s : list ascii) :
  swap_chars i j s = swap_chars j i s.
Proof.
  unfold swap_chars.
  destruct (py_index (length s) i) as [p|e] eqn:Ei;
    destruct (py_index (length s) j) as [q|e'] eqn:Ej; cbn [bind].
  - f_equal; apply (exchange_comm s (py_index_inv _ _ Ei) (py_index_inv _ _ Ej)).
  - reflexivity.
  - reflexivity.
  - rewrite (py_index_raises _ _ Ei), (py_index_raises _ _ Ej); reflexivity.
Qed.

Lemma standard_register_head (n : nat) :
  exists rest, standard_register n = zfill n (bin 0) :: rest.
Proof.
  unfold standard_register.
  destruct (2 ^ n) as [|D] eqn:E; [pose proof (Nat.pow_nonzero 2 n); lia|].
  simpl; eexists; reflexivity.
Qed.

Section SwapEdges.
Context {C : Type} `{Scalar C}.

Lemma qubit_swap_comm (n : nat) (a b : Z) (M : matrix C) :
  qubit_swap (C := C) n (a, b) = qubit_swap n (b, a)
  /\ permute_matrix M n (a, b) = permute_matrix M n (b, a).
Proof.
  assert (E : qubit_swap (C := C) n (a, b) = qubit_swap n (b, a)).
  { unfold qubit_swap; simpl fst; simpl snd.
    rewrite (mapM_ext_in (swap_chars (a - 1) (b - 1))
                         (swap_chars (b - 1) (a - 1)));
      [reflexivity|].
    intros s _; apply swap_chars_comm. }
  split; [exact E|].
  unfold permute_matrix; rewrite E; reflexivity.
Qed.

(** X10: the order of the two positions of a transposition is
    immaterial, for [qubit_swap] and for [permute_matrix], whatever
    the positions are. *)
Theorem qubit_swap_symmetric (n : nat) (a b : Z) (M : matrix C) :
  qubit_swap (C := C) n (a, b) = qubit_swap n (b, a)
  /\ permute_matrix M n (a, b) = permute_matrix M n (b, a).
Proof. exact (qubit_swap_comm n a b M). Qed.

(** X11: a position outside the register -- above [n], or below
    [1 - n] -- makes [qubit_swap] raise [IndexError], in either
    place of the transposition. *)
Theorem qubit_swap_position_out_of_range (n : nat) (a b : Z) :
  1 <= n ->
  (a < 1 - Z.of_nat n \/ Z.of_nat n < a)%Z ->
  qubit_swap (C := C) n (a, b) = Raise IndexError
  /\ qubit_swap (C := C) n (b, a) = Raise IndexError.
Proof.
  intros Hn Ha.
  assert (E : qubit_swap (C := C) n (a, b) = Raise IndexError).
  { unfold qubit_swap; simpl fst; simpl snd.
    destruct (standard_register_head n) as (rest & ->).
    cbn [mapM]; unfold swap_chars at 1.
    rewrite length_zfill_bin by (auto; pose proof (pow2_pos n); lia).
    assert (Ei : py_index n (a - 1) = Raise IndexError).
    { unfold py_index.
      destruct (Z.leb_spec 0 (a - 1)), (Z.ltb_spec (a - 1) (Z.of_nat n)),
        (Z.leb_spec (- Z.of_nat n) (a - 1)), (Z.ltb_spec (a - 1) 0);
        simpl; try reflexivity; lia. }
    destruct (py_index n (b - 1)) as [q|e] eqn:Ej; cbn [bind].
    - rewrite Ei; reflexivity.
    - rewrite (py_index_raises _ _ Ej); reflexivity. }
  split; [exact E|].
  rewrite <- E; symmetry; apply (@qubit_swap_comm n a b []).
Qed.

(** X12: positions are Python indices after the shift by one, so a
    position between [1 - n] and [0] is accepted and counts from the
    end: position [0] is the last qubit. *)
Theorem qubit_swap_position_wraps (n : nat) (a b : Z) :
  1 <= n ->
  (1 - Z.of_nat n <= a <= 0)%Z ->
  qubit_swap (C := C) n (a, b) = qubit_swap n (a + Z.of_nat n, b)%Z.
Proof.
  intros Hn Ha; unfold qubit_swap; simpl fst; simpl snd.
  rewrite (mapM_ext_in (swap_chars (a - 1) (b - 1))
                       (swap_chars (a + Z.of_nat n - 1) (b - 1)));
    [reflexivity|].
  intros s Hs.
  unfold standard_register in Hs; apply in_map_iff in Hs as (x & <- & Hx).
  apply in_seq in Hx.
  unfold swap_chars; rewrite length_zfill_bin by (auto; lia).
  assert (E : py_index n (a - 1) = py_index n (a + Z.of_nat n - 1)).
  { unfold py_index.
    destruct (Z.leb_spec 0 (a - 1)), (Z.ltb_spec (a - 1) (Z.of_nat n)),
      (Z.leb_spec (- Z.of_nat n) (a - 1)), (Z.ltb_spec (a - 1) 0),
      (Z.leb_spec 0 (a + Z.of_nat n - 1)),
      (Z.ltb_spec (a + Z.of_nat n - 1) (Z.of_nat n));
      simpl; try lia.
    f_equal; lia. }
  rewrite E; reflexivity.
Qed.
End SwapEdges.

Lemma qubit_swap_position_out_of_range_witness :
  qubit_swap (C := Z) 2 (3, 1)%Z = Raise IndexError
  /\ qubit_swap (C := Z) 2 (1, 3)%Z = Raise IndexError.
Proof.
  apply (@qubit_swap_position_out_of_range Z _ 2 3%Z 1%Z); lia.
Defined.

Lemma qubit_swap_position_wraps_witness :
  qubit_swap (C := Z) 3 (0, 1)%Z = qubit_swap 3 (0 + Z.of_nat 3, 1)%Z.
Proof.
  apply (@qubit_swap_position_wraps Z _ 3 0%Z 1%Z); simpl; lia.
Defined.

(* ================================================================= *)
(** ** Relabelling qubits and the algebra of operators *)

Section Relabelling.
Context {C : Type} `{ScalarRing C}.

Add Ring scalar_ring_relabel : scalar_ring.

Lemma csum_perm (l1 l2 : list C) : Permutation l1 l2 -> csum l1 = csum l2.
Proof.
  induction 1 as [| x l l' _ IH | x y l | l l' l'' _ IH1 _ IH2].
  - reflexivity.
  - rewrite !csum_cons, IH; reflexivity.
  - rewrite !csum_cons; ring.
  - rewrite IH1; exact IH2.
Qed.

Lemma entry_matmul (r D : nat) (A B : matrix C) (i j : nat) :
  has_shape r D A -> length B = D -> i < r -> j < ncols B ->
  entry (matmul A B) i j
  = csum (map (fun k => cmul (entry A i k) (entry B k j)) (seq 0 D)).
Proof.
  intros HA HB Hi Hj.
  rewrite (matrix_eta HA) at 1.
  rewrite matmul_mk by exact HB.
  rewrite entry_mk by assumption; reflexivity.
Qed.

Lemma relabelled_indices (D : nat) (sigma : nat -> nat) :
  (forall x, x < D -> sigma x < D) ->
  (forall x, x < D -> sigma (sigma x) = x) ->
  Permutation (map sigma (seq 0 D)) (seq 0 D).
Proof.
  intros Hlt Hinv; apply NoDup_Permutation_bis.
  - apply NoDup_map_NoDup_ForallPairs; [| apply seq_NoDup].
    intros x y Hx Hy E; apply in_seq in Hx, Hy.
    rewrite <- (Hinv x), <- (Hinv y), E by lia; reflexivity.
  - rewrite length_map; apply Nat.le_refl.
  - intros y Hy; apply in_map_iff in Hy as (x & <- & Hx).
    apply in_seq in Hx; apply in_seq; specialize (Hlt x); lia.
Qed.

Ltac entrywise :=
  repeat match goal with
         | |- Ok _ = Ok _ => apply f_equal
         | |- _ :: _ = _ :: _ => apply f_equal2
         | |- [] = [] => reflexivity
         end.

(** X13: on two qubits, exchanging the positions exchanges the
    factors of a tensor product of single-qubit operators. *)
Theorem permute_matrix_swaps_factors (A B : matrix C) :
  has_shape 2 2 A -> has_shape 2 2 B ->
  permute_matrix (kron A B) 2 (1, 2)%Z = Ok (kron B A).
Proof.
  intros HA HB.
  apply has_shape_2_2 in HA as (a11 & a12 & a21 & a22 & ->).
  apply has_shape_2_2 in HB as (b11 & b12 & b21 & b22 & ->).
  cbv - [cadd cmul c0 c1]; entrywise; ring.
Qed.

(** X14: for a valid transposition, [permute_matrix] respects the
    algebra of [2^n x 2^n] operators: it sends the identity to the
    identity and a product to the product of the relabelled
    factors. *)
Theorem permute_matrix_homomorphism (n : nat) (a b : Z) (A B : matrix C) :
  1 <= n ->
  (1 <= a <= Z.of_nat n)%Z -> (1 <= b <= Z.of_nat n)%Z ->
  has_shape (2 ^ n) (2 ^ n) A -> has_shape (2 ^ n) (2 ^ n) B ->
  permute_matrix (eye (2 ^ n)) n (a, b) = Ok (eye (2 ^ n))
  /\ permute_matrix (matmul A B) n (a, b)
     = (A' <- permute_matrix A n (a, b) ;;
        B' <- permute_matrix B n (a, b) ;;
        Ok (matmul A' B')).
Proof.
  intros Hn Ha Hb HA HB.
  set (D := 2 ^ n) in *.
  set (sigma := bit_swap n (Z.to_nat (a - 1)) (Z.to_nat (b - 1))).
  assert (HD : 1 <= D) by apply pow2_pos.
  assert (Hlt : forall x, x < D -> sigma x < D)
    by (intros x Hx; apply bit_swap_lt; auto; lia).
  assert (Hinv : forall x, x < D -> sigma (sigma x) = x)
    by (intros x Hx; apply bit_swap_involutive; auto; lia).
  split.
  - rewrite permute_matrix_spec by (auto; apply mk_matrix_shape).
    f_equal; apply mk_matrix_ext; intros i j Hi Hj; fold sigma.
    unfold eye; rewrite entry_mk by auto.
    destruct (Nat.eqb_spec (sigma i) (sigma j)) as [E | N],
             (Nat.eqb_spec i j) as [E' | N']; try reflexivity; exfalso.
    + apply N'; rewrite <- (Hinv i), <- (Hinv j), E by assumption.
      reflexivity.
    + apply N; rewrite E'; reflexivity.
  - assert (HAB : has_shape D D (matmul A B))
      by (apply matmul_shape with (k := D); assumption).
    rewrite !permute_matrix_spec by assumption; cbn [bind]; fold sigma D.
    f_equal.
    rewrite matmul_mk by apply mk_matrix_length.
    rewrite mk_matrix_ncols by exact HD.
    apply mk_matrix_ext; intros i j Hi Hj.
    rewrite (@entry_matmul D D A B) by
        (try assumption; try apply HB; auto;
         rewrite (has_shape_ncols HD HB); auto).
    rewrite <- (csum_perm
                  (Permutation_map
                     (fun k => cmul (entry A (sigma i) k)
                                    (entry B k (sigma j)))
                     (@relabelled_indices D sigma Hlt Hinv))).
    rewrite map_map; f_equal.
    apply map_ext_in; intros k Hk; apply in_seq in Hk.
    rewrite entry_mk by (auto; lia); reflexivity.
Qed.
End Relabelling.

Lemma permute_matrix_swaps_factors_witness :
  permute_matrix (kron [[1; 2]; [3; 4]] [[5; 6]; [7; 8]])%Z 2 (1, 2)%Z
  = Ok (kron [[5; 6]; [7; 8]] [[1; 2]; [3; 4]])%Z.
Proof.
  apply (@permute_matrix_swaps_factors Z _ _);
    (split; [reflexivity | repeat constructor]).
Defined.

Lemma permute_matrix_homomorphism_witness :
  permute_matrix (eye (C := Z) (2 ^ 2)) 2 (1, 2)%Z = Ok (eye (2 ^ 2))
  /\ permute_matrix
       (matmul [[1; 2; 3; 4]; [5; 6; 7; 8]; [9; 10; 11; 12]; [13; 14; 15; 16]]
               [[2; 0; 1; 3]; [0; 1; 4; 0]; [5; 0; 0; 1]; [1; 7; 0; 2]])%Z
       2 (1, 2)%Z
     = (A' <- permute_matrix
                [[1; 2; 3; 4]; [5; 6; 7; 8]; [9; 10; 11; 12]; [13; 14; 15; 16]]%Z
                2 (1, 2)%Z ;;
        B' <- permute_matrix
                [[2; 0; 1; 3]; [0; 1; 4; 0]; [5; 0; 0; 1]; [1; 7; 0; 2]]%Z
                2 (1, 2)%Z ;;
        Ok (matmul A' B')).
Proof.
  apply (@permute_matrix_homomorphism Z _ _ 2 1%Z 2%Z); try (simpl; lia);
    (split; [reflexivity | repeat constructor]).
Defined.

(* ================================================================= *)
(** ** [is_valid_probability_vector] *)

Lemma accumulate_nonnegative_spec (v : list Q) :
  forall acc,
    (Forall (fun x => (0 <= x)%Q) v ->
     accumulate_nonnegative v acc = Some (fold_left Qplus v acc))
    /\ (~ Forall (fun x => (0 <= x)%Q) v ->
        accumulate_nonnegative v acc = None).
Proof.
  induction v as [|x v IH]; intro acc; simpl.
  - split; [reflexivity | intro N; exfalso; apply N; constructor].
  - destruct (Qltb x 0) eqn:E.
    + apply Qltb_true in E; split.
      * intro Hall; inversion Hall; subst; lra.
      * reflexivity.
    + apply Qltb_false in E; split.
      * intro Hall; inversion Hall; subst; apply IH; assumption.
      * intro N; apply IH; intro Hall; apply N; constructor; assumption.
Qed.

Lemma accumulate_nonnegative_some (v : list Q) :
  forall acc s,
    accumulate_nonnegative v acc = Some s -> Forall (fun x => (0 <= x)%Q) v.
Proof.
  induction v as [|x v IH]; intros acc s Es; [constructor|].
  simpl in Es; destruct (Qltb x 0) eqn:Ex; [discriminate|].
  apply Qltb_false in Ex; constructor; [exact Ex | eapply IH, Es].
Qed.

(** X15: [is_valid_probability_vector] answers [True] exactly when no
    entry is negative and the sum of the entries differs from one by
    less than the threshold. *)
Theorem is_valid_probability_vector_spec (examined_vector : list Q)
        (threshold : Q) :
  is_valid_probability_vector examined_vector threshold = true
  <-> (nonneg_vector examined_vector
       /\ (Qabs (qsum examined_vector - 1) < threshold)%Q).
Proof.
  unfold is_valid_probability_vector, nonneg_vector.
  destruct (accumulate_nonnegative_spec examined_vector 0%Q) as [Hyes Hno].
  split.
  - intro E.
    destruct (accumulate_nonnegative examined_vector 0) as [s|] eqn:Es;
      [|discriminate].
    assert (Hall : Forall (fun x => (0 <= x)%Q) examined_vector)
      by (eapply accumulate_nonnegative_some, Es).
    split; [exact Hall|].
    assert (Es' : s = qsum examined_vector)
      by (specialize (Hyes Hall); unfold qsum; congruence).
    subst s; apply Qltb_true in E; exact E.
  - intros [Hall Hsum].
    rewrite (Hyes Hall); apply Qltb_true; exact Hsum.
Qed.

(* ================================================================= *)
(** ** [calculate_total_variation_distance] *)

Lemma np_subtract_same_length (p q : list Q) :
  length p = length q ->
  np_subtract p q = Ok (map (fun xy => (fst xy - snd xy)%Q) (combine p q)).
Proof.
  intro Hl; unfold np_subtract; rewrite Hl, Nat.eqb_refl; reflexivity.
Qed.

Lemma total_variation_same_length (p q : list Q) :
  length p = length q ->
  calculate_total_variation_distance p q = Ok (half_l1_distance p q).
Proof.
  intro Hl; unfold calculate_total_variation_distance.
  rewrite np_subtract_same_length by exact Hl; reflexivity.
Qed.

Lemma norm1_cons (x : Q) (l : list Q) : (norm1 (x :: l) == Qabs x + norm1 l)%Q.
Proof. unfold norm1; simpl map; apply qsum_cons. Qed.

Lemma norm1_nil : (norm1 [] == 0)%Q.
Proof. reflexivity. Qed.

Lemma half_l1_cons (x y : Q) (p q : list Q) :
  (half_l1_distance (x :: p) (y :: q)
   == Qabs (x - y) * (1 # 2) + half_l1_distance p q)%Q.
Proof.
  unfold half_l1_distance; simpl combine; simpl map.
  rewrite norm1_cons; simpl fst; simpl snd; field.
Qed.

Lemma half_l1_nil_l (q : list Q) : (half_l1_distance [] q == 0)%Q.
Proof. reflexivity. Qed.

Lemma half_l1_nil_r (p : list Q) : (half_l1_distance p [] == 0)%Q.
Proof. destruct p; reflexivity. Qed.

Lemma Qabs_sub_sym (x y : Q) : (Qabs (x - y) == Qabs (y - x))%Q.
Proof.
  apply Qabs_case; intro H1; apply Qabs_case; intro H2; lra.
Qed.

Lemma Qabs_sub_triangle (x y z : Q) :
  (Qabs (x - z) <= Qabs (x - y) + Qabs (y - z))%Q.
Proof.
  apply Qabs_case; intro H1; apply Qabs_case; intro H2;
    apply Qabs_case; intro H3; lra.
Qed.

(** X16: on vectors of one length the total-variation distance is
    returned without error and is a distance: non-negative, zero
    from a vector to itself, symmetric, and subject to the triangle
    inequality. *)
Theorem total_variation_is_a_distance (p q r : list Q) :
  length p = length q -> length q = length r ->
  calculate_total_variation_distance p q = Ok (half_l1_distance p q)
  /\ (0 <= half_l1_distance p q)%Q
  /\ (half_l1_distance p p == 0)%Q
  /\ (half_l1_distance p q == half_l1_distance q p)%Q
  /\ (half_l1_distance p r <= half_l1_distance p q + half_l1_distance q r)%Q.
Proof.
  intros Hpq Hqr.
  split; [apply total_variation_same_length, Hpq|].
  split; [| split; [| split]].
  - clear Hqr r; revert q Hpq; induction p as [|x p IH]; intros [|y q] Hl;
      simpl in Hl; try lia.
    + rewrite half_l1_nil_l; lra.
    + rewrite half_l1_cons.
      pose proof (Qabs_nonneg (x - y)).
      assert (Hl' : length p = length q) by lia.
      specialize (IH q Hl').
      set (u := Qabs (x - y)) in *; set (w := half_l1_distance p q) in *.
      clearbody u w; lra.
  - clear; induction p as [|x p IH]; [reflexivity|].
    rewrite half_l1_cons, IH.
    assert (E : (x - x == 0)%Q) by ring.
    rewrite E; reflexivity.
  - clear Hqr r; revert q Hpq; induction p as [|x p IH]; intros [|y q] Hl;
      simpl in Hl; try lia.
    + reflexivity.
    + assert (Hl' : length p = length q) by lia.
      rewrite !half_l1_cons, (Qabs_sub_sym x y), (IH q Hl'); reflexivity.
  - revert q r Hpq Hqr; induction p as [|x p IH]; intros [|y q] [|z r] Hpq Hqr;
      simpl in Hpq, Hqr; try lia.
    + rewrite !half_l1_nil_l; lra.
    + rewrite !half_l1_cons.
      pose proof (Qabs_sub_triangle x y z).
      assert (Hpq' : length p = length q) by lia.
      assert (Hqr' : length q = length r) by lia.
      specialize (IH q r Hpq' Hqr').
      generalize dependent (Qabs (x - z)); generalize dependent (Qabs (x - y));
        generalize dependent (Qabs (y - z)).
      generalize dependent (half_l1_distance p r);
        generalize dependent (half_l1_distance p q);
        generalize dependent (half_l1_distance q r).
      intros; lra.
Qed.

Lemma total_variation_is_a_distance_witness :
  calculate_total_variation_distance [1 # 2; 1 # 2]%Q [1; 0]%Q
  = Ok (half_l1_distance [1 # 2; 1 # 2]%Q [1; 0]%Q)
  /\ (0 <= half_l1_distance [1 # 2; 1 # 2]%Q [1; 0]%Q)%Q
  /\ (half_l1_distance [1 # 2; 1 # 2]%Q [1 # 2; 1 # 2]%Q == 0)%Q
  /\ (half_l1_distance [1 # 2; 1 # 2]%Q [1; 0]%Q
      == half_l1_distance [1; 0]%Q [1 # 2; 1 # 2]%Q)%Q
  /\ (half_l1_distance [1 # 2; 1 # 2]%Q [0; 1]%Q
      <= half_l1_distance [1 # 2; 1 # 2]%Q [1; 0]%Q
         + half_l1_distance [1; 0]%Q [0; 1]%Q)%Q.
Proof.
  apply total_variation_is_a_distance; reflexivity.
Defined.

(** X17: between two probability vectors of one length the
    total-variation distance is at most one. *)
Theorem total_variation_at_most_one (p q : list Q) :
  length p = length q ->
  nonneg_vector p -> nonneg_vector q ->
  (qsum p == 1)%Q -> (qsum q == 1)%Q ->
  calculate_total_variation_distance p q = Ok (half_l1_distance p q)
  /\ (half_l1_distance p q <= 1)%Q.
Proof.
  intros Hl Hp Hq Sp Sq.
  split; [apply total_variation_same_length, Hl|].
  assert (Hbound : (half_l1_distance p q <= (qsum p + qsum q) * (1 # 2))%Q).
  { clear Sp Sq; revert q Hl Hq.
    induction Hp as [|x p Hx Hp IH]; intros [|y q] Hl Hq; simpl in Hl;
      try lia.
    - rewrite half_l1_nil_l; unfold qsum; simpl; lra.
    - inversion Hq as [|? ? Hy Hq']; subst.
      rewrite half_l1_cons, !qsum_cons.
      assert (Hl' : length p = length q) by lia.
      specialize (IH q Hl' Hq').
      assert (Qabs (x - y) <= x + y)%Q
        by (apply Qabs_case; intro; lra).
      lra. }
  rewrite Sp, Sq in Hbound; lra.
Qed.

Lemma total_variation_at_most_one_witness :
  calculate_total_variation_distance [1; 0]%Q [0; 1]%Q
  = Ok (half_l1_distance [1; 0]%Q [0; 1]%Q)
  /\ (half_l1_distance [1; 0]%Q [0; 1]%Q <= 1)%Q.
Proof.
  apply total_variation_at_most_one;
    try reflexivity; repeat constructor; discriminate.
Defined.

(** X18: vectors of different lengths, neither of length one, make
    the subtraction -- and so the distance -- raise [ValueError]. *)
Theorem total_variation_length_mismatch (p q : list Q) :
  length p <> length q -> length p <> 1 -> length q <> 1 ->
  calculate_total_variation_distance p q = Raise ValueError.
Proof.
  intros Hne Hp Hq; unfold calculate_total_variation_distance, np_subtract.
  destruct (Nat.eqb_spec (length p) (length q)); [contradiction|].
  destruct p as [|x [|x' p]], q as [|y [|y' q]]; simpl in *;
    try reflexivity; lia.
Qed.

Lemma total_variation_length_mismatch_witness :
  calculate_total_variation_distance [1 # 2; 1 # 2]%Q [1 # 3; 1 # 3; 1 # 3]%Q
  = Raise ValueError.
Proof.
  apply total_variation_length_mismatch; simpl; lia.
Defined.

(* ================================================================= *)
(** ** [find_closest_prob_vector] is the Euclidean projection *)

Lemma Qdiv_mul_cancel (a q : Q) : (0 < q)%Q -> (a / q * q == a)%Q.
Proof. intro Hq; field; lra. Qed.

Lemma shifted_sign_le (x a q : Q) :
  (0 < q)%Q -> ((x * q + a <= 0)%Q <-> (x + a / q <= 0)%Q).
Proof.
  intro Hq.
  assert (E : ((x + a / q) * q == x * q + a)%Q) by (field; lra).
  pose proof (Qmult_le_r (x + a / q) 0 q Hq) as Hm.
  rewrite Qmult_0_l, E in Hm; exact Hm.
Qed.

Lemma shifted_sign_lt (x a q : Q) :
  (0 < q)%Q -> ((x + a / q < 0)%Q -> (x * q + a < 0)%Q).
Proof.
  intros Hq Hlt.
  assert (E : ((x + a / q) * q == x * q + a)%Q) by (field; lra).
  pose proof (Qmult_lt_r (x + a / q) 0 q Hq) as Hm.
  rewrite Qmult_0_l, E in Hm; apply Hm; exact Hlt.
Qed.

Lemma inject_nat_nonneg (n : nat) : (0 <= inject_Z (Z.of_nat n))%Q.
Proof.
  replace 0%Q with (inject_Z 0) by reflexivity.
  rewrite <- Zle_Qle; lia.
Qed.

Lemma inject_nat_succ (n : nat) :
  (inject_Z (Z.of_nat (S n)) == inject_Z (Z.of_nat n) + 1)%Q.
Proof.
  rewrite Nat2Z.inj_succ; unfold Z.succ; rewrite inject_Z_plus; reflexivity.
Qed.

Lemma descending_app_l (l1 l2 : list (nat * Q)) :
  descending (l1 ++ l2) -> descending l1.
Proof.
  intros Hd p1 x p2 E; apply (Hd p1 x (p2 ++ l2)).
  rewrite E, <- app_assoc; reflexivity.
Qed.

Lemma descending_later (l1 l2 : list (nat * Q)) (x : nat * Q) :
  descending ((l1 ++ [x]) ++ l2) ->
  Forall (fun z => (snd z <= snd x)%Q) l2.
Proof.
  intro Hd; apply Forall_forall; intros z Hz.
  apply in_split in Hz as (m1 & m2 & ->).
  specialize (Hd ((l1 ++ [x]) ++ m1) z m2).
  rewrite <- !app_assoc in Hd; specialize (Hd eq_refl).
  rewrite !Forall_app in Hd; destruct Hd as (_ & Hx & _).
  inversion Hx; assumption.
Qed.

(** The downward scan brings every value to [max(value + c, 0)] for
    one level [c]. *)
Lemma scan_water_level (pre : list (nat * Q)) :
  forall (suf0 suf : list (nat * Q)) (a : Q),
    pre <> [] ->
    descending (pre ++ suf0) ->
    Forall2 (fun s0 z => fst s0 = fst z /\ (snd z == 0)%Q) suf0 suf ->
    (qsum (map snd pre) + a == 1)%Q ->
    Forall (fun s0 =>
              (snd s0 * inject_Z (Z.of_nat (length pre)) + a <= 0)%Q) suf0 ->
    exists c,
      Forall2 (level_pair c) (pre ++ suf0)
              (scan (length pre) a (pre ++ suf)).
Proof.
  induction pre as [|x pre IH] using rev_ind;
    intros suf0 suf a Hne Hd Hz Hsum Hinv; [contradiction|].
  clear Hne.
  pose proof (@descending_later _ _ _ Hd) as Hlater.
  pose proof (@descending_app_l (pre ++ [x]) suf0 Hd) as Hdp.
  apply descending_snoc in Hdp as [Hdpre Hx].
  rewrite map_app, qsum_app in Hsum; simpl in Hsum.
  rewrite qsum_cons in Hsum; unfold qsum at 2 in Hsum; simpl in Hsum.
  rewrite length_app in *; simpl length in *; rewrite Nat.add_1_r in *.
  cbn [scan]; rewrite nth_snoc_app.
  pose proof (inject_nat_succ_pos (length pre)) as Hq.
  pose proof (inject_nat_succ (length pre)) as Eq.
  pose proof (inject_nat_nonneg (length pre)) as Hi.
  set (q := inject_Z (Z.of_nat (S (length pre)))) in *.
  set (i := inject_Z (Z.of_nat (length pre))) in *.
  destruct (Qltb (snd x + a / q) 0) eqn:Ecmp.
  - (* the entry is folded into the accumulator *)
    rewrite Qltb_true in Ecmp.
    apply shifted_sign_lt in Ecmp; [| exact Hq].
    rewrite set_val_snoc_app.
    destruct pre as [|y pre0] eqn:Epre.
    + exfalso.
      unfold qsum in Hsum; simpl in Hsum.
      assert (Eq1 : (q == 1)%Q) by (rewrite Eq; unfold i; simpl; reflexivity).
      rewrite Eq1 in Ecmp; lra.
    + rewrite <- Epre in *.
      assert (Hne : pre <> []) by (rewrite Epre; discriminate).
      destruct (IH (x :: suf0) ((fst x, 0%Q) :: suf) (a + snd x)%Q Hne)
        as (c & Hc).
      * rewrite <- app_assoc in Hd; exact Hd.
      * constructor; [split; reflexivity | exact Hz].
      * lra.
      * fold i; constructor.
        -- rewrite Eq in Ecmp.
           assert (E : (snd x * (i + 1) == snd x * i + snd x)%Q) by ring.
           rewrite E in Ecmp; lra.
        -- eapply Forall_impl; [| exact Hlater].
           intros z Hzx; simpl in Hzx.
           rewrite Eq in Ecmp.
           assert (E : (snd x * (i + 1) == snd x * i + snd x)%Q) by ring.
           rewrite E in Ecmp.
           assert (Hprod : (0 <= (snd x - snd z) * i)%Q)
             by (apply Qmult_le_0_compat; lra).
           assert (E' : ((snd x - snd z) * i == snd x * i - snd z * i)%Q)
             by ring.
           rewrite E' in Hprod; lra.
      * exists c; rewrite <- app_assoc; exact Hc.
  - (* the accumulator is shared out *)
    rewrite Qltb_false in Ecmp.
    replace (S (length pre)) with (length (pre ++ [x]))
      by (rewrite length_app; simpl; lia).
    rewrite add_prefix_app.
    exists (a / q)%Q.
    apply Forall2_app.
    + assert (Hall : Forall (fun y => (snd x <= snd y)%Q) (pre ++ [x]))
        by (apply Forall_app; split; [exact Hx | repeat constructor; lra]).
      clear - Hall Ecmp.
      induction Hall as [|y l Hy _ IH]; simpl; constructor; [| exact IH].
      split; [reflexivity | left; simpl; split; [reflexivity | lra]].
    + clear - Hz Hinv Hq.
      induction Hz as [|s0 z l0 l [Hf Hzero] _ IH]; [constructor|].
      inversion Hinv as [|? ? Hs0 Hinv']; subst.
      constructor; [| apply IH, Hinv'].
      split; [exact Hf | right; split; [exact Hzero|]].
      apply shifted_sign_le; assumption.
Qed.

(** Sorting commutes with a relabelling that keeps the order. *)
Lemma insert_by_map {A B : Type} (before : A -> A -> bool)
      (before' : B -> B -> bool) (g : A -> B) (a : A) (l : list A) :
  (forall y, In y l -> before' (g y) (g a) = before y a) ->
  insert_by before' (g a) (map g l) = map g (insert_by before a l).
Proof.
  induction l as [|y l IH]; intro E; simpl; [reflexivity|].
  rewrite (E y (or_introl eq_refl)).
  destruct (before y a); simpl; [| reflexivity].
  f_equal; apply IH; intros z Hz; apply E; right; exact Hz.
Qed.

Lemma sorted_by_map {A B : Type} (before : A -> A -> bool)
      (before' : B -> B -> bool) (g : A -> B) (l : list A) :
  (forall x y, In x l -> In y l -> before' (g y) (g x) = before y x) ->
  sorted_by before' (map g l) = map g (sorted_by before l).
Proof.
  induction l as [|a l IH]; intro E; simpl; [reflexivity|].
  rewrite IH by (intros x y Hx Hy; apply E; right; assumption).
  apply insert_by_map; intros y Hy; apply E; [left; reflexivity|].
  right; eapply Permutation_in; [apply sorted_by_perm | exact Hy].
Qed.

Lemma Forall2_combine {A B : Type} (R : A -> B -> Prop) (l1 : list A)
      (l2 : list B) :
  Forall2 R l1 l2 ->
  map fst (combine l1 l2) = l1
  /\ map snd (combine l1 l2) = l2
  /\ Forall (fun p => R (fst p) (snd p)) (combine l1 l2).
Proof.
  induction 1 as [|x y l1 l2 Hxy _ (E1 & E2 & HF)]; simpl.
  - repeat split; constructor.
  - repeat split; [f_equal; exact E1 | f_equal; exact E2 |].
    constructor; assumption.
Qed.

(** The projection, with the bookkeeping of positions removed: the
    values it returns and the level of the water filling. *)
Lemma find_closest_prob_vector_level (v : list Q) :
  (qsum v == 1)%Q ->
  exists c, Forall2 (clipped_shift c) v (find_closest_prob_vector v).
Proof.
  intro Hv; unfold find_closest_prob_vector.
  fold (by_value_desc (enumerate v)).
  set (s := by_value_desc (enumerate v)).
  assert (Hperm : Permutation s (enumerate v)) by apply sorted_by_perm.
  assert (Hlen : length s = length v)
    by (rewrite (Permutation_length Hperm); apply enumerate_length).
  assert (Hne : s <> []).
  { intro E; rewrite E in Hlen; destruct v; [|discriminate].
    unfold qsum in Hv; simpl in Hv; lra. }
  assert (Hsum : (qsum (map snd s) + 0 == 1)%Q).
  { rewrite (qsum_perm (Permutation_map snd Hperm)), enumerate_snd; lra. }
  destruct (@scan_water_level s [] [] 0%Q Hne) as (c & Hc).
  - rewrite app_nil_r; apply by_value_desc_descending.
  - constructor.
  - exact Hsum.
  - constructor.
  - exists c.
    rewrite !app_nil_r, Hlen in Hc.
    set (t := scan (length v) 0 s) in *.
    destruct (Forall2_combine Hc) as (Es & Et & Hu).
    set (u := combine s t) in *.
    set (w := sorted_by (fun y x : (nat * Q) * (nat * Q) =>
                           Nat.ltb (fst (fst y)) (fst (fst x))) u).
    assert (Hw : Permutation w u) by apply sorted_by_perm.
    assert (Ew1 : sorted_key fst s = map fst w).
    { rewrite <- Es; unfold sorted_key, w; apply sorted_by_map.
      intros; reflexivity. }
    assert (Ew2 : sorted_key fst t = map snd w).
    { rewrite <- Et; unfold sorted_key, w; apply sorted_by_map.
      intros x y Hx Hy.
      rewrite Forall_forall in Hu.
      destruct (Hu x Hx) as [Ex _], (Hu y Hy) as [Ey _].
      unfold pylt, PyLt_nat; rewrite <- Ex, <- Ey; reflexivity. }
    assert (Eenum : map fst w = enumerate v).
    { rewrite <- Ew1; apply sorted_key_fst_restores; [| exact Hperm].
      rewrite enumerate_fst; apply seq_increasing. }
    assert (Hlo : length (sorted_key fst t) = length v).
    { rewrite Ew2, length_map, <- (length_map fst), Eenum.
      apply enumerate_length. }
    rewrite <- Hlo, map_nth_seq, Ew2, map_map.
    rewrite <- (enumerate_snd v) at 1; rewrite <- Eenum, map_map.
    assert (HFw : Forall (fun p => level_pair c (fst p) (snd p)) w)
      by (eapply Permutation_Forall; [apply Permutation_sym, Hw | exact Hu]).
    clear - HFw.
    induction HFw as [|p l [_ Hp] _ IH]; simpl; constructor; assumption.
Qed.

(** X19: the result of [find_closest_prob_vector] is obtained by
    water filling: for one level [c], every entry of the result is
    the entry of the input shifted by [c] and clipped at zero. *)
Theorem find_closest_prob_vector_water_filling (v : list Q) :
  (qsum v == 1)%Q ->
  exists c, Forall2 (clipped_shift c) v (find_closest_prob_vector v).
Proof. exact (find_closest_prob_vector_level v). Qed.

Lemma find_closest_prob_vector_water_filling_witness :
  exists c,
    Forall2 (clipped_shift c) [6 # 10; 6 # 10; (-2) # 10]%Q
            (find_closest_prob_vector [6 # 10; 6 # 10; (-2) # 10]%Q).
Proof.
  apply find_closest_prob_vector_water_filling; vm_compute; reflexivity.
Defined.

(** The result is a probability vector of the length of the input. *)
Lemma find_closest_prob_vector_simplex (v : list Q) :
  (qsum v == 1)%Q ->
  length (find_closest_prob_vector v) = length v
  /\ nonneg_vector (find_closest_prob_vector v)
  /\ (qsum (find_closest_prob_vector v) == 1)%Q.
Proof.
  intro Hv; unfold find_closest_prob_vector.
  fold (by_value_desc (enumerate v)).
  set (s := by_value_desc (enumerate v)).
  assert (Hperm : Permutation s (enumerate v)) by apply sorted_by_perm.
  assert (Hlen : length s = length v)
    by (rewrite (Permutation_length Hperm); apply enumerate_length).
  assert (Hne : s <> []).
  { intro E; rewrite E in Hlen; destruct v; [|discriminate].
    unfold qsum in Hv; simpl in Hv; lra. }
  assert (Hsum : (qsum (map snd s) + 0 == 1)%Q).
  { rewrite (qsum_perm (Permutation_map snd Hperm)), enumerate_snd; lra. }
  destruct (@scan_spec s [] 0%Q Hne (by_value_desc_descending _)
                       (Forall_nil _) Hsum) as (Hf & Hn & Hs).
  rewrite app_nil_r, Hlen in *.
  set (t := scan (length v) 0 s) in *.
  assert (Ht : Permutation (sorted_key fst t) t) by apply sorted_by_perm.
  assert (Hlo : length (sorted_key fst t) = length v).
  { rewrite (Permutation_length Ht), <- (length_map fst), Hf, length_map.
    exact Hlen. }
  rewrite <- Hlo, map_nth_seq.
  split; [| split].
  - rewrite length_map; reflexivity.
  - unfold nonneg_vector; rewrite Forall_map.
    eapply Permutation_Forall; [apply Permutation_sym, Ht | exact Hn].
  - rewrite (qsum_perm (Permutation_map snd Ht)); exact Hs.
Qed.

Lemma Qsquare_nonneg (d : Q) : (0 <= d * d)%Q.
Proof.
  destruct (Qlt_le_dec d 0) as [Hneg | Hpos].
  - assert (E : (d * d == (0 - d) * (0 - d))%Q) by ring.
    rewrite E; apply Qmult_le_0_compat; lra.
  - apply Qmult_le_0_compat; assumption.
Qed.

Lemma sq_distance_cons (a b : Q) (u w : list Q) :
  (sq_distance (a :: u) (b :: w) == (a - b) * (a - b) + sq_distance u w)%Q.
Proof. unfold sq_distance; simpl combine; simpl map; apply qsum_cons. Qed.

Lemma sq_distance_nonneg (u w : list Q) : (0 <= sq_distance u w)%Q.
Proof.
  revert w; induction u as [|a u IH]; intros [|b w];
    try (unfold sq_distance, qsum; simpl; lra).
  rewrite sq_distance_cons; specialize (IH w).
  pose proof (Qsquare_nonneg (a - b)).
  lra.
Qed.

Lemma sq_distance_refl (u : list Q) : (sq_distance u u == 0)%Q.
Proof.
  induction u as [|a u IH]; [reflexivity|].
  rewrite sq_distance_cons, IH; ring.
Qed.

Lemma sq_distance_zero (u w : list Q) :
  length u = length w -> (sq_distance u w <= 0)%Q -> Forall2 Qeq u w.
Proof.
  revert w; induction u as [|a u IH]; intros [|b w] Hl Hd;
    simpl in Hl; try discriminate; [constructor|].
  rewrite sq_distance_cons in Hd.
  pose proof (sq_distance_nonneg u w) as Hn.
  pose proof (Qsquare_nonneg (a - b)) as Hsq.
  constructor.
  - assert (E : ((a - b) * (a - b) == 0)%Q) by lra.
    apply Qmult_integral in E; destruct E; lra.
  - apply IH; [lia | lra].
Qed.

(** One entry of the comparison between the water filling and any
    other non-negative value. *)
Lemma level_step (c v x y : Q) :
  clipped_shift c v x -> (0 <= y)%Q ->
  ((v - x) * (v - x) + 2 * c * (y - x) <= (v - y) * (v - y))%Q.
Proof.
  intros [[E Hx] | [E Hle]] Hy.
  - pose proof (Qsquare_nonneg (x - y)) as Hsq.
    assert (Ec : (c == x - v)%Q) by lra.
    rewrite Ec.
    assert (Eid : ((v - y) * (v - y)
                   == (v - x) * (v - x) + 2 * (x - v) * (y - x)
                      + (x - y) * (x - y))%Q) by ring.
    rewrite Eid; lra.
  - rewrite E.
    pose proof (Qsquare_nonneg y) as Hsq.
    assert (Hprod : (0 <= (0 - (v + c)) * y)%Q)
      by (apply Qmult_le_0_compat; lra).
    assert (Eid : ((v - y) * (v - y)
                   == (v - 0) * (v - 0) + 2 * c * (y - 0)
                      + y * y + 2 * ((0 - (v + c)) * y))%Q) by ring.
    rewrite Eid; lra.
Qed.

Lemma level_sum (c : Q) (v x : list Q) :
  Forall2 (clipped_shift c) v x ->
  forall y,
    length y = length v -> nonneg_vector y ->
    (sq_distance v x + 2 * c * (qsum y - qsum x) <= sq_distance v y)%Q.
Proof.
  induction 1 as [|a b v x Hab _ IH]; intros [|y0 y] Hl Hy;
    simpl in Hl; try discriminate.
  - unfold sq_distance, qsum; simpl; lra.
  - inversion Hy as [|? ? Hy0 Hy']; subst.
    assert (Hl' : length y = length v) by lia.
    specialize (IH y Hl' Hy').
    pose proof (level_step Hab Hy0) as Hstep.
    rewrite !sq_distance_cons, !qsum_cons.
    assert (Eid : (2 * c * (y0 + qsum y - (b + qsum x))
                   == 2 * c * (y0 - b) + 2 * c * (qsum y - qsum x))%Q) by ring.
    rewrite Eid; lra.
Qed.

Lemma find_closest_prob_vector_optimal (v y : list Q) :
  (qsum v == 1)%Q ->
  length y = length v -> nonneg_vector y -> (qsum y == 1)%Q ->
  (sq_distance v (find_closest_prob_vector v) <= sq_distance v y)%Q.
Proof.
  intros Hv Hl Hy Sy.
  destruct (find_closest_prob_vector_level v Hv) as (c & Hc).
  destruct (find_closest_prob_vector_simplex v Hv) as (_ & _ & Sx).
  pose proof (level_sum Hc Hl Hy) as Hsum.
  assert (E : (2 * c * (qsum y - qsum (find_closest_prob_vector v)) == 0)%Q)
    by (rewrite Sy, Sx; ring).
  rewrite E in Hsum; lra.
Qed.

(** X20: among all probability vectors of the length of the input,
    the vector returned by [find_closest_prob_vector] is at the least
    Euclidean distance from the input. *)
Theorem find_closest_prob_vector_is_closest (v y : list Q) :
  (qsum v == 1)%Q ->
  length y = length v -> nonneg_vector y -> (qsum y == 1)%Q ->
  (sq_distance v (find_closest_prob_vector v) <= sq_distance v y)%Q.
Proof. exact (@find_closest_prob_vector_optimal v y). Qed.

Lemma find_closest_prob_vector_is_closest_witness :
  (sq_distance [6 # 10; 6 # 10; (-2) # 10]%Q
               (find_closest_prob_vector [6 # 10; 6 # 10; (-2) # 10]%Q)
   <= sq_distance [6 # 10; 6 # 10; (-2) # 10]%Q [1 # 3; 1 # 3; 1 # 3]%Q)%Q.
Proof.
  apply find_closest_prob_vector_is_closest;
    try (vm_compute; reflexivity).
  repeat constructor; discriminate.
Defined.

(** X21: applied to its own result, [find_closest_prob_vector] changes
    nothing: the projection is idempotent. *)
Theorem find_closest_prob_vector_idempotent (v : list Q) :
  (qsum v == 1)%Q ->
  Forall2 Qeq (find_closest_prob_vector (find_closest_prob_vector v))
          (find_closest_prob_vector v).
Proof.
  intro Hv.
  destruct (find_closest_prob_vector_simplex v Hv) as (Hl & Hn & Hs).
  set (x := find_closest_prob_vector v) in *.
  destruct (find_closest_prob_vector_simplex x Hs) as (Hl' & _ & _).
  pose proof (@find_closest_prob_vector_optimal x x Hs eq_refl Hn Hs) as Ho.
  rewrite sq_distance_refl in Ho.
  assert (HF : Forall2 Qeq x (find_closest_prob_vector x))
    by (apply sq_distance_zero; [symmetry; exact Hl' | exact Ho]).
  clear - HF.
  induction HF; constructor; [symmetry|]; assumption.
Qed.

Lemma find_closest_prob_vector_idempotent_witness :
  Forall2 Qeq
          (find_closest_prob_vector
             (find_closest_prob_vector [6 # 10; 6 # 10; (-2) # 10]%Q))
          (find_closest_prob_vector [6 # 10; 6 # 10; (-2) # 10]%Q).
Proof.
  apply find_closest_prob_vector_idempotent; vm_compute; reflexivity.
Defined.

(* ================================================================= *)
(** ** Diagonal and off-diagonal parts *)

Lemma foldM_app {A S : Type} (f : S -> A -> result S) (l1 l2 : list A) (s : S) :
  foldM f (l1 ++ l2) s = (s' <- foldM f l1 s ;; foldM f l2 s').
Proof.
  revert s; induction l1 as [|x l1 IH]; intro s; simpl; [reflexivity|].
  destruct (f s x) as [s'|e]; simpl; [apply IH | reflexivity].
Qed.

Section DiagonalPartsFacts.
Context {C : Type} `{ScalarRing C}.

Add Ring scalar_ring_diagonal : scalar_ring.

Lemma set_entry_mk (r c : nat) (f : nat -> nat -> C) (i j : nat) (v : C) :
  i < r ->
  set_entry i j v (mk_matrix r c f)
  = if Nat.ltb j c
    then Ok (mk_matrix r c (fun i' j' => if Nat.eqb i' i && Nat.eqb j' j
                                         then v else f i' j'))
    else Raise IndexError.
Proof.
  intro Hi; unfold set_entry.
  rewrite (@get_Ok (list C) (mk_matrix r c f) i [])
    by (rewrite mk_matrix_length; exact Hi).
  simpl bind.
  rewrite mk_matrix_row, length_map, length_seq by exact Hi.
  destruct (Nat.ltb_spec j c) as [Hj | Hj]; [| reflexivity].
  rewrite <- (upd_entry_mk f v Hi Hj); unfold upd_entry.
  rewrite mk_matrix_row by exact Hi; reflexivity.
Qed.

(** The loop of [get_off_diagonal_from_matrix] from row [k] on, as
    long as the diagonal stays inside the array. *)
Lemma clear_diagonal_steps (r c cnt : nat) :
  forall (k : nat) (f : nat -> nat -> C),
    k + cnt <= r -> k + cnt <= c ->
    foldM (fun M i => set_entry i i c0 M) (seq k cnt) (mk_matrix r c f)
    = Ok (mk_matrix r c (fun i j => if Nat.eqb i j && Nat.leb k i
                                       && Nat.ltb i (k + cnt)
                                    then c0 else f i j)).
Proof.
  induction cnt as [|cnt IH]; intros k f Hr Hc; simpl.
  - f_equal; apply mk_matrix_ext; intros i j _ _.
    destruct (Nat.eqb i j), (Nat.leb_spec k i), (Nat.ltb_spec i (k + 0));
      simpl; try reflexivity; lia.
  - rewrite set_entry_mk by lia.
    destruct (Nat.ltb_spec k c) as [_ | Hk]; [| lia].
    simpl bind; rewrite IH by lia.
    f_equal; apply mk_matrix_ext; intros i j _ _.
    destruct (Nat.eqb_spec i j), (Nat.leb_spec (S k) i),
      (Nat.ltb_spec i (S k + cnt)), (Nat.leb_spec k i),
      (Nat.ltb_spec i (k + S cnt)), (Nat.eqb_spec i k), (Nat.eqb_spec j k);
      simpl; try reflexivity; lia.
Qed.

Lemma off_diagonal_wide (r c : nat) (M : matrix C) :
  has_shape r c M -> r <= c ->
  get_off_diagonal_from_matrix M
  = Ok (mk_matrix r c (fun i j => if Nat.eqb i j then c0 else entry M i j)).
Proof.
  intros Hs Hrc; unfold get_off_diagonal_from_matrix, nrows.
  rewrite (proj1 Hs).
  rewrite (matrix_eta Hs) at 1.
  rewrite clear_diagonal_steps by lia.
  f_equal; apply mk_matrix_ext; intros i j Hi _.
  destruct (Nat.eqb i j), (Nat.leb_spec 0 i), (Nat.ltb_spec i (0 + r));
    simpl; try reflexivity; lia.
Qed.

Lemma off_diagonal_tall (r c : nat) (M : matrix C) :
  has_shape r c M -> c < r ->
  get_off_diagonal_from_matrix M = Raise IndexError.
Proof.
  intros Hs Hrc; unfold get_off_diagonal_from_matrix, nrows.
  rewrite (proj1 Hs).
  rewrite (matrix_eta Hs) at 1.
  replace r with (c + S (r - S c)) at 1 by lia.
  rewrite seq_app, foldM_app, clear_diagonal_steps by lia.
  simpl bind; simpl seq; simpl foldM.
  rewrite set_entry_mk by lia.
  rewrite Nat.ltb_irrefl; reflexivity.
Qed.

Lemma diagonal_part_square (n : nat) (M : matrix C) :
  has_shape n n M ->
  np_diagflat (np_diag M)
  = mk_matrix n n (fun i j => if Nat.eqb i j then entry M i j else c0).
Proof.
  intro Hs; unfold np_diagflat, np_diag, nrows.
  rewrite length_map, length_seq, (proj1 Hs).
  destruct n as [|n].
  - reflexivity.
  - rewrite (has_shape_ncols (r := S n) (c := S n)) by (try lia; exact Hs).
    rewrite Nat.min_id.
    apply mk_matrix_ext; intros i j Hi Hj.
    destruct (Nat.eqb_spec i j) as [<- | _]; [| reflexivity].
    rewrite nth_map_seq by exact Hi; reflexivity.
Qed.

Lemma zip_with_mk (g : C -> C -> C) (r c : nat) (f1 f2 : nat -> nat -> C) :
  zip_with g (mk_matrix r c f1) (mk_matrix r c f2)
  = mk_matrix r c (fun i j => g (f1 i j) (f2 i j)).
Proof.
  unfold zip_with, mk_matrix.
  assert (Hrow : forall (h1 h2 : nat -> C) l,
             map (fun q => g (fst q) (snd q)) (combine (map h1 l) (map h2 l))
             = map (fun j => g (h1 j) (h2 j)) l)
    by (intros h1 h2 l; induction l as [|j l IH]; simpl; [|rewrite IH];
        reflexivity).
  induction (seq 0 r) as [|i l IH]; simpl; [reflexivity|].
  rewrite Hrow, IH; reflexivity.
Qed.

Lemma diagonal_plus_off_diagonal (n : nat) (M off : matrix C) :
  has_shape n n M ->
  get_off_diagonal_from_matrix M = Ok off ->
  madd (np_diagflat (np_diag M)) off = M.
Proof.
  intros Hs E.
  rewrite (off_diagonal_wide Hs (le_n n)) in E; injection E as <-.
  rewrite (diagonal_part_square Hs).
  unfold madd; rewrite zip_with_mk.
  transitivity (mk_matrix n n (entry M));
    [| symmetry; apply matrix_eta; exact Hs].
  apply mk_matrix_ext; intros i j _ _.
  destruct (Nat.eqb i j); ring.
Qed.

(** X23: on an array with at least as many columns as rows,
    [get_off_diagonal_from_matrix] returns the array with its main
    diagonal set to zero and every other entry kept. *)
Theorem off_diagonal_part_entries (r c : nat) (M : matrix C) :
  has_shape r c M -> r <= c ->
  exists off,
    get_off_diagonal_from_matrix M = Ok off
    /\ has_shape r c off
    /\ forall i j, i < r -> j < c ->
                   entry off i j = if Nat.eqb i j then c0 else entry M i j.
Proof.
  intros Hs Hrc; eexists; split; [apply (off_diagonal_wide Hs Hrc)|].
  split; [apply mk_matrix_shape|].
  intros i j Hi Hj; rewrite entry_mk by assumption; reflexivity.
Qed.

(** X24: on an array with more rows than columns the diagonal runs
    out of the array, and [get_off_diagonal_from_matrix] -- and with
    it [get_off_diagonal_povm_part] on a POVM that starts with such
    an array -- raises [IndexError]. *)
Theorem off_diagonal_part_tall_array (r c : nat) (M : matrix C)
        (povm : list (matrix C)) :
  has_shape r c M -> c < r ->
  get_off_diagonal_from_matrix M = Raise IndexError
  /\ get_off_diagonal_povm_part (M :: povm) = Raise IndexError.
Proof.
  intros Hs Hrc.
  pose proof (off_diagonal_tall Hs Hrc) as E.
  split; [exact E|].
  unfold get_off_diagonal_povm_part; simpl; rewrite E; reflexivity.
Qed.

(** X25: a POVM of square effects is the sum, effect by effect, of
    its diagonal part and its off-diagonal part. *)
Theorem povm_diagonal_plus_off_diagonal (n : nat) (povm : list (matrix C)) :
  Forall (has_shape n n) povm ->
  exists off,
    get_off_diagonal_povm_part povm = Ok off
    /\ map (fun p => madd (fst p) (snd p))
           (combine (get_diagonal_povm_part povm) off)
       = povm.
Proof.
  induction 1 as [|M povm HM _ (off & Eoff & Esum)].
  - exists []; split; reflexivity.
  - pose proof (off_diagonal_wide HM (le_n n)) as EM.
    eexists (_ :: off); split.
    + unfold get_off_diagonal_povm_part in *; simpl.
      rewrite EM, Eoff; reflexivity.
    + simpl; f_equal; [| exact Esum].
      apply (diagonal_plus_off_diagonal HM EM).
Qed.

(** X26: taking the diagonal part of a POVM of square effects twice
    gives the same as taking it once, and the off-diagonal part of a
    diagonal part is zero. *)
Theorem diagonal_part_idempotent (n : nat) (povm : list (matrix C)) :
  Forall (has_shape n n) povm ->
  get_diagonal_povm_part (get_diagonal_povm_part povm)
  = get_diagonal_povm_part povm
  /\ get_off_diagonal_povm_part (get_diagonal_povm_part povm)
     = Ok (map (fun _ => zeros n n) povm).
Proof.
  intro Hall; split.
  - unfold get_diagonal_povm_part; rewrite map_map.
    apply map_ext_in; intros M HM.
    rewrite Forall_forall in Hall; specialize (Hall M HM).
    rewrite (diagonal_part_square Hall).
    rewrite (diagonal_part_square (mk_matrix_shape n n _)).
    apply mk_matrix_ext; intros i j Hi Hj.
    rewrite entry_mk by assumption.
    destruct (Nat.eqb i j); reflexivity.
  - unfold get_off_diagonal_povm_part, get_diagonal_povm_part.
    induction Hall as [|M povm HM _ IH]; [reflexivity|].
    simpl; rewrite IH.
    rewrite (diagonal_part_square HM).
    rewrite (off_diagonal_wide (mk_matrix_shape n n _) (le_n n)).
    simpl; do 2 f_equal.
    apply mk_matrix_ext; intros i j Hi Hj.
    rewrite entry_mk by assumption.
    destruct (Nat.eqb i j); reflexivity.
Qed.
End DiagonalPartsFacts.

Lemma off_diagonal_part_entries_witness :
  exists off : matrix Z,
    get_off_diagonal_from_matrix [[1; 2; 3]; [4; 5; 6]]%Z = Ok off
    /\ has_shape 2 3 off
    /\ forall i j, i < 2 -> j < 3 ->
                   entry off i j
                   = if Nat.eqb i j then c0
                     else entry [[1; 2; 3]; [4; 5; 6]]%Z i j.
Proof.
  apply (@off_diagonal_part_entries Z _ 2 3); [| lia].
  split; [reflexivity | repeat constructor].
Defined.

Lemma off_diagonal_part_tall_array_witness :
  get_off_diagonal_from_matrix [[1; 2]; [3; 4]; [5; 6]]%Z = Raise IndexError
  /\ get_off_diagonal_povm_part [[[1; 2]; [3; 4]; [5; 6]]%Z] = Raise IndexError.
Proof.
  apply (@off_diagonal_part_tall_array Z _ 3 2); [| lia].
  split; [reflexivity | repeat constructor].
Defined.

Lemma povm_diagonal_plus_off_diagonal_witness :
  exists off : list (matrix Z),
    get_off_diagonal_povm_part [[[1; 2]; [3; 4]]; [[0; -2]; [-3; -3]]]%Z
    = Ok off
    /\ map (fun p => madd (fst p) (snd p))
           (combine (get_diagonal_povm_part
                       [[[1; 2]; [3; 4]]; [[0; -2]; [-3; -3]]]%Z) off)
       = [[[1; 2]; [3; 4]]; [[0; -2]; [-3; -3]]]%Z.
Proof.
  apply (@povm_diagonal_plus_off_diagonal Z _ _ 2).
  repeat constructor.
Defined.

Lemma diagonal_part_idempotent_witness :
  get_diagonal_povm_part (get_diagonal_povm_part [[[1; 2]; [3; 4]]%Z])
  = get_diagonal_povm_part [[[1; 2]; [3; 4]]%Z]
  /\ get_off_diagonal_povm_part (get_diagonal_povm_part [[[1; 2]; [3; 4]]%Z])
     = Ok (map (fun _ => zeros 2 2) [[[1; 2]; [3; 4]]%Z]).
Proof.
  apply (@diagonal_part_idempotent Z _ 2).
  repeat constructor.
Defined.

(* ================================================================= *)
(** ** [gtc_tensor_counting_function] *)

Section TensorCounting.
Context {C : Type} `{ScalarRing C}.

Add Ring scalar_ring_tensor : scalar_ring.

Lemma kron_rows (A B : matrix C) :
  kron A B = flat_map (fun ra => map (row_kron ra) B) A.
Proof. reflexivity. Qed.

Lemma row_kron_app (ra ra' rb : list C) :
  row_kron (ra ++ ra') rb = row_kron ra rb ++ row_kron ra' rb.
Proof. apply flat_map_app. Qed.

Lemma row_kron_scale (a : C) (rb rc : list C) :
  row_kron (map (cmul a) rb) rc = map (cmul a) (row_kron rb rc).
Proof.
  induction rb as [|b rb IH]; [reflexivity|].
  unfold row_kron in *; simpl; rewrite IH, map_app, map_map.
  f_equal; apply map_ext; intro c; ring.
Qed.

Lemma row_kron_assoc (ra rb rc : list C) :
  row_kron (row_kron ra rb) rc = row_kron ra (row_kron rb rc).
Proof.
  induction ra as [|a ra IH]; [reflexivity|].
  change (row_kron (a :: ra) rb) with (map (cmul a) rb ++ row_kron ra rb).
  rewrite row_kron_app, row_kron_scale, IH; reflexivity.
Qed.

Lemma flat_map_flat_map {X Y Z : Type} (f : X -> list Y) (g : Y -> list Z)
      (l : list X) :
  flat_map g (flat_map f l) = flat_map (fun x => flat_map g (f x)) l.
Proof.
  induction l as [|x l IH]; simpl; [reflexivity|].
  rewrite flat_map_app, IH; reflexivity.
Qed.

Lemma flat_map_map {X Y Z : Type} (f : X -> Y) (g : Y -> list Z) (l : list X) :
  flat_map g (map f l) = flat_map (fun x => g (f x)) l.
Proof. induction l as [|x l IH]; simpl; [|rewrite IH]; reflexivity. Qed.

Lemma map_flat_map {X Y Z : Type} (f : X -> list Y) (g : Y -> Z) (l : list X) :
  map g (flat_map f l) = flat_map (fun x => map g (f x)) l.
Proof.
  induction l as [|x l IH]; simpl; [reflexivity|].
  rewrite map_app, IH; reflexivity.
Qed.

Lemma kron_assoc (A B D : matrix C) :
  kron (kron A B) D = kron A (kron B D).
Proof.
  rewrite !kron_rows, flat_map_flat_map.
  apply flat_map_ext; intro ra.
  rewrite flat_map_map, map_flat_map.
  apply flat_map_ext; intro rb.
  rewrite map_map; apply map_ext; intro rd.
  apply row_kron_assoc.
Qed.

Lemma kron_one_l (A : matrix C) : kron [[c1]] A = A.
Proof.
  rewrite kron_rows; simpl; rewrite app_nil_r.
  rewrite <- (map_id A) at 2; apply map_ext; intro rb.
  unfold row_kron; simpl; rewrite app_nil_r.
  rewrite <- (map_id rb) at 2; apply map_ext; intro b; ring.
Qed.

Lemma kron_one_r (A : matrix C) : kron A [[c1]] = A.
Proof.
  induction A as [|ra A IH]; [reflexivity|].
  change (kron (ra :: A) [[c1]]) with (row_kron ra [c1] :: kron A [[c1]]).
  rewrite IH; f_equal.
  unfold row_kron; clear IH.
  induction ra as [|a ra IH]; [reflexivity|].
  simpl in *; rewrite IH; f_equal; ring.
Qed.

Lemma fold_kron_start (l : list (matrix C)) :
  forall X, fold_left kron l X = kron X (fold_left kron l [[c1]]).
Proof.
  induction l as [|A l IH]; intro X; cbn [fold_left].
  - symmetry; apply kron_one_r.
  - rewrite (IH (kron X A)), (IH (kron [[c1]] A)), kron_one_l.
    apply kron_assoc.
Qed.

(** X27: the [1] that [gtc_tensor_counting_function] starts from is
    neutral -- one operand is returned as it is -- and the function
    is compatible with concatenation: the tensor product of a list
    of operands is the Kronecker product of the tensor products of
    its two parts, however the list is split. *)
Theorem gtc_tensor_counting_function_splits (A : matrix C)
        (l1 l2 : list (matrix C)) :
  gtc_tensor_counting_function [A] = A
  /\ gtc_tensor_counting_function (l1 ++ l2)
     = kron (gtc_tensor_counting_function l1)
            (gtc_tensor_counting_function l2).
Proof.
  unfold gtc_tensor_counting_function; split.
  - cbn [fold_left]; apply kron_one_l.
  - rewrite fold_left_app; apply fold_kron_start.
Qed.
End TensorCounting.

Lemma gtc_tensor_counting_function_splits_witness :
  gtc_tensor_counting_function [[[1; 2]; [3; 4]]%Z] = [[1; 2]; [3; 4]]%Z
  /\ gtc_tensor_counting_function
       ([[[1; 2]; [3; 4]]%Z] ++ [[[0; 1]; [1; 0]]%Z; [[5]]%Z])
     = kron (gtc_tensor_counting_function [[[1; 2]; [3; 4]]%Z])
            (gtc_tensor_counting_function [[[0; 1]; [1; 0]]%Z; [[5]]%Z]).
Proof.
  apply (@gtc_tensor_counting_function_splits Z _ _).
Defined.

(* ================================================================= *)
(** ** The reordered classical register *)

(** Zipping keys with things is zipping them with positions and then
    looking the things up. *)
Lemma combine_positions {A K : Type} (d : A) (keys : list K) :
  forall (stuff pre : list A),
    length stuff = length keys ->
    combine keys stuff
    = map (fun p => (fst p, nth (snd p) (pre ++ stuff) d))
          (combine keys (seq (length pre) (length keys))).
Proof.
  induction keys as [|k keys IH]; intros [|x stuff] pre Hl; simpl in Hl;
    try discriminate; [reflexivity|].
  simpl; f_equal.
  - rewrite app_nth2, Nat.sub_diag by lia; reflexivity.
  - injection Hl as Hl.
    rewrite (IH stuff (pre ++ [x]) Hl), length_app, Nat.add_1_r, <- app_assoc.
    reflexivity.
Qed.

Section SortPositions.
Context {A K : Type} `{PyLt K}.

(** [sort_things] moves the things by a rearrangement of positions
    that the keys alone determine. *)
Lemma sort_things_positions (d : A) (stuff_to_sort : list A)
      (according_to_what : list K) :
  length stuff_to_sort = length according_to_what ->
  sort_things stuff_to_sort according_to_what
  = map (fun i => nth i stuff_to_sort d)
        (sort_things (seq 0 (length according_to_what)) according_to_what).
Proof.
  intro Hl; unfold sort_things, sorted_key.
  rewrite (combine_positions d according_to_what stuff_to_sort [] Hl).
  simpl length; simpl app.
  rewrite (sorted_by_map (fun y x : K * nat => pylt (fst y) (fst x)))
    by (intros; reflexivity).
  rewrite !map_map; reflexivity.
Qed.

Lemma sort_things_positions_perm (according_to_what : list K) :
  Permutation
    (sort_things (seq 0 (length according_to_what)) according_to_what)
    (seq 0 (length according_to_what)).
Proof.
  eapply perm_trans; [apply sort_things_perm|].
  rewrite firstn_all2 by (rewrite length_seq; apply le_n).
  apply Permutation_refl.
Qed.

Lemma sort_things_injective (according_to_what : list K) (s t : list A) :
  length s = length according_to_what ->
  length t = length according_to_what ->
  sort_things s according_to_what = sort_things t according_to_what ->
  s = t.
Proof.
  intros Hs Ht E.
  destruct s as [|d s'] eqn:Es.
  - destruct t; [reflexivity | simpl in *; congruence].
  - rewrite <- Es in *; clear Es s'.
    rewrite (sort_things_positions d s _ Hs),
      (sort_things_positions d t _ Ht) in E.
    apply nth_ext with (d := d) (d' := d); [congruence|].
    intros i Hi.
    apply (ext_in_map E).
    eapply Permutation_in;
      [apply Permutation_sym, sort_things_positions_perm|].
    apply in_seq; lia.
Qed.
End SortPositions.

Lemma standard_register_complete (n : nat) (s : list ascii) :
  1 <= n -> Forall is_bit s -> length s = n -> In s (standard_register n).
Proof.
  intros Hn Hs Hl; unfold standard_register.
  apply in_map_iff; exists (value s); split.
  - apply zfill_bin_value; assumption.
  - apply in_seq; pose proof (value_lt s); rewrite Hl in *; lia.
Qed.

Lemma standard_register_labels (n : nat) (s : list ascii) :
  1 <= n -> In s (standard_register n) -> Forall is_bit s /\ length s = n.
Proof.
  intros Hn Hs; unfold standard_register in Hs.
  apply in_map_iff in Hs as (x & <- & Hx); apply in_seq in Hx.
  split; [apply bits_zfill_bin | apply length_zfill_bin; [exact Hn | lia]].
Qed.

Lemma standard_register_NoDup (n : nat) : NoDup (standard_register n).
Proof.
  unfold standard_register.
  apply NoDup_map_NoDup_ForallPairs; [| apply seq_NoDup].
  intros x y _ _ E.
  rewrite <- (value_zfill_bin n x), <- (value_zfill_bin n y), E; reflexivity.
Qed.

Lemma reorder_classical_register_perm (new_order : list Z) :
  new_order <> [] ->
  Permutation (reorder_classical_register new_order)
              (standard_register (length new_order)).
Proof.
  intro Hne.
  assert (Hn : 1 <= length new_order)
    by (destruct new_order; [contradiction | simpl; lia]).
  unfold reorder_classical_register.
  set (n := length new_order) in *.
  apply NoDup_Permutation_bis.
  - apply NoDup_map_NoDup_ForallPairs; [| apply standard_register_NoDup].
    intros s t Hs Ht E.
    destruct (@standard_register_labels n s Hn Hs) as [_ Ls].
    destruct (@standard_register_labels n t Hn Ht) as [_ Lt].
    unfold sort_bitstring in E.
    apply (sort_things_injective new_order); assumption.
  - rewrite length_map; apply le_n.
  - intros s' Hs'; apply in_map_iff in Hs' as (s & <- & Hs).
    destruct (@standard_register_labels n s Hn Hs) as [Bs Ls].
    unfold sort_bitstring.
    destruct (sort_things_perm s new_order) as [Hp Hlen].
    fold n in Hp, Hlen; rewrite <- Ls, firstn_all in Hp.
    apply standard_register_complete; [exact Hn | |].
    + eapply Permutation_Forall; [apply Permutation_sym, Hp | exact Bs].
    + rewrite Hlen, Ls; apply Nat.min_id.
Qed.

(** X28: for every non-empty qubit order -- a permutation of the
    qubits or not -- [reorder_classical_register] returns every
    [n]-bit label exactly once: its result is a rearrangement of the
    standard register, without repetition. *)
Theorem reorder_classical_register_rearranges (new_order : list Z) :
  new_order <> [] ->
  Permutation (reorder_classical_register new_order)
              (standard_register (length new_order))
  /\ NoDup (reorder_classical_register new_order).
Proof.
  intro Hne.
  pose proof (reorder_classical_register_perm Hne) as Hp.
  split; [exact Hp|].
  eapply Permutation_NoDup;
    [apply Permutation_sym, Hp | apply standard_register_NoDup].
Qed.

Lemma reorder_classical_register_rearranges_witness :
  Permutation (reorder_classical_register [2; 0; 1]%Z)
              (standard_register (length [2; 0; 1]%Z))
  /\ NoDup (reorder_classical_register [2; 0; 1]%Z).
Proof.
  apply reorder_classical_register_rearranges; discriminate.
Defined.

(* ================================================================= *)
(** ** Matrix algebra on square arrays *)

Lemma foldM_invariant {A S : Type} (P : S -> Prop) (f : S -> A -> result S)
      (l : list A) :
  forall s r,
    foldM f l s = Ok r ->
    P s ->
    (forall s x s', In x l -> P s -> f s x = Ok s' -> P s') ->
    P r.
Proof.
  induction l as [|x l IH]; intros s r E Hs Hstep; simpl in E.
  - injection E as <-; exact Hs.
  - apply bind_Ok_inv in E as (s' & Es' & E).
    apply (IH s' r E).
    + apply (Hstep s x s'); [left; reflexivity | exact Hs | exact Es'].
    + intros s0 y s0' Hy; apply Hstep; right; exact Hy.
Qed.

Lemma mapM_Forall {A B : Type} (P : B -> Prop) (f : A -> result B) (l : list A) :
  forall r,
    mapM f l = Ok r ->
    (forall x y, In x l -> f x = Ok y -> P y) ->
    Forall P r.
Proof.
  induction l as [|x l IH]; intros r E HP; simpl in E.
  - injection E as <-; constructor.
  - apply bind_Ok_inv in E as (y & Ey & E).
    apply bind_Ok_inv in E as (ys & Eys & E).
    injection E as <-; constructor.
    + apply (HP x y); [left; reflexivity | exact Ey].
    + apply IH; [exact Eys|].
      intros x' y' Hx'; apply HP; right; exact Hx'.
Qed.

Lemma fold_left_map_r {A B : Type} (g : B -> A -> B) (X : nat -> A)
      (l : list nat) :
  forall acc,
    fold_left (fun a j => g a (X j)) l acc = fold_left g (map X l) acc.
Proof. induction l as [|j l IH]; intro acc; simpl; [|rewrite IH]; reflexivity. Qed.

Section SquareMatrices.
Context {C : Type} `{ScalarRing C}.

Add Ring scalar_ring_square : scalar_ring.

Lemma matrix_ext (r c : nat) (A B : matrix C) :
  has_shape r c A -> has_shape r c B ->
  (forall i j, i < r -> j < c -> entry A i j = entry B i j) ->
  A = B.
Proof.
  intros HA HB E.
  transitivity (mk_matrix r c (entry A)); [apply matrix_eta, HA|].
  transitivity (mk_matrix r c (entry B)); [| symmetry; apply matrix_eta, HB].
  apply mk_matrix_ext, E.
Qed.

Lemma zip_with_entries (g : C -> C -> C) (r c : nat) (A B : matrix C) :
  has_shape r c A -> has_shape r c B ->
  zip_with g A B = mk_matrix r c (fun i j => g (entry A i j) (entry B i j)).
Proof.
  intros HA HB.
  transitivity (zip_with g (mk_matrix r c (entry A)) (mk_matrix r c (entry B))).
  - f_equal; apply matrix_eta; assumption.
  - apply zip_with_mk.
Qed.

Lemma madd_shape (r c : nat) (A B : matrix C) :
  has_shape r c A -> has_shape r c B -> has_shape r c (madd A B).
Proof.
  intros HA HB; unfold madd; rewrite (zip_with_entries cadd HA HB).
  apply mk_matrix_shape.
Qed.

Lemma entry_madd (r c : nat) (A B : matrix C) (i j : nat) :
  has_shape r c A -> has_shape r c B -> i < r -> j < c ->
  entry (madd A B) i j = cadd (entry A i j) (entry B i j).
Proof.
  intros HA HB Hi Hj; unfold madd; rewrite (zip_with_entries cadd HA HB).
  rewrite entry_mk by assumption; reflexivity.
Qed.

Lemma mscale_shape (r c : nat) (x : C) (A : matrix C) :
  has_shape r c A -> has_shape r c (mscale x A).
Proof.
  intros [Hl Hf]; split; unfold mscale.
  - rewrite length_map; exact Hl.
  - rewrite Forall_map; eapply Forall_impl; [| exact Hf].
    intros row Hrow; rewrite length_map; exact Hrow.
Qed.

Lemma csum_map_zero {X : Type} (l : list X) :
  csum (map (fun _ => c0) l) = c0.
Proof.
  induction l as [|x l IH]; [reflexivity|].
  simpl map; rewrite csum_cons, IH; ring.
Qed.

Lemma csum_map_add {X : Type} (f g : X -> C) (l : list X) :
  csum (map (fun k => cadd (f k) (g k)) l)
  = cadd (csum (map f l)) (csum (map g l)).
Proof.
  induction l as [|x l IH]; simpl map.
  - unfold csum; simpl; ring.
  - rewrite !csum_cons, IH; ring.
Qed.

Lemma csum_map_mul_l {X : Type} (a : C) (f : X -> C) (l : list X) :
  csum (map (fun k => cmul a (f k)) l) = cmul a (csum (map f l)).
Proof.
  induction l as [|x l IH]; simpl map.
  - unfold csum; simpl; ring.
  - rewrite !csum_cons, IH; ring.
Qed.

Lemma csum_map_mul_r {X : Type} (a : C) (f : X -> C) (l : list X) :
  csum (map (fun k => cmul (f k) a) l) = cmul (csum (map f l)) a.
Proof.
  induction l as [|x l IH]; simpl map.
  - unfold csum; simpl; ring.
  - rewrite !csum_cons, IH; ring.
Qed.

Lemma csum_exchange {X Y : Type} (f : X -> Y -> C) (K : list X) (L : list Y) :
  csum (map (fun k => csum (map (fun l => f k l) L)) K)
  = csum (map (fun l => csum (map (fun k => f k l) K)) L).
Proof.
  induction K as [|k K IH]; simpl map.
  - rewrite csum_map_zero; reflexivity.
  - rewrite csum_cons, IH.
    rewrite <- csum_map_add.
    f_equal; apply map_ext; intro l; rewrite csum_cons; reflexivity.
Qed.

Section Dimension.
Variable d : nat.
Hypothesis d_pos : 1 <= d.

Let square (M : matrix C) : Prop := has_shape d d M.

Lemma square_ncols (M : matrix C) : square M -> ncols M = d.
Proof. apply has_shape_ncols, d_pos. Qed.

Lemma square_matmul (A B : matrix C) :
  square A -> square B -> square (matmul A B).
Proof. intros HA HB; apply matmul_shape with (k := d); assumption. Qed.

Lemma square_entry_matmul (A B : matrix C) (i j : nat) :
  square A -> square B -> i < d -> j < d ->
  entry (matmul A B) i j
  = csum (map (fun k => cmul (entry A i k) (entry B k j)) (seq 0 d)).
Proof.
  intros HA HB Hi Hj.
  apply entry_matmul with (r := d) (D := d);
    [exact HA | apply HB | exact Hi |].
  rewrite (square_ncols HB); exact Hj.
Qed.

Lemma matmul_assoc (A B D : matrix C) :
  square A -> square B -> square D ->
  matmul (matmul A B) D = matmul A (matmul B D).
Proof.
  intros HA HB HD.
  apply (@matrix_ext d d); try (repeat apply square_matmul; assumption).
  intros i j Hi Hj.
  rewrite !square_entry_matmul
    by (try assumption; apply square_matmul; assumption).
  transitivity
    (csum (map (fun k =>
                  csum (map (fun l => cmul (cmul (entry A i l) (entry B l k))
                                           (entry D k j))
                            (seq 0 d)))
               (seq 0 d))).
  - f_equal; apply map_ext_in; intros k Hk; apply in_seq in Hk.
    rewrite square_entry_matmul by (try assumption; lia).
    rewrite <- csum_map_mul_r; reflexivity.
  - rewrite csum_exchange.
    f_equal; apply map_ext_in; intros l Hl; apply in_seq in Hl.
    rewrite square_entry_matmul by (try assumption; lia).
    rewrite <- csum_map_mul_l.
    f_equal; apply map_ext; intro k; ring.
Qed.

Lemma matmul_madd_l (A B D : matrix C) :
  square A -> square B -> square D ->
  matmul A (madd B D) = madd (matmul A B) (matmul A D).
Proof.
  intros HA HB HD.
  apply (@matrix_ext d d);
    try (repeat first [apply square_matmul | apply madd_shape]; assumption).
  intros i j Hi Hj.
  rewrite (@entry_madd d d) by (try apply square_matmul; assumption).
  rewrite !square_entry_matmul
    by (try assumption; apply madd_shape; assumption).
  rewrite <- csum_map_add.
  f_equal; apply map_ext_in; intros k Hk; apply in_seq in Hk.
  rewrite (@entry_madd d d) by (try assumption; lia); ring.
Qed.

Lemma matmul_madd_r (A B D : matrix C) :
  square A -> square B -> square D ->
  matmul (madd A B) D = madd (matmul A D) (matmul B D).
Proof.
  intros HA HB HD.
  apply (@matrix_ext d d);
    try (repeat first [apply square_matmul | apply madd_shape]; assumption).
  intros i j Hi Hj.
  rewrite (@entry_madd d d) by (try apply square_matmul; assumption).
  rewrite !square_entry_matmul
    by (try assumption; apply madd_shape; assumption).
  rewrite <- csum_map_add.
  f_equal; apply map_ext_in; intros k Hk; apply in_seq in Hk.
  rewrite (@entry_madd d d) by (try assumption; lia); ring.
Qed.

Lemma square_zeros : square (zeros d d).
Proof. apply mk_matrix_shape. Qed.

Lemma matmul_zeros_r (A : matrix C) :
  square A -> matmul A (zeros d d) = zeros d d.
Proof.
  intro HA.
  apply (@matrix_ext d d);
    [apply square_matmul; [exact HA | apply square_zeros]
    | apply square_zeros |].
  intros i j Hi Hj.
  rewrite square_entry_matmul by (try assumption; apply square_zeros).
  unfold zeros at 2; rewrite entry_mk by assumption.
  rewrite <- (csum_map_zero (seq 0 d)).
  f_equal; apply map_ext_in; intros k Hk; apply in_seq in Hk.
  unfold zeros; rewrite entry_mk by lia; ring.
Qed.

Lemma matmul_zeros_l (A : matrix C) :
  square A -> matmul (zeros d d) A = zeros d d.
Proof.
  intro HA.
  apply (@matrix_ext d d);
    [apply square_matmul; [apply square_zeros | exact HA]
    | apply square_zeros |].
  intros i j Hi Hj.
  rewrite square_entry_matmul by (try assumption; apply square_zeros).
  unfold zeros at 2; rewrite entry_mk by assumption.
  rewrite <- (csum_map_zero (seq 0 d)).
  f_equal; apply map_ext_in; intros k Hk; apply in_seq in Hk.
  unfold zeros; rewrite entry_mk by lia; ring.
Qed.

Lemma square_fold_madd (Xs : list (matrix C)) :
  forall Acc, square Acc -> Forall square Xs ->
              square (fold_left madd Xs Acc).
Proof.
  induction Xs as [|X Xs IH]; intros Acc HAcc HXs; simpl; [exact HAcc|].
  inversion HXs; subst; apply IH; [apply madd_shape|]; assumption.
Qed.

(** Multiplying every term of a sum on both sides. *)
Lemma sandwich_sum (Li : matrix C) (Xs : list (matrix C)) :
  square Li -> Forall square Xs ->
  forall Acc, square Acc ->
    fold_left madd (map (fun X => matmul (matmul Li X) Li) Xs)
              (matmul (matmul Li Acc) Li)
    = matmul (matmul Li (fold_left madd Xs Acc)) Li.
Proof.
  intros HLi HXs; induction HXs as [|X Xs HX _ IH]; intros Acc HAcc;
    simpl; [reflexivity|].
  rewrite <- (IH (madd Acc X)) by (apply madd_shape; assumption).
  f_equal.
  rewrite matmul_madd_l, matmul_madd_r
    by (try apply square_matmul; assumption).
  reflexivity.
Qed.
End Dimension.
End SquareMatrices.

(* ================================================================= *)
(** ** One update of the POVM keeps it normalised *)

Section Normalisation.
Context {C : Type} `{ScalarRing C} `{Division C} `{Linalg C}.

Variable calibration_setup : QDTCalibrationSetup C.
Variable d : nat.
Hypothesis d_pos : 1 <= d.
Hypothesis probes_square :
  Forall (has_shape d d) (probe_states calibration_setup).

Lemma r_operator_shape (m_m : matrix C) (j : nat) (R : matrix C) :
  get_r_operator m_m j (frequencies_array calibration_setup)
                 (probe_states calibration_setup) = Ok R ->
  has_shape d d R.
Proof.
  unfold get_r_operator; intro E.
  apply bind_Ok_inv in E as (first_state & Efirst & E).
  apply bind_Ok_inv in E as (m_r & Efold & E).
  assert (Hd : nrows first_state = d).
  { apply (get_Ok_inv _ _ []) in Efirst as [Hlt ->].
    rewrite Forall_forall in probes_square.
    apply (probes_square (nth 0 (probe_states calibration_setup) [])).
    apply nth_In; exact Hlt. }
  rewrite Hd in *.
  assert (Hm : has_shape d d m_r).
  { apply (@foldM_invariant _ _ (has_shape d d) _ _ _ _ Efold);
      [apply mk_matrix_shape|].
    intros acc s acc' _ Hacc Estep.
    apply bind_Ok_inv in Estep as (rho & Erho & Estep).
    assert (Hrho : has_shape d d rho).
    { apply (get_Ok_inv _ _ []) in Erho as [Hlt ->].
      rewrite Forall_forall in probes_square.
      apply probes_square, nth_In; exact Hlt. }
    cbv zeta in Estep.
    destruct (ceqb (trace (matmul m_m rho)) c0).
    - injection Estep as <-; exact Hacc.
    - apply bind_Ok_inv in Estep as (row & _ & Estep).
      apply bind_Ok_inv in Estep as (f & _ & Estep).
      apply bind_Ok_inv in Estep as (x & _ & Estep).
      injection Estep as <-.
      apply madd_shape; [exact Hacc | apply mscale_shape; exact Hrho]. }
  injection E as <-.
  destruct (norm_is_zero m_r); [apply mk_matrix_shape | exact Hm].
Qed.

Lemma r_matrices_shape (povm rs : list (matrix C)) :
  r_matrices_of calibration_setup povm = Ok rs ->
  length rs = number_of_probe_states calibration_setup
  /\ Forall (has_shape d d) rs.
Proof.
  unfold r_matrices_of; intro E; split.
  - apply mapM_length in E; rewrite length_seq in E; exact E.
  - apply (@mapM_Forall _ _ (has_shape d d) _ _ _ E).
    intros j R _ ER.
    apply bind_Ok_inv in ER as (effect & _ & ER).
    apply (r_operator_shape _ _ ER).
Qed.

(** The product [Li R M R Li] as the code forms it, against the
    product [R M R] summed in the Lagrange matrix. *)
Lemma sandwich_regroup (Li R M : matrix C) :
  has_shape d d Li -> has_shape d d R -> has_shape d d M ->
  matmul (matmul (matmul (matmul Li R) M) R) Li
  = matmul (matmul Li (matmul (matmul R M) R)) Li.
Proof.
  intros HLi HR HM; f_equal.
  rewrite (matmul_assoc d_pos HLi HR HM).
  rewrite (@matmul_assoc _ _ _ d d_pos Li (matmul R M) R)
    by (try apply square_matmul; assumption).
  reflexivity.
Qed.

Lemma update_povm_normalised (povm rs : list (matrix C)) (S Li : matrix C) :
  Forall (has_shape d d) povm ->
  length povm = number_of_probe_states calibration_setup ->
  r_matrices_of calibration_setup povm = Ok rs ->
  second_power_of_lagrange_matrix rs povm = Ok S ->
  exact_kernels d S Li ->
  exists povm',
    update_povm calibration_setup povm = Ok povm'
    /\ length povm' = length povm
    /\ Forall (has_shape d d) povm'
    /\ povm_sum d povm' = eye d.
Proof.
  intros Hpovm Hlen Ers ES (HL & Hsq & Hinv & HLi & Hleft & Hright).
  destruct (r_matrices_shape _ Ers) as [Hlrs Hrs].
  set (m := number_of_probe_states calibration_setup) in *.
  set (X := fun j => matmul (matmul (nth j rs []) (nth j povm []))
                            (nth j rs [])).
  assert (Hnth : forall j, j < m ->
                           has_shape d d (nth j rs [])
                           /\ has_shape d d (nth j povm [])).
  { intros j Hj; rewrite Forall_forall in Hrs, Hpovm; split.
    - apply Hrs, nth_In; lia.
    - apply Hpovm, nth_In; lia. }
  assert (HX : Forall (has_shape d d) (map X (seq 0 m))).
  { rewrite Forall_map, Forall_forall; intros j Hj; apply in_seq in Hj.
    destruct (Hnth j) as [HR HM]; [lia|].
    unfold X; repeat apply square_matmul; assumption. }
  (* the matrix under the square root *)
  assert (ES' : S = fold_left madd (map X (seq 0 m)) (zeros d d)).
  { unfold second_power_of_lagrange_matrix in ES.
    apply bind_Ok_inv in ES as (first_effect & Efirst & ES).
    assert (Hd : nrows first_effect = d).
    { apply (get_Ok_inv _ _ []) in Efirst as [Hlt ->].
      rewrite Forall_forall in Hpovm; apply (Hpovm (nth 0 povm [])).
      apply nth_In; exact Hlt. }
    rewrite Hd, Hlen in ES.
    rewrite (foldM_Ok _ (fun acc j => madd acc (X j))) in ES.
    - injection ES as <-; apply fold_left_map_r.
    - intros acc j Hj; apply in_seq in Hj.
      rewrite (@get_Ok (matrix C) rs j []) by lia; cbn [bind].
      rewrite (@get_Ok (matrix C) povm j []) by lia; reflexivity. }
  exists (map (fun j => matmul (matmul Li (X j)) Li) (seq 0 m)).
  split; [| split; [| split]].
  - rewrite update_povm_steps, Ers; cbn [bind].
    rewrite get_lagrange_matrix_sqrtm, ES; cbn [bind].
    apply mapM_Ok; intros j Hj; apply in_seq in Hj.
    destruct (Hnth j) as [HR HM]; [lia|].
    rewrite (@get_Ok (matrix C) rs j []) by lia; cbn [bind].
    rewrite (@get_Ok (matrix C) povm j []) by lia; cbn [bind].
    unfold calculate_symmetric_m; rewrite Hinv; cbn [bind].
    f_equal; apply sandwich_regroup; assumption.
  - rewrite length_map, length_seq; symmetry; exact Hlen.
  - rewrite Forall_map, Forall_forall; intros j Hj; apply in_seq in Hj.
    rewrite Forall_map, Forall_forall in HX.
    apply (square_matmul d_pos); [| exact HLi].
    apply (square_matmul d_pos); [exact HLi|].
    apply HX, in_seq; lia.
  - unfold povm_sum.
    rewrite <- (matmul_zeros_l d_pos HLi) at 1.
    rewrite <- (matmul_zeros_r d_pos HLi) at 1.
    rewrite <- (map_map X (fun Y => matmul (matmul Li Y) Li)).
    rewrite (sandwich_sum d_pos HLi HX (square_zeros d)).
    rewrite <- ES', <- Hsq.
    rewrite <- (matmul_assoc d_pos HLi HL HL), Hleft.
    rewrite (matmul_eye_l d_pos HL); exact Hright.
Qed.
End Normalisation.

(** X29: one update of the POVM by the body of the loop normalises
    it.  When the probe states and the effects are [d x d], the POVM
    has one effect per column of the frequencies array, and the
    kernels are exact on the matrix [sum_j R_j M_j R_j] of this update
    (the square root squares to it, the inverse is a two-sided
    inverse), the update raises nothing and returns as many [d x d]
    effects, which sum to the identity. *)
Theorem update_povm_sums_to_identity
        {C : Type} `{ScalarRing C} `{Division C} `{Linalg C}
        (calibration_setup : QDTCalibrationSetup C) (d : nat)
        (povm rs : list (matrix C)) (S Li : matrix C) :
  1 <= d ->
  Forall (has_shape d d) (probe_states calibration_setup) ->
  Forall (has_shape d d) povm ->
  length povm = number_of_probe_states calibration_setup ->
  r_matrices_of calibration_setup povm = Ok rs ->
  second_power_of_lagrange_matrix rs povm = Ok S ->
  exact_kernels d S Li ->
  exists povm',
    update_povm calibration_setup povm = Ok povm'
    /\ length povm' = length povm
    /\ Forall (has_shape d d) povm'
    /\ povm_sum d povm' = eye d.
Proof.
  intros Hd Hprobes; apply (update_povm_normalised _ Hd Hprobes).
Qed.

Lemma update_povm_sums_to_identity_witness :
  exists povm',
    update_povm basis_probe_setup uniform_povm = Ok povm'
    /\ length povm' = length uniform_povm
    /\ Forall (has_shape 2 2) povm'
    /\ povm_sum 2 povm' = eye 2.
Proof.
  eapply (@update_povm_sums_to_identity Qcanon.Qc _ _ _ _ basis_probe_setup 2
                                        uniform_povm).
  - lia.
  - repeat constructor.
  - repeat constructor.
  - reflexivity.
  - vm_compute; reflexivity.
  - vm_compute; reflexivity.
  - split; [repeat constructor|].
    split; [apply matrix_eqb_eq; vm_compute; reflexivity|].
    split; [vm_compute; reflexivity|].
    split; [repeat constructor|].
    split; apply matrix_eqb_eq; vm_compute; reflexivity.
Defined.

(* ================================================================= *)
(** ** [operational_distance_POVMs], method ['direct'] *)

Lemma combinations_zero {A : Type} (l : list A) : combinations l 0 = [[]].
Proof. destruct l; reflexivity. Qed.

Lemma combinations_sound {A : Type} (D : list A) :
  forall r l, In l (combinations D r) -> subsequence l D /\ length l = r.
Proof.
  induction D as [|x D IH]; intros [|r] l Hl; simpl in Hl.
  - destruct Hl as [<- | []]; split; [constructor | reflexivity].
  - contradiction.
  - destruct Hl as [<- | []]; split; [| reflexivity].
    constructor; apply (IH 0); rewrite combinations_zero; left; reflexivity.
  - apply in_app_or in Hl as [Hl | Hl].
    + apply in_map_iff in Hl as (l' & <- & Hl').
      destruct (IH r l' Hl') as [Hs Hlen].
      split; [constructor; exact Hs | simpl; f_equal; exact Hlen].
    + destruct (IH (S r) l Hl) as [Hs Hlen].
      split; [constructor; exact Hs | exact Hlen].
Qed.

Lemma combinations_complete {A : Type} (l D : list A) :
  subsequence l D -> In l (combinations D (length l)).
Proof.
  induction 1 as [| x l D _ IH | x l D _ IH]; simpl.
  - left; reflexivity.
  - apply in_or_app; left; apply in_map; exact IH.
  - destruct l as [|y l]; simpl in *.
    + left; reflexivity.
    + apply in_or_app; right; exact IH.
Qed.

Lemma subsequence_length {A : Type} (l D : list A) :
  subsequence l D -> length l <= length D.
Proof. induction 1; simpl; lia. Qed.

(** A running maximum ends at its start value or at one of the values
    met, and below none of them. *)
Lemma running_maximum {X : Type} (f : X -> Q) (L : list X) :
  forall b,
    let r := fold_left (fun big x => if Qltb big (f x) then f x else big) L b in
    (b <= r)%Q
    /\ (forall x, In x L -> (f x <= r)%Q)
    /\ (r = b \/ exists x, In x L /\ r = f x).
Proof.
  induction L as [|x L IH]; intro b; simpl.
  - split; [lra | split; [contradiction | left; reflexivity]].
  - destruct (Qltb b (f x)) eqn:E.
    + apply Qltb_true in E.
      destruct (IH (f x)) as (Hb & Hall & Hex).
      split; [lra | split].
      * intros y [<- | Hy]; [exact Hb | apply Hall, Hy].
      * right; destruct Hex as [-> | (y & Hy & ->)];
          [exists x | exists y]; auto.
    + apply Qltb_false in E.
      destruct (IH b) as (Hb & Hall & Hex).
      split; [exact Hb | split].
      * intros y [<- | Hy]; [lra | apply Hall, Hy].
      * destruct Hex as [-> | (y & Hy & ->)]; [left; reflexivity|].
        right; exists y; auto.
Qed.

Lemma fold_left_flat_map {X Y S : Type} (g : S -> Y -> S) (h : X -> list Y)
      (L : list X) :
  forall s,
    fold_left (fun acc x => fold_left g (h x) acc) L s
    = fold_left g (flat_map h L) s.
Proof.
  induction L as [|x L IH]; intro s; simpl; [reflexivity|].
  rewrite fold_left_app; apply IH.
Qed.

Section OperationalDistanceFacts.
Context {C : Type} `{Scalar C} `{Linalg C}.

Lemma differences_Ok (M P : list (matrix C)) :
  length M <= length P ->
  mapM (fun i => Mi <- get M i ;; Pi <- get P i ;; Ok (msub Mi Pi))
       (seq 0 (length M))
  = Ok (map (fun i => msub (nth i M []) (nth i P [])) (seq 0 (length M))).
Proof.
  intro Hl; apply mapM_Ok; intros i Hi; apply in_seq in Hi.
  rewrite (@get_Ok (matrix C) M i []) by lia; cbn [bind].
  rewrite (@get_Ok (matrix C) P i []) by lia; reflexivity.
Qed.

Lemma operational_distance_maximum (M P : list (matrix C)) :
  length M <= length P ->
  let difference :=
    map (fun i => msub (nth i M []) (nth i P [])) (seq 0 (length M)) in
  exists r,
    operational_distance_POVMs M P = Ok r
    /\ (0 <= r)%Q
    /\ (forall l, l <> [] -> subsequence l difference ->
                  (norm2 (sum_arrays l) <= r)%Q)
    /\ (r = 0%Q
        \/ exists l, l <> [] /\ subsequence l difference
                     /\ r = norm2 (sum_arrays l)).
Proof.
  intros Hl difference.
  unfold operational_distance_POVMs.
  rewrite (differences_Ok _ _ Hl); cbn [bind]; fold difference.
  eexists; split; [reflexivity|].
  rewrite (fold_left_flat_map keep_biggest
             (fun k => combinations difference (k + 1))).
  unfold keep_biggest.
  destruct (running_maximum (fun l => norm2 (sum_arrays l))
              (flat_map (fun k => combinations difference (k + 1))
                        (rev (seq 0 (length M)))) 0%Q)
    as (Hb & Hall & Hex).
  split; [exact Hb | split].
  - intros l Hne Hs; apply Hall.
    apply in_flat_map; exists (length l - 1); split.
    + apply in_rev; rewrite rev_involutive; apply in_seq.
      pose proof (subsequence_length Hs) as Hle.
      unfold difference in Hle; rewrite length_map, length_seq in Hle.
      destruct l; [contradiction | simpl in *; lia].
    + replace (length l - 1 + 1) with (length l)
        by (destruct l; [contradiction | simpl; lia]).
      apply combinations_complete, Hs.
  - destruct Hex as [E | (l & Hl' & E)]; [left; exact E | right].
    apply in_flat_map in Hl' as (k & _ & Hk).
    apply combinations_sound in Hk as [Hs Hlen].
    exists l; repeat split; [| exact Hs | exact E].
    intros ->; simpl in Hlen; lia.
Qed.

Lemma operational_distance_short (M P : list (matrix C)) :
  length P < length M ->
  operational_distance_POVMs M P = Raise IndexError.
Proof.
  intro Hl; unfold operational_distance_POVMs.
  destruct (mapM _ (seq 0 (length M))) as [difference|e] eqn:E.
  - exfalso.
    destruct (mapM_Ok_inv _ _ E (length P)) as (y & Ey);
      [apply in_seq; lia|].
    rewrite (@get_Ok (matrix C) M (length P) []) in Ey by lia.
    cbn [bind] in Ey; unfold get in Ey.
    rewrite (proj2 (nth_error_None P (length P)) (le_n _)) in Ey.
    discriminate.
  - cbn [bind]; f_equal.
    clear - E Hl.
    assert (Hgen : forall l, mapM (fun i => Mi <- get M i ;; Pi <- get P i ;;
                                            Ok (msub Mi Pi)) l = Raise e ->
                             Forall (fun i => i < length M) l ->
                             e = IndexError).
    { induction l as [|i l IH]; simpl; intros El Hall; [discriminate|].
      inversion Hall as [|? ? Hi Hall']; subst.
      rewrite (@get_Ok (matrix C) M i []) in El by exact Hi.
      cbn [bind] in El; unfold get in El.
      destruct (nth_error P i) as [Pi|]; cbn [bind] in El.
      - destruct (mapM _ l) as [ys|e'] eqn:El'; cbn [bind] in El;
          [discriminate|].
        injection El as <-; apply IH; [reflexivity | exact Hall'].
      - injection El as <-; reflexivity. }
    apply (Hgen _ E).
    apply Forall_forall; intros i Hi; apply in_seq in Hi; lia.
Qed.

(** X30: with the method ['direct'], [operational_distance_POVMs]
    returns the largest spectral norm of a sum of differences
    [M[i] - P[i]] over the non-empty subsets of outcomes: the result
    is non-negative, no subset sum has a larger norm, and the result
    is zero or the norm of one of the subset sums.  When [P] has
    fewer effects than [M] it raises [IndexError]. *)
Theorem operational_distance_is_largest_subset_norm (M P : list (matrix C)) :
  (length M <= length P ->
   let difference :=
     map (fun i => msub (nth i M []) (nth i P [])) (seq 0 (length M)) in
   exists r,
     operational_distance_POVMs M P = Ok r
     /\ (0 <= r)%Q
     /\ (forall l, l <> [] -> subsequence l difference ->
                   (norm2 (sum_arrays l) <= r)%Q)
     /\ (r = 0%Q
         \/ exists l, l <> [] /\ subsequence l difference
                      /\ r = norm2 (sum_arrays l)))
  /\ (length P < length M ->
      operational_distance_POVMs M P = Raise IndexError).
Proof.
  split; [apply operational_distance_maximum | apply operational_distance_short].
Qed.
End OperationalDistanceFacts.

Lemma operational_distance_is_largest_subset_norm_witness :
  (let difference :=
     map (fun i => msub (nth i uniform_povm []) (nth i overshot_povm []))
         (seq 0 (length uniform_povm)) in
   exists r,
     operational_distance_POVMs uniform_povm overshot_povm = Ok r
     /\ (0 <= r)%Q
     /\ (forall l, l <> [] -> subsequence l difference ->
                   (norm2 (sum_arrays l) <= r)%Q)
     /\ (r = 0%Q
         \/ exists l, l <> [] /\ subsequence l difference
                      /\ r = norm2 (sum_arrays l)))
  /\ operational_distance_POVMs uniform_povm [] = Raise IndexError.
Proof.
  split.
  - apply (proj1 (@operational_distance_is_largest_subset_norm
                    Qcanon.Qc _ _ uniform_povm overshot_povm)).
    simpl; lia.
  - apply (proj2 (@operational_distance_is_largest_subset_norm
                    Qcanon.Qc _ _ uniform_povm [])).
    simpl; lia.
Defined.
